(** * Issue tracker backend: the auth middleware, the issue repository and
      the issue controller, embedded from the JavaScript sources.

    - [Js]: the JavaScript values the code inspects (truthiness,
      [=== undefined], [split], [toUpperCase], [Array.includes]).
    - [Store]: the relational schema of the DDL file and the statements the
      models send to it, with placeholders [$n] and a bound-parameter list.
    - [AuthModel], [IssueModel], [IssueController], [Middleware]: the
      functions of the sources, one definition per function.

    Conventions.  Identifiers and timestamps are integers ([Z]); the width of
    the store's integer columns and the collation of its text columns are
    not modelled.  [NOW()] is the clock reading [now] handed to the
    operation that runs the statement. *)

From Stdlib Require Import ZArith Ascii String List Bool Lia.
From stdpp Require Import base option list sorting strings pretty gmap fin_maps.

Local Open Scope Z_scope.

(* ===================================================================== *)
(** * JavaScript values *)
(* ===================================================================== *)

Module Js.

(** A JSON-borne value as the handlers see it. *)
Inductive value : Type :=
| Undefined
| Null
| Str (s : string)
| Num (n : Z).

#[global] Instance value_eq_dec : EqDecision value.
Proof. solve_decision. Defined.

(** [if (v)]: undefined, null, the empty string and 0 are falsy. *)
Definition truthy (v : value) : bool :=
  match v with
  | Undefined | Null => false
  | Str s => negb (String.eqb s EmptyString)
  | Num n => negb (n =? 0)
  end.

(** [v !== undefined] *)
Definition defined (v : value) : bool :=
  match v with Undefined => false | _ => true end.

(** A destructuring default [{ x = d } = obj] applies to undefined only. *)
Definition or_default (d v : value) : value :=
  match v with Undefined => d | _ => v end.

(** A plain object read by destructuring: a missing key is undefined. *)
Definition prop (o : gmap string value) (k : string) : value :=
  default Undefined (o !! k).

Definition upper_char (c : ascii) : ascii :=
  let n := N_of_ascii c in
  if ((97 <=? n) && (n <=? 122))%N then ascii_of_N (n - 32) else c.

Definition lower_char (c : ascii) : ascii :=
  let n := N_of_ascii c in
  if ((65 <=? n) && (n <=? 90))%N then ascii_of_N (n + 32) else c.

(** [String.prototype.toUpperCase] and [toLowerCase] on a text of ASCII
    characters: the 26 letters change their case and nothing else does.
    Outside ASCII the methods do more (the long s becomes [S]); the theorems
    on the sort order are stated for ASCII text. *)
Fixpoint toUpperCase (s : string) : string :=
  match s with
  | EmptyString => EmptyString
  | String c s' => String (upper_char c) (toUpperCase s')
  end.

Fixpoint toLowerCase (s : string) : string :=
  match s with
  | EmptyString => EmptyString
  | String c s' => String (lower_char c) (toLowerCase s')
  end.

(** [s.split(' ')]: every single space separates, empty parts are kept. *)
Fixpoint split_space (s : string) : list string :=
  match s with
  | EmptyString => [EmptyString]
  | String c s' =>
      if Ascii.eqb c " "%char then EmptyString :: split_space s'
      else match split_space s' with
           | w :: ws => String c w :: ws
           | [] => [String c EmptyString]
           end
  end.

(** [arr.includes(v)] for an array of string literals. *)
Definition includes (arr : list string) (v : value) : bool :=
  match v with
  | Str s => existsb (String.eqb s) arr
  | _ => false
  end.

(** A template literal [`${v}`]. *)
Definition template (v : value) : string :=
  match v with
  | Undefined => "undefined"
  | Null => "null"
  | Str s => s
  | Num n => pretty n
  end.

(** A number of JavaScript that is an integer is held as it is.  Such a
    number is exact, in the source and here alike, when it is a safe
    integer; the theorems about page numbers and page sizes carry that as a
    hypothesis. *)
Definition safe (n : Z) : Prop :=
  - 9007199254740991 ≤ n ≤ 9007199254740991.

(** [parseInt(n)] of a number that is a safe integer: the number's decimal
    text, read back. *)
Definition parseInt (n : Z) : Z := n.

(** The numbers [Math.ceil(a / b)] can yield for integers [a] and [b]. *)
Inductive number : Type :=
| Finite (n : Z)
| PosInfinity
| NegInfinity
| NaN.

(** [Math.ceil(a / b)].  The quotient of two integers below 2^53 rounds to
    an integer only when it is one, so the ceiling of the floating-point
    quotient is the ceiling of the exact one. *)
Definition ceil_div (a b : Z) : number :=
  if b =? 0 then
    if a =? 0 then NaN else if 0 <? a then PosInfinity else NegInfinity
  else Finite (- ((- a) / b)).

End Js.

(* ===================================================================== *)
(** * Errors *)
(* ===================================================================== *)

(** What the store can refuse a statement for. *)
Inductive store_error : Type :=
| InvalidEnumInput (label : string)
| InvalidIntegerInput (text : string)
| NotNullViolation (column : string)
| ForeignKeyViolation (column : string)
| UniqueViolation (column : string)
| ValueTooLong (column : string)
| NumericValueOutOfRange (type : string)
| NegativeLimitOrOffset
| BindMismatch
| DuplicateAssignment (column : string)
| UnsupportedBinding (column : string).

(** The exceptions that travel through [throw] and [next(error)]. *)
Inductive js_error : Type :=
| UnauthorizedError (message : string)
| ConflictError (message : string)
| JsonWebTokenError
| TokenExpiredError
| NotBeforeError
| TypeError (message : string)
| DatabaseError (e : store_error).

(** [error.name] *)
Definition error_name (e : js_error) : string :=
  match e with
  | UnauthorizedError _ => "UnauthorizedError"
  | ConflictError _ => "ConflictError"
  | JsonWebTokenError => "JsonWebTokenError"
  | TokenExpiredError => "TokenExpiredError"
  | NotBeforeError => "NotBeforeError"
  | TypeError _ => "TypeError"
  | DatabaseError _ => "error"
  end.

Inductive result (A : Type) : Type :=
| Ok (a : A)
| Throw (e : js_error).
Arguments Ok {A} a.
Arguments Throw {A} e.

#[global] Instance store_error_eq_dec : EqDecision store_error.
Proof. solve_decision. Defined.
#[global] Instance js_error_eq_dec : EqDecision js_error.
Proof. solve_decision. Defined.
#[global] Instance result_eq_dec {A} `{EqDecision A} : EqDecision (result A).
Proof. solve_decision. Defined.

(* ===================================================================== *)
(** * middleware/auth.js *)
(* ===================================================================== *)

Module Middleware.

(** The payload [jwt.verify] hands back: the three claims [generateToken]
    signs, and the issue and expiry times the library adds. *)
Record claims : Type := {
  c_userId : Js.value;
  c_email : Js.value;
  c_name : Js.value;
  c_iat : Z;
  c_exp : Z
}.

(** [req.user] *)
Record identity : Type := {
  userId : Js.value;
  email : Js.value;
  name : Js.value
}.

Record request : Type := {
  authorization : option string;        (* req.headers.authorization *)
  user : option identity;               (* req.user, null when [None] *)
  params_id : Z;                        (* req.params.id *)
  body : gmap string Js.value;          (* req.body *)
  query : gmap string Js.value          (* req.query *)
}.

Definition set_user (u : option identity) (req : request) : request :=
  {| authorization := authorization req;
     user := u;
     params_id := params_id req;
     body := body req;
     query := query req |}.

(** What a middleware ends with: [next()] on the (possibly updated)
    request or [next(error)]. *)
Inductive step : Type :=
| Next (req : request)
| NextError (e : js_error).

Definition identity_of (d : claims) : identity :=
  {| userId := c_userId d; email := c_email d; name := c_name d |}.

(** [!authHeader] *)
Definition header_missing (h : option string) : bool :=
  match h with
  | None => true
  | Some s => String.eqb s EmptyString
  end.

(** [parts.length === 2 && parts[0] === 'Bearer'], giving [parts[1]]. *)
Definition bearer_token (parts : list string) : option string :=
  match parts with
  | [p0; p1] => if String.eqb p0 "Bearer" then Some p1 else None
  | _ => None
  end.

Section WithJwt.

(** [jwt.verify(token, process.env.JWT_SECRET)] of the jsonwebtoken
    library, for the configured secret. *)
Variable jwt_verify : string → result claims.

(** The [try] block of [authenticate]. *)
Definition authenticate_try (req : request) : result request :=
  if header_missing (authorization req) then
    Throw (UnauthorizedError "No authorization token provided")
  else
    let parts := Js.split_space (default EmptyString (authorization req)) in
    match bearer_token parts with
    | None =>
        Throw (UnauthorizedError
                 "Invalid authorization header format. Use: Bearer <token>")
    | Some token =>
        match jwt_verify token with
        | Throw e => Throw e
        | Ok decoded => Ok (set_user (Some (identity_of decoded)) req)
        end
    end.

Definition authenticate (req : request) : step :=
  match authenticate_try req with
  | Ok req' => Next req'
  | Throw error =>
      if String.eqb (error_name error) "JsonWebTokenError" then
        NextError (UnauthorizedError "Invalid token")
      else if String.eqb (error_name error) "TokenExpiredError" then
        NextError (UnauthorizedError "Token has expired")
      else NextError error
  end.

(** The [try] block of [optionalAuth]. *)
Definition optionalAuth_try (req : request) : result request :=
  if header_missing (authorization req) then
    Ok (set_user None req)
  else
    let parts := Js.split_space (default EmptyString (authorization req)) in
    match bearer_token parts with
    | Some token =>
        match jwt_verify token with
        | Throw e => Throw e
        | Ok decoded => Ok (set_user (Some (identity_of decoded)) req)
        end
    | None => Ok (set_user None req)
    end.

Definition optionalAuth (req : request) : step :=
  match optionalAuth_try req with
  | Ok req' => Next req'
  | Throw _ => Next (set_user None req)
  end.

End WithJwt.

End Middleware.

(* ===================================================================== *)
(** * The relational store: schema and statements *)
(* ===================================================================== *)

Module Store.

(** ** Schema (the DDL file) *)

(** [CREATE TYPE issue_status AS ENUM (...)], in declaration order. *)
Inductive issue_status : Type := Open | InProgress | Resolved | Closed.
Inductive issue_priority : Type := Low | Medium | High | Critical.
Inductive issue_severity : Type := Minor | Major | SevCritical.

#[global] Instance issue_status_eq_dec : EqDecision issue_status.
Proof. solve_decision. Defined.
#[global] Instance issue_priority_eq_dec : EqDecision issue_priority.
Proof. solve_decision. Defined.
#[global] Instance issue_severity_eq_dec : EqDecision issue_severity.
Proof. solve_decision. Defined.

Definition status_label (s : issue_status) : string :=
  match s with
  | Open => "Open" | InProgress => "In Progress"
  | Resolved => "Resolved" | Closed => "Closed"
  end.

Definition priority_label (p : issue_priority) : string :=
  match p with
  | Low => "Low" | Medium => "Medium" | High => "High" | Critical => "Critical"
  end.

Definition severity_label (s : issue_severity) : string :=
  match s with
  | Minor => "Minor" | Major => "Major" | SevCritical => "Critical"
  end.

Definition status_of_label (l : string) : option issue_status :=
  list_find (λ s, status_label s = l) [Open; InProgress; Resolved; Closed]
    ≫= λ p, Some p.2.

Definition priority_of_label (l : string) : option issue_priority :=
  list_find (λ p, priority_label p = l) [Low; Medium; High; Critical]
    ≫= λ p, Some p.2.

Definition severity_of_label (l : string) : option issue_severity :=
  list_find (λ s, severity_label s = l) [Minor; Major; SevCritical]
    ≫= λ p, Some p.2.

(** Position in the enum declaration, which is how the store orders it. *)
Definition status_rank (s : issue_status) : Z :=
  match s with Open => 0 | InProgress => 1 | Resolved => 2 | Closed => 3 end.
Definition priority_rank (p : issue_priority) : Z :=
  match p with Low => 0 | Medium => 1 | High => 2 | Critical => 3 end.
Definition severity_rank (s : issue_severity) : Z :=
  match s with Minor => 0 | Major => 1 | SevCritical => 2 end.

(** [users] *)
Record user_row : Type := {
  user_id : Z;                 (* SERIAL PRIMARY KEY *)
  name : string;               (* VARCHAR(100) NOT NULL *)
  email : string;              (* VARCHAR(255) NOT NULL UNIQUE *)
  password_hash : string;      (* VARCHAR(255) NOT NULL *)
  u_created_at : Z;
  u_updated_at : Z;
  is_enabled : bool            (* BOOLEAN DEFAULT TRUE *)
}.

(** [issues] *)
Record issue_row : Type := {
  issue_id : Z;                          (* SERIAL PRIMARY KEY *)
  title : string;                        (* VARCHAR(255) NOT NULL *)
  description : option string;           (* TEXT *)
  status : option issue_status;          (* DEFAULT 'Open' *)
  priority : option issue_priority;      (* DEFAULT 'Medium' *)
  severity : option issue_severity;      (* DEFAULT 'Minor' *)
  created_by : Z;                        (* INTEGER NOT NULL, FK users *)
  assigned_to : option Z;                (* INTEGER, FK users *)
  created_at : Z;
  updated_at : Z;
  resolved_at : option Z                 (* TIMESTAMP *)
}.

(** The verb of a statement, as the journal of the connection records it. *)
Inductive verb : Type := SELECT | INSERT | UPDATE | DELETE.

Record db : Type := {
  users : list user_row;
  issues : list issue_row;
  users_seq : Z;               (* next value of users.user_id *)
  issues_seq : Z;              (* next value of issues.issue_id *)
  journal : list verb          (* statements received, oldest first *)
}.

(** [await query(...)]: the store answers or throws, and moves on. *)
Definition M (A : Type) : Type := db → result A * db.

Definition ret {A} (a : A) : M A := λ d, (Ok a, d).
Definition throw {A} (e : js_error) : M A := λ d, (Throw e, d).
Definition bind {A B} (m : M A) (k : A → M B) : M B :=
  λ d, match m d with
       | (Ok a, d') => k a d'
       | (Throw e, d') => (Throw e, d')
       end.

Notation "'let*' x ':=' m 'in' k" := (bind m (λ x, k))
  (at level 10, x name, m at level 100, k at level 200, only parsing).

Definition received (v : verb) (d : db) : db :=
  {| users := users d; issues := issues d; users_seq := users_seq d;
     issues_seq := issues_seq d; journal := journal d ++ [v] |}.

Definition with_issues (rows : list issue_row) (d : db) : db :=
  {| users := users d; issues := rows; users_seq := users_seq d;
     issues_seq := issues_seq d; journal := journal d |}.


Definition bump_issues_seq (d : db) : db :=
  {| users := users d; issues := issues d; users_seq := users_seq d;
     issues_seq := issues_seq d + 1; journal := journal d |}.


(** ** Values *)

(** What reaches the store for a placeholder, and what [NOW()] yields. *)
Inductive sqlval : Type :=
| SqlNull
| SqlText (s : string)
| SqlInt (n : Z)
| SqlTime (t : Z).

(** The driver's conversion of a bound JavaScript value: undefined and null
    both become NULL. *)
Definition prepareValue (v : Js.value) : sqlval :=
  match v with
  | Js.Undefined | Js.Null => SqlNull
  | Js.Str s => SqlText s
  | Js.Num n => SqlInt n
  end.

(** A typed cell of an [issues] row. *)
Inductive cell : Type :=
| CNull
| CInt (n : Z)
| CText (s : string)
| CStatus (s : issue_status)
| CPriority (p : issue_priority)
| CSeverity (s : issue_severity)
| CTime (t : Z).

#[global] Instance cell_eq_dec : EqDecision cell.
Proof. solve_decision. Defined.

Inductive column : Type :=
| IssueId | Title | Description | Status | Priority | Severity
| CreatedBy | AssignedTo | CreatedAt | UpdatedAt | ResolvedAt.

#[global] Instance column_eq_dec : EqDecision column.
Proof. solve_decision. Defined.

Definition all_columns : list column :=
  [IssueId; Title; Description; Status; Priority; Severity;
   CreatedBy; AssignedTo; CreatedAt; UpdatedAt; ResolvedAt].

Definition column_name (c : column) : string :=
  match c with
  | IssueId => "issue_id" | Title => "title" | Description => "description"
  | Status => "status" | Priority => "priority" | Severity => "severity"
  | CreatedBy => "created_by" | AssignedTo => "assigned_to"
  | CreatedAt => "created_at" | UpdatedAt => "updated_at"
  | ResolvedAt => "resolved_at"
  end.

(** Resolution of an identifier written into the statement text. *)
Definition column_of_name (n : string) : option column :=
  list_find (λ c, column_name c = n) all_columns ≫= λ p, Some p.2.

Definition cell_of (c : column) (r : issue_row) : cell :=
  match c with
  | IssueId => CInt (issue_id r)
  | Title => CText (title r)
  | Description => from_option CText CNull (description r)
  | Status => from_option CStatus CNull (status r)
  | Priority => from_option CPriority CNull (priority r)
  | Severity => from_option CSeverity CNull (severity r)
  | CreatedBy => CInt (created_by r)
  | AssignedTo => from_option CInt CNull (assigned_to r)
  | CreatedAt => CTime (created_at r)
  | UpdatedAt => CTime (updated_at r)
  | ResolvedAt => from_option CTime CNull (resolved_at r)
  end.

(** ** Text *)

(** The blanks the store skips around a number: space, tab, line feed,
    vertical tab, form feed and carriage return. *)
Definition is_blank (c : ascii) : bool :=
  let n := N_of_ascii c in ((n =? 32) || ((9 <=? n) && (n <=? 13)))%N.

Fixpoint blank (s : string) : bool :=
  match s with
  | EmptyString => true
  | String c s' => is_blank c && blank s'
  end.

Fixpoint skip_blanks (s : string) : string :=
  match s with
  | String c s' => if is_blank c then skip_blanks s' else s
  | EmptyString => EmptyString
  end.

(** The decimal digits at the front, then blanks only. *)
Fixpoint digits (s : string) (acc : Z) : option Z :=
  match s with
  | EmptyString => Some acc
  | String c s' =>
      match Ascii.is_nat c with
      | Some d => digits s' (10 * acc + Z.of_nat d)
      | None => if blank s then Some acc else None
      end
  end.

Definition starts_with_digit (s : string) : bool :=
  match s with
  | String c _ => bool_decide (is_Some (Ascii.is_nat c))
  | EmptyString => false
  end.

(** The integer a text stands for: blanks, an optional sign, at least one
    decimal digit, blanks. *)
Definition int_of_text (s : string) : option Z :=
  match skip_blanks s with
  | String "-" s' =>
      if starts_with_digit s' then Z.opp <$> digits s' 0 else None
  | String "+" s' => if starts_with_digit s' then digits s' 0 else None
  | s' => if starts_with_digit s' then digits s' 0 else None
  end.

(** Text is UTF-8: a byte [10xxxxxx] continues the character begun before
    it. *)
Definition is_continuation (c : ascii) : bool :=
  let n := N_of_ascii c in ((128 <=? n) && (n <? 192))%N.

(** The number of characters of a text. *)
Fixpoint char_length (s : string) : nat :=
  match s with
  | EmptyString => 0
  | String c s' =>
      if is_continuation c then char_length s' else S (char_length s')
  end.

(** The text without the continuation bytes at its front. *)
Fixpoint skip_continuation (s : string) : string :=
  match s with
  | String c s' => if is_continuation c then skip_continuation s' else s
  | EmptyString => EmptyString
  end.

(** The first [n] characters of a text, and what follows them. *)
Fixpoint take_chars (n : nat) (s : string) : string :=
  match s with
  | EmptyString => EmptyString
  | String c s' =>
      if is_continuation c then String c (take_chars n s')
      else match n with
           | O => EmptyString
           | S n' => String c (take_chars n' s')
           end
  end.

Fixpoint drop_chars (n : nat) (s : string) : string :=
  match s with
  | EmptyString => EmptyString
  | String c s' =>
      if is_continuation c then drop_chars n s'
      else match n with
           | O => s
           | S n' => drop_chars n' s'
           end
  end.

Fixpoint all_spaces (s : string) : bool :=
  match s with
  | EmptyString => true
  | String c s' => Ascii.eqb c " "%char && all_spaces s'
  end.

Definition db_throw {A} (e : store_error) : result A := Throw (DatabaseError e).

(** Assignment to a [VARCHAR(max)] column: a text of at most [max]
    characters is taken as it is; a longer one is cut to [max] characters
    when all it loses is spaces, and refused otherwise. *)
Definition varchar (column : string) (max : nat) (s : string) : result string :=
  if (char_length s <=? max)%nat then Ok s
  else if all_spaces (drop_chars max s) then Ok (take_chars max s)
  else db_throw (ValueTooLong column).

(** A text on its way into [title]. *)
Definition title_cell (s : string) : result cell :=
  match varchar "title" 255 s with
  | Ok t => Ok (CText t)
  | Throw e => Throw e
  end.

(** Input conversion of a bound value for the column it is compared with or
    assigned to.  Text reaches an enum column only as one of its labels, and
    [title], which is [VARCHAR(255)], as the assignment to the column takes
    it.  An integer is kept as it is: the range of the 4-byte [INTEGER]
    columns is not followed here, and the theorems that depend on it carry
    it as the hypothesis [Spec.int4]. *)
Definition coerce (c : column) (v : sqlval) : result cell :=
  match v with
  | SqlNull => Ok CNull
  | _ =>
    match c, v with
    | (IssueId | CreatedBy | AssignedTo), SqlInt n => Ok (CInt n)
    | (IssueId | CreatedBy | AssignedTo), SqlText s =>
        match int_of_text s with
        | Some n => Ok (CInt n)
        | None => db_throw (InvalidIntegerInput s)
        end
    | Title, SqlText s => title_cell s
    | Title, SqlInt n => title_cell (pretty n)
    | Description, SqlText s => Ok (CText s)
    | Description, SqlInt n => Ok (CText (pretty n))
    | Status, SqlText s =>
        from_option (λ x, Ok (CStatus x)) (db_throw (InvalidEnumInput s))
          (status_of_label s)
    | Priority, SqlText s =>
        from_option (λ x, Ok (CPriority x)) (db_throw (InvalidEnumInput s))
          (priority_of_label s)
    | Severity, SqlText s =>
        from_option (λ x, Ok (CSeverity x)) (db_throw (InvalidEnumInput s))
          (severity_of_label s)
    | (Status | Priority | Severity), SqlInt n =>
        db_throw (InvalidEnumInput (pretty n))
    | (CreatedAt | UpdatedAt | ResolvedAt), SqlTime t => Ok (CTime t)
    | _, _ => db_throw (UnsupportedBinding (column_name c))
    end
  end.

(** Monadic plumbing for [result], so that a failed conversion aborts the
    statement. *)
#[global] Instance result_ret : MRet result := λ A a, Ok a.
#[global] Instance result_bind : MBind result :=
  λ A B f m, match m with Ok a => f a | Throw e => Throw e end.

Fixpoint traverse {A B} (f : A → result B) (l : list A) : result (list B) :=
  match l with
  | [] => Ok []
  | x :: l' =>
      match f x with
      | Throw e => Throw e
      | Ok y => match traverse f l' with
                | Throw e => Throw e
                | Ok ys => Ok (y :: ys)
                end
      end
  end.

(** ** Writing a cell *)

Definition set_issue_id (v : Z) (r : issue_row) : issue_row :=
  Build_issue_row v (title r) (description r) (status r) (priority r)
    (severity r) (created_by r) (assigned_to r) (created_at r) (updated_at r)
    (resolved_at r).
Definition set_title (v : string) (r : issue_row) : issue_row :=
  Build_issue_row (issue_id r) v (description r) (status r) (priority r)
    (severity r) (created_by r) (assigned_to r) (created_at r) (updated_at r)
    (resolved_at r).
Definition set_description (v : option string) (r : issue_row) : issue_row :=
  Build_issue_row (issue_id r) (title r) v (status r) (priority r)
    (severity r) (created_by r) (assigned_to r) (created_at r) (updated_at r)
    (resolved_at r).
Definition set_status (v : option issue_status) (r : issue_row) : issue_row :=
  Build_issue_row (issue_id r) (title r) (description r) v (priority r)
    (severity r) (created_by r) (assigned_to r) (created_at r) (updated_at r)
    (resolved_at r).
Definition set_priority (v : option issue_priority) (r : issue_row)
  : issue_row :=
  Build_issue_row (issue_id r) (title r) (description r) (status r) v
    (severity r) (created_by r) (assigned_to r) (created_at r) (updated_at r)
    (resolved_at r).
Definition set_severity (v : option issue_severity) (r : issue_row)
  : issue_row :=
  Build_issue_row (issue_id r) (title r) (description r) (status r)
    (priority r) v (created_by r) (assigned_to r) (created_at r)
    (updated_at r) (resolved_at r).
Definition set_created_by (v : Z) (r : issue_row) : issue_row :=
  Build_issue_row (issue_id r) (title r) (description r) (status r)
    (priority r) (severity r) v (assigned_to r) (created_at r) (updated_at r)
    (resolved_at r).
Definition set_assigned_to (v : option Z) (r : issue_row) : issue_row :=
  Build_issue_row (issue_id r) (title r) (description r) (status r)
    (priority r) (severity r) (created_by r) v (created_at r) (updated_at r)
    (resolved_at r).
Definition set_created_at (v : Z) (r : issue_row) : issue_row :=
  Build_issue_row (issue_id r) (title r) (description r) (status r)
    (priority r) (severity r) (created_by r) (assigned_to r) v (updated_at r)
    (resolved_at r).
Definition set_updated_at (v : Z) (r : issue_row) : issue_row :=
  Build_issue_row (issue_id r) (title r) (description r) (status r)
    (priority r) (severity r) (created_by r) (assigned_to r) (created_at r) v
    (resolved_at r).
Definition set_resolved_at (v : option Z) (r : issue_row) : issue_row :=
  Build_issue_row (issue_id r) (title r) (description r) (status r)
    (priority r) (severity r) (created_by r) (assigned_to r) (created_at r)
    (updated_at r) v.

(** [SET c = v] on one row; NULL is refused by the NOT NULL columns. *)
Definition store_cell (c : column) (v : cell) (r : issue_row)
  : result issue_row :=
  match c, v with
  | IssueId, CInt n => Ok (set_issue_id n r)
  | Title, CText s => Ok (set_title s r)
  | Description, CText s => Ok (set_description (Some s) r)
  | Description, CNull => Ok (set_description None r)
  | Status, CStatus s => Ok (set_status (Some s) r)
  | Status, CNull => Ok (set_status None r)
  | Priority, CPriority p => Ok (set_priority (Some p) r)
  | Priority, CNull => Ok (set_priority None r)
  | Severity, CSeverity s => Ok (set_severity (Some s) r)
  | Severity, CNull => Ok (set_severity None r)
  | CreatedBy, CInt n => Ok (set_created_by n r)
  | AssignedTo, CInt n => Ok (set_assigned_to (Some n) r)
  | AssignedTo, CNull => Ok (set_assigned_to None r)
  | CreatedAt, CTime t => Ok (set_created_at t r)
  | UpdatedAt, CTime t => Ok (set_updated_at t r)
  | ResolvedAt, CTime t => Ok (set_resolved_at (Some t) r)
  | ResolvedAt, CNull => Ok (set_resolved_at None r)
  | (IssueId | Title | CreatedBy | CreatedAt | UpdatedAt), CNull =>
      db_throw (NotNullViolation (column_name c))
  | _, _ => db_throw (UnsupportedBinding (column_name c))
  end.

Definition user_exists (us : list user_row) (k : Z) : bool :=
  existsb (λ u, user_id u =? k) us.

(** The row constraints of [issues] that are checked when the row is
    written: the two foreign keys. *)
Definition check_issue (us : list user_row) (r : issue_row)
  : result issue_row :=
  if negb (user_exists us (created_by r)) then
    db_throw (ForeignKeyViolation "created_by")
  else if negb (from_option (user_exists us) true (assigned_to r)) then
    db_throw (ForeignKeyViolation "assigned_to")
  else Ok r.

(** ** Statements *)

Inductive expr : Type :=
| Placeholder (n : nat)        (* $n *)
| NowCall                      (* NOW() *)
| NullLit                      (* NULL *)
| IntLit (n : Z).

Inductive cond : Type :=
| Always                              (* 1=1 *)
| ColEq (c : column) (e : expr)       (* i.c = e *)
| TitleOrDescriptionILike (e : expr). (* (i.title ILIKE e OR i.description ILIKE e) *)

Inductive direction : Type := ASC | DESC.

#[global] Instance direction_eq_dec : EqDecision direction.
Proof. solve_decision. Defined.

Definition eval_expr (params : list sqlval) (now : Z) (e : expr)
  : result sqlval :=
  match e with
  | Placeholder 0 => db_throw BindMismatch
  | Placeholder (S i) => from_option Ok (db_throw BindMismatch) (params !! i)
  | NowCall => Ok (SqlTime now)
  | NullLit => Ok SqlNull
  | IntLit n => Ok (SqlInt n)
  end.

Definition expr_placeholders (e : expr) : list nat :=
  match e with Placeholder n => [n] | _ => [] end.

Definition cond_placeholders (c : cond) : list nat :=
  match c with
  | Always => []
  | ColEq _ e => expr_placeholders e
  | TitleOrDescriptionILike e => expr_placeholders e
  end.

(** The bind message must supply exactly the parameters [$1 .. $k] the
    statement text mentions. *)
Definition arity_ok (used : list nat) (params : list sqlval) : bool :=
  forallb (λ n, (1 <=? n)%nat && (n <=? length params)%nat) used
  && forallb (λ k, bool_decide (k ∈ used)) (seq 1 (length params)).

(** ** LIKE patterns *)

Inductive like_token : Type :=
| AnySeq                (* % *)
| AnyChar               (* _ *)
| Lit (c : ascii).

Fixpoint like_tokens (p : string) : list like_token :=
  match p with
  | EmptyString => []
  | String "%" p' => AnySeq :: like_tokens p'
  | String "_" p' => AnyChar :: like_tokens p'
  | String "\" (String c p') => Lit c :: like_tokens p'
  | String c p' => Lit c :: like_tokens p'
  end.

Fixpoint like_match (p : list like_token) : string → bool :=
  match p with
  | [] => λ s, String.eqb s EmptyString
  | AnySeq :: p' =>
      fix skip (s : string) : bool :=
        like_match p' s
        || match s with EmptyString => false | String _ s' => skip s' end
  | AnyChar :: p' =>
      λ s, match s with
           | EmptyString => false
           | String c s' =>
               negb (is_continuation c) && like_match p' (skip_continuation s')
           end
  | Lit c :: p' =>
      λ s, match s with
           | EmptyString => false
           | String c' s' => Ascii.eqb c c' && like_match p' s'
           end
  end.

(** [text ILIKE pattern].  [_] stands for one character; the case of the
    ASCII letters is folded, and a letter outside ASCII is left as it is
    (what the store does with it depends on its locale, which the
    repository does not fix). *)
Definition ilike (text pattern : string) : bool :=
  like_match (like_tokens (Js.toLowerCase pattern)) (Js.toLowerCase text).

(** ** WHERE *)

Inductive bound_cond : Type :=
| BAlways
| BEq (c : column) (v : cell)
| BILike (pattern : option string).

Definition bind_cond (params : list sqlval) (now : Z) (c : cond)
  : result bound_cond :=
  match c with
  | Always => Ok BAlways
  | ColEq col e =>
      v ← eval_expr params now e; x ← coerce col v; Ok (BEq col x)
  | TitleOrDescriptionILike e =>
      v ← eval_expr params now e;
      match v with
      | SqlNull => Ok (BILike None)
      | SqlText s => Ok (BILike (Some s))
      | SqlInt n => Ok (BILike (Some (pretty n)))
      | SqlTime _ => db_throw (UnsupportedBinding "title")
      end
  end.

(** A comparison with NULL is unknown, and unknown does not select. *)
Definition cond_holds (r : issue_row) (b : bound_cond) : bool :=
  match b with
  | BAlways => true
  | BEq c CNull => false
  | BEq c v => bool_decide (cell_of c r = v)
  | BILike None => false
  | BILike (Some p) =>
      ilike (title r) p || from_option (λ d, ilike d p) false (description r)
  end.

(** [conditions.join(' AND ')] *)
Definition where_holds (bs : list bound_cond) (r : issue_row) : bool :=
  forallb (cond_holds r) bs.

(** ** Running a statement *)

(** Conversion of the bound parameters and the arity check of the bind. *)
Definition prepared {A} (used : list nat) (params : list Js.value)
    (k : list sqlval → result A) : result A :=
  let ps := prepareValue <$> params in
  if arity_ok used ps then k ps else db_throw BindMismatch.

(** [SELECT COUNT( * ) FROM issues i WHERE ...] *)
Definition query_count (where_ : list cond) (params : list Js.value) (now : Z)
  : M Z :=
  λ d,
    (prepared (where_ ≫= cond_placeholders) params (λ ps,
       bs ← traverse (bind_cond ps now) where_;
       Ok (Z.of_nat (length (filter (λ r, where_holds bs r) (issues d))))),
     received SELECT d).

(** A row of [issues i LEFT JOIN users creator ... LEFT JOIN users assignee]. *)
Record joined_row : Type := {
  issue : issue_row;
  creator_name : option string;
  creator_email : option string;
  assignee_name : option string;
  assignee_email : option string
}.

(** The right-hand side of a LEFT JOIN on [user_id]: every match, or one
    all-NULL row when there is none. *)
Definition matching_users (us : list user_row) (key : option Z)
  : list (option user_row) :=
  match key with
  | None => [None]
  | Some k =>
      match filter (λ u, user_id u = k) us with
      | [] => [None]
      | l => Some <$> l
      end
  end.

Definition join_users (us : list user_row) (r : issue_row) : list joined_row :=
  c ← matching_users us (Some (created_by r));
  a ← matching_users us (assigned_to r);
  [ {| issue := r;
       creator_name := name <$> c; creator_email := email <$> c;
       assignee_name := name <$> a; assignee_email := email <$> a |} ].

(** Sort key of a cell: NULL after every value, numbers by value, enum
    members by position, text byte-wise. *)
Definition sort_key (c : cell) : Z * Z * string :=
  match c with
  | CNull => (1, 0, EmptyString)
  | CInt n => (0, n, EmptyString)
  | CText s => (0, 0, s)
  | CStatus s => (0, status_rank s, EmptyString)
  | CPriority p => (0, priority_rank p, EmptyString)
  | CSeverity s => (0, severity_rank s, EmptyString)
  | CTime t => (0, t, EmptyString)
  end.

Definition key_le (a b : Z * Z * string) : bool :=
  let '(k1, n1, s1) := a in
  let '(k2, n2, s2) := b in
  (k1 <? k2) || ((k1 =? k2) && ((n1 <? n2) || ((n1 =? n2) && String.leb s1 s2))).

(** [ORDER BY i.c ASC] keeps a row before the rows it is not greater than;
    [DESC] is the converse order. *)
Definition order_rel (c : column) (dir : direction) : relation joined_row :=
  λ a b,
    match dir with
    | ASC => key_le (sort_key (cell_of c (issue a))) (sort_key (cell_of c (issue b)))
    | DESC => key_le (sort_key (cell_of c (issue b))) (sort_key (cell_of c (issue a)))
    end = true.

#[global] Instance order_rel_dec c dir : RelDecision (order_rel c dir).
Proof. intros a b. unfold order_rel. apply _. Defined.

(** A row count is an 8-byte integer that is not negative. *)
Definition count_of (n : Z) : result (option nat) :=
  if (n <? -9223372036854775808) || (9223372036854775807 <? n) then
    db_throw (NumericValueOutOfRange "bigint")
  else if n <? 0 then db_throw NegativeLimitOrOffset
  else Ok (Some (Z.to_nat n)).

(** The value of a LIMIT or OFFSET expression: NULL is no bound. *)
Definition row_count (params : list sqlval) (now : Z) (e : option expr)
  : result (option nat) :=
  match e with
  | None => Ok None
  | Some e =>
      v ← eval_expr params now e;
      match v with
      | SqlNull => Ok None
      | SqlInt n => count_of n
      | SqlText s =>
          match int_of_text s with
          | Some n => count_of n
          | None => db_throw (InvalidIntegerInput s)
          end
      | SqlTime _ => db_throw (UnsupportedBinding "LIMIT")
      end
  end.

Definition opt_placeholders (e : option expr) : list nat :=
  from_option expr_placeholders [] e.

(** [SELECT i.*, creator.name ..., assignee.name ... FROM issues i
     LEFT JOIN users creator ... LEFT JOIN users assignee ...
     WHERE ... ORDER BY i.<name> <dir> LIMIT ... OFFSET ...] *)
Definition query_issues (where_ : list cond)
    (order_by : option (string * direction)) (limit offset : option expr)
    (params : list Js.value) (now : Z) : M (list joined_row) :=
  λ d,
    (prepared ((where_ ≫= cond_placeholders) ++ opt_placeholders limit
               ++ opt_placeholders offset) params (λ ps,
       bs ← traverse (bind_cond ps now) where_;
       ord ← match order_by with
             | None => Ok None
             | Some (n, dir) =>
                 match column_of_name n with
                 | Some c => Ok (Some (c, dir))
                 | None => db_throw (UnsupportedBinding n)
                 end
             end;
       lim ← row_count ps now limit;
       off ← row_count ps now offset;
       let rows := filter (λ r, where_holds bs r) (issues d)
                     ≫= join_users (users d) in
       let sorted := match ord with
                     | None => rows
                     | Some (c, dir) => merge_sort (order_rel c dir) rows
                     end in
       let skipped := drop (default 0%nat off) sorted in
       Ok (from_option (λ n, take n skipped) skipped lim)),
     received SELECT d).

(** The BEFORE UPDATE trigger [update_updated_at_column]. *)
Definition update_updated_at_column (now : Z) (new : issue_row) : issue_row :=
  set_updated_at now new.

Definition bind_assignment (params : list sqlval) (now : Z)
    (a : column * expr) : result (column * cell) :=
  v ← eval_expr params now a.2; x ← coerce a.1 v; Ok (a.1, x).

Fixpoint apply_assignments (sets : list (column * cell)) (r : issue_row)
  : result issue_row :=
  match sets with
  | [] => Ok r
  | (c, v) :: sets' => r' ← store_cell c v r; apply_assignments sets' r'
  end.

(** The SET list reads the old row throughout; as every right-hand side here
    is a constant, writing the cells one after the other is the same. *)
Definition update_row (us : list user_row) (now : Z)
    (sets : list (column * cell)) (bs : list bound_cond) (r : issue_row)
  : result issue_row :=
  if where_holds bs r then
    r' ← apply_assignments sets r;
    check_issue us (update_updated_at_column now r')
  else Ok r.

Definition first_duplicate (cs : list column) : option column :=
  list_find (λ c, 1 < length (filter (λ c', c' = c) cs))%nat cs ≫= λ p, Some p.2.

(** [UPDATE issues SET ... WHERE ... RETURNING issue_id] *)
Definition query_update (sets : list (column * expr)) (where_ : list cond)
    (params : list Js.value) (now : Z) : M (list Z) :=
  λ d,
    let d' := received UPDATE d in
    match
      prepared ((sets ≫= λ a, expr_placeholders a.2)
                ++ (where_ ≫= cond_placeholders)) params (λ ps,
        match first_duplicate (sets.*1) with
        | Some c => db_throw (DuplicateAssignment (column_name c))
        | None =>
            bsets ← traverse (bind_assignment ps now) sets;
            bs ← traverse (bind_cond ps now) where_;
            rows ← traverse (update_row (users d) now bsets bs) (issues d);
            Ok (rows, issue_id <$> filter (λ r, where_holds bs r) (issues d))
        end)
    with
    | Throw e => (Throw e, d')
    | Ok (rows, ids) => (Ok ids, with_issues rows d')
    end.

(** [DELETE FROM issues WHERE ... RETURNING issue_id] *)
Definition query_delete (where_ : list cond) (params : list Js.value)
    (now : Z) : M (list Z) :=
  λ d,
    let d' := received DELETE d in
    match
      prepared (where_ ≫= cond_placeholders) params (λ ps,
        traverse (bind_cond ps now) where_)
    with
    | Throw e => (Throw e, d')
    | Ok bs =>
        (Ok (issue_id <$> filter (λ r, where_holds bs r) (issues d)),
         with_issues (filter (λ r, negb (where_holds bs r)) (issues d)) d')
    end.

(** The row an INSERT starts from: the column defaults of the DDL. *)
Definition default_issue (id now : Z) : issue_row :=
  {| issue_id := id; title := EmptyString; description := None;
     status := Some Open; priority := Some Medium; severity := Some Minor;
     created_by := 0; assigned_to := None;
     created_at := now; updated_at := now; resolved_at := None |}.

(** [INSERT INTO issues (c1, ...) VALUES (e1, ...) RETURNING issue_id].  The
    sequence value is drawn once the values are bound, and stays drawn when
    a constraint then refuses the row.  [title] and [created_by] have no
    default. *)
Definition query_insert_issue (values : list (column * expr))
    (params : list Js.value) (now : Z) : M Z :=
  λ d,
    let d' := received INSERT d in
    match
      prepared (values ≫= λ a, expr_placeholders a.2) params (λ ps,
        match first_duplicate (values.*1) with
        | Some c => db_throw (DuplicateAssignment (column_name c))
        | None => traverse (bind_assignment ps now) values
        end)
    with
    | Throw e => (Throw e, d')
    | Ok bvalues =>
        let id := issues_seq d in
        let d'' := bump_issues_seq d' in
        match
          (if bool_decide (Title ∈ values.*1) then Ok ()
           else db_throw (NotNullViolation "title"));;
          (if bool_decide (CreatedBy ∈ values.*1) then Ok ()
           else db_throw (NotNullViolation "created_by"));;
          r ← apply_assignments bvalues (default_issue id now);
          (if existsb (λ r0, issue_id r0 =? issue_id r) (issues d)
           then db_throw (UniqueViolation "issue_id") else Ok ());;
          check_issue (users d) r
        with
        | Throw e => (Throw e, d'')
        | Ok r => (Ok (issue_id r), with_issues (issues d ++ [r]) d'')
        end
    end.

(** [SELECT status, COUNT( * ) AS count FROM issues GROUP BY status]: one
    row per status present, NULL being a group of its own. *)
Definition query_status_counts : M (list (option issue_status * Z)) :=
  λ d,
    (Ok ((λ s, (s, Z.of_nat (length (filter (λ r, status r = s) (issues d)))))
           <$> remove_dups (status <$> issues d)),
     received SELECT d).




(** A bound value on its way into a [VARCHAR(max)] column of [users];
    NULL is kept, for the NOT NULL constraint to refuse when the row is
    written. *)
Definition text_of (column : string) (max : nat) (v : sqlval)
  : result (option string) :=
  match v with
  | SqlNull => Ok None
  | SqlText s => t ← varchar column max s; Ok (Some t)
  | SqlInt n => t ← varchar column max (pretty n); Ok (Some t)
  | SqlTime _ => db_throw (UnsupportedBinding column)
  end.



(** ** The other statements on [users] *)

(** A value of the 4-byte [INTEGER] type. *)
Definition int4_of (n : Z) : result (option Z) :=
  if (n <? -2147483648) || (2147483647 <? n) then
    db_throw (NumericValueOutOfRange "integer")
  else Ok (Some n).

(** The integer a bound value stands for in [user_id = $n]; NULL compares
    with nothing. *)
Definition int_param (column : string) (v : sqlval) : result (option Z) :=
  match v with
  | SqlNull => Ok None
  | SqlInt n => int4_of n
  | SqlText s =>
      match int_of_text s with
      | Some n => int4_of n
      | None => db_throw (InvalidIntegerInput s)
      end
  | SqlTime _ => db_throw (UnsupportedBinding column)
  end.

(** [user_id = $n AND is_enabled = true] *)
Definition enabled_with_id (k : option Z) (u : user_row) : bool :=
  bool_decide (Some (user_id u) = k) && is_enabled u.

(** The columns [user_id, name, email, created_at, updated_at]. *)
Record user_profile : Type := {
  p_user_id : Z;
  p_name : string;
  p_email : string;
  p_created_at : Z;
  p_updated_at : Z
}.

Definition profile_of (u : user_row) : user_profile :=
  {| p_user_id := user_id u; p_name := name u; p_email := email u;
     p_created_at := u_created_at u; p_updated_at := u_updated_at u |}.



(** [SELECT user_id, name, email, created_at, updated_at FROM users
     WHERE user_id = $1 AND is_enabled = true LIMIT 1] *)
Definition query_enabled_user_by_id (params : list Js.value)
  : M (list user_profile) :=
  λ d,
    (prepared [1%nat] params (λ ps,
       v ← eval_expr ps 0 (Placeholder 1);
       k ← int_param "user_id" v;
       Ok (profile_of <$> take 1 (filter (λ u, enabled_with_id k u) (users d)))),
     received SELECT d).

(** [ORDER BY created_at DESC] on [users]. *)
Definition newer_first : relation user_row :=
  λ a b, u_created_at b ≤ u_created_at a.

#[global] Instance newer_first_dec : RelDecision newer_first.
Proof. intros a b. unfold newer_first. apply _. Defined.

(** [SELECT user_id, name, email, created_at, updated_at FROM users
     WHERE is_enabled = true ORDER BY created_at DESC] *)
Definition query_enabled_users : M (list user_profile) :=
  λ d,
    (Ok (profile_of
           <$> merge_sort newer_first (filter (λ u, is_enabled u) (users d))),
     received SELECT d).








End Store.

(* ===================================================================== *)
(** * modules/auth/authModel.js *)
(* ===================================================================== *)

Module AuthModel.
Import Store.





Definition findById (userId : Js.value) : M (option user_profile) :=
  let* results := query_enabled_user_by_id [userId] in
  ret (head results).




Definition getAllUsers : M (list user_profile) :=
  let* results := query_enabled_users in
  ret results.

End AuthModel.

(* ===================================================================== *)
(** * The issue model (IssueModel) *)
(* ===================================================================== *)

Module IssueModel.
Import Store.

(** [ISSUE_STATUS] of the issue constants. *)
Definition ISSUE_STATUS_OPEN : string := "Open".
Definition ISSUE_STATUS_IN_PROGRESS : string := "In Progress".
Definition ISSUE_STATUS_RESOLVED : string := "Resolved".
Definition ISSUE_STATUS_CLOSED : string := "Closed".

(** The [options] object of [getAllIssues]; [page] and [limit] are the
    integers the controller parsed, [None] when left out. *)
Record list_options : Type := {
  page : option Z;
  limit : option Z;
  o_status : Js.value;
  o_priority : Js.value;
  o_severity : Js.value;
  search : Js.value;
  sortBy : Js.value;
  sortOrder : Js.value;
  createdBy : Js.value
}.

(** [conditions], [params] and [paramIndex] while the WHERE clause is put
    together. *)
Record where_builder : Type := {
  conditions : list cond;
  params : list Js.value;
  paramIndex : nat
}.

(** [if (v) { conditions.push(`i.c = $${paramIndex++}`); params.push(v); }] *)
Definition push_equals (c : column) (v : Js.value) (b : where_builder)
  : where_builder :=
  if Js.truthy v then
    {| conditions := conditions b ++ [ColEq c (Placeholder (paramIndex b))];
       params := params b ++ [v];
       paramIndex := S (paramIndex b) |}
  else b.

(** [if (search) { conditions.push(`(i.title ILIKE $n OR i.description ILIKE
    $n)`); paramIndex++; params.push(`%${search}%`); }] *)
Definition push_search (v : Js.value) (b : where_builder) : where_builder :=
  if Js.truthy v then
    {| conditions :=
         conditions b ++ [TitleOrDescriptionILike (Placeholder (paramIndex b))];
       params := params b ++ [Js.Str ("%" +:+ Js.template v +:+ "%")];
       paramIndex := S (paramIndex b) |}
  else b.

Definition where_start : where_builder :=
  {| conditions := [Always]; params := []; paramIndex := 1 |}.

Definition validSortFields : list string :=
  ["created_at"; "updated_at"; "title"; "priority"; "status"; "severity"].

Definition safeSortBy (sortBy : Js.value) : Js.value :=
  if Js.includes validSortFields sortBy then sortBy else Js.Str "created_at".

(** [sortOrder.toUpperCase() === 'ASC' ? 'ASC' : 'DESC']; the method exists
    on strings only. *)
Definition safeSortOrder (sortOrder : Js.value) : result direction :=
  match sortOrder with
  | Js.Str s => Ok (if String.eqb (Js.toUpperCase s) "ASC" then ASC else DESC)
  | _ => Throw (TypeError "sortOrder.toUpperCase is not a function")
  end.

Record list_result : Type := {
  r_issues : list joined_row;
  total : Z;
  totalPages : Js.number;
  currentPage : Z;
  perPage : Z
}.

Definition list_where (options : list_options) : where_builder :=
  push_search (search options)
    (push_equals CreatedBy (createdBy options)
       (push_equals Severity (o_severity options)
          (push_equals Priority (o_priority options)
             (push_equals Status (o_status options) where_start)))).

Definition getAllIssues (options : list_options) (now : Z) : M list_result :=
  let page := default 1 (page options) in
  let limit := default 10 (limit options) in
  let sortBy := Js.or_default (Js.Str "created_at") (sortBy options) in
  let sortOrder := Js.or_default (Js.Str "DESC") (sortOrder options) in
  let offset := (page - 1) * limit in
  let b := list_where options in
  let safeSortBy := safeSortBy sortBy in
  match safeSortOrder sortOrder with
  | Throw e => throw e
  | Ok safeSortOrder =>
      let* total := query_count (conditions b) (params b) now in
      let* issues :=
        query_issues (conditions b)
          (Some (Js.template safeSortBy, safeSortOrder))
          (Some (Placeholder (paramIndex b)))
          (Some (Placeholder (S (paramIndex b))))
          (params b ++ [Js.Num (Js.parseInt limit); Js.Num (Js.parseInt offset)])
          now in
      ret {| r_issues := issues;
             total := total;
             totalPages := Js.ceil_div total limit;
             currentPage := Js.parseInt page;
             perPage := Js.parseInt limit |}
  end.

(** [getIssueById(issueId)], on whatever value it is called with. *)
Definition getIssueById_any (issueId : Js.value) (now : Z)
  : M (option joined_row) :=
  let* results :=
    query_issues [ColEq IssueId (Placeholder 1)] None (Some (IntLit 1)) None
      [issueId] now in
  ret (head results).

(** [getIssueById] on an integer id. *)
Definition getIssueById (issueId : Z) (now : Z) : M (option joined_row) :=
  getIssueById_any (Js.Num issueId) now.

(** The [issueData] object the controller hands over. *)
Record issue_data : Type := {
  d_title : Js.value;
  d_description : Js.value;
  d_status : Js.value;
  d_priority : Js.value;
  d_severity : Js.value;
  d_createdBy : Js.value;
  d_assignedTo : Js.value
}.

Definition createIssue (issueData : issue_data) (now : Z) : M Z :=
  let title := d_title issueData in
  let description := Js.or_default Js.Null (d_description issueData) in
  let status := Js.or_default (Js.Str ISSUE_STATUS_OPEN) (d_status issueData) in
  let priority := Js.or_default (Js.Str "Medium") (d_priority issueData) in
  let severity := Js.or_default (Js.Str "Minor") (d_severity issueData) in
  let createdBy := d_createdBy issueData in
  let assignedTo := Js.or_default Js.Null (d_assignedTo issueData) in
  let* insertId :=
    query_insert_issue
      [(Title, Placeholder 1); (Description, Placeholder 2);
       (Status, Placeholder 3); (Priority, Placeholder 4);
       (Severity, Placeholder 5); (CreatedBy, Placeholder 6);
       (AssignedTo, Placeholder 7); (CreatedAt, NowCall); (UpdatedAt, NowCall)]
      [title; description; status; priority; severity; createdBy; assignedTo]
      now in
  ret insertId.

(** [updateFields], [params] and [paramIndex] while the SET list is put
    together. *)
Record set_builder : Type := {
  updateFields : list (column * expr);
  set_params : list Js.value;
  set_paramIndex : nat
}.

(** [if (v !== undefined) { updateFields.push(`c = $${paramIndex++}`);
    params.push(v); }] *)
Definition push_field (c : column) (v : Js.value) (b : set_builder)
  : set_builder :=
  if Js.defined v then
    {| updateFields := updateFields b ++ [(c, Placeholder (set_paramIndex b))];
       set_params := set_params b ++ [v];
       set_paramIndex := S (set_paramIndex b) |}
  else b.

(** [updateFields.push(text)] for a fragment without a placeholder. *)
Definition push_raw (a : column * expr) (b : set_builder) : set_builder :=
  {| updateFields := updateFields b ++ [a];
     set_params := set_params b;
     set_paramIndex := set_paramIndex b |}.

(** [status === ISSUE_STATUS.RESOLVED || status === ISSUE_STATUS.CLOSED] *)
Definition is_resolved_or_closed (status : Js.value) : bool :=
  bool_decide (status = Js.Str ISSUE_STATUS_RESOLVED)
  || bool_decide (status = Js.Str ISSUE_STATUS_CLOSED).

(** The [status] branch of [updateIssue], with its nested stamp. *)
Definition push_status (status : Js.value) (b : set_builder) : set_builder :=
  if Js.defined status then
    let b' := push_field Status status b in
    if is_resolved_or_closed status then push_raw (ResolvedAt, NowCall) b'
    else b'
  else b.

Definition set_start : set_builder :=
  {| updateFields := []; set_params := []; set_paramIndex := 1 |}.

Definition update_set (issueData : issue_data) : set_builder :=
  push_raw (UpdatedAt, NowCall)
    (push_field AssignedTo (d_assignedTo issueData)
       (push_field Severity (d_severity issueData)
          (push_field Priority (d_priority issueData)
             (push_status (d_status issueData)
                (push_field Description (d_description issueData)
                   (push_field Title (d_title issueData) set_start)))))).

(** The result is [affectedRows]. *)
Definition updateIssue (issueId : Z) (issueData : issue_data) (now : Z)
  : M Z :=
  let b := update_set issueData in
  if (length (updateFields b) =? 1)%nat then ret 0
  else
    let* results :=
      query_update (updateFields b)
        [ColEq IssueId (Placeholder (set_paramIndex b))]
        (set_params b ++ [Js.Num issueId]) now in
    ret (Z.of_nat (length results)).

Definition updateStatus (issueId : Z) (status : Js.value) (now : Z) : M Z :=
  let sets :=
    if is_resolved_or_closed status then
      [(Status, Placeholder 1); (ResolvedAt, NowCall); (UpdatedAt, NowCall)]
    else
      [(Status, Placeholder 1); (ResolvedAt, NullLit); (UpdatedAt, NowCall)] in
  let* results :=
    query_update sets [ColEq IssueId (Placeholder 2)]
      [status; Js.Num issueId] now in
  ret (Z.of_nat (length results)).

Definition deleteIssue (issueId : Z) (now : Z) : M Z :=
  let* results :=
    query_delete [ColEq IssueId (Placeholder 1)] [Js.Num issueId] now in
  ret (Z.of_nat (length results)).

(** [row.status] as a property key: a label, or the text of null. *)
Definition status_key (s : option issue_status) : string :=
  from_option status_label "null" s.

(** The body of the [forEach] in [getStatusCounts]. *)
Definition add_count (counts : gmap string Z) (row : option issue_status * Z)
  : gmap string Z :=
  let counts := <[status_key row.1 := row.2]> counts in
  <["total" := default 0 (counts !! "total") + row.2]> counts.

Definition counts_start : gmap string Z :=
  <["Open" := 0]> (<["In Progress" := 0]> (<["Resolved" := 0]>
    (<["Closed" := 0]> (<["total" := 0]> ∅)))).

Definition getStatusCounts : M (gmap string Z) :=
  let* results := query_status_counts in
  ret (foldl add_count counts_start results).

Definition issueExists (issueId : Z) (now : Z) : M bool :=
  let* count :=
    query_count [ColEq IssueId (Placeholder 1)] [Js.Num issueId] now in
  ret (0 <? count).

Definition isIssueOwner (issueId userId : Z) (now : Z) : M bool :=
  let* count :=
    query_count [ColEq IssueId (Placeholder 1); ColEq CreatedBy (Placeholder 2)]
      [Js.Num issueId; Js.Num userId] now in
  ret (0 <? count).





End IssueModel.

(* ===================================================================== *)
(** * The issue constants *)
(* ===================================================================== *)

Module IssueConstants.

Definition ISSUE_PRIORITY_LOW : string := "Low".
Definition ISSUE_PRIORITY_MEDIUM : string := "Medium".
Definition ISSUE_PRIORITY_HIGH : string := "High".
Definition ISSUE_PRIORITY_CRITICAL : string := "Critical".

Definition ISSUE_SEVERITY_MINOR : string := "Minor".
Definition ISSUE_SEVERITY_MAJOR : string := "Major".
Definition ISSUE_SEVERITY_CRITICAL : string := "Critical".

(** [Object.values(ISSUE_STATUS)] and its two siblings. *)
Definition VALID_STATUSES : list string :=
  [IssueModel.ISSUE_STATUS_OPEN; IssueModel.ISSUE_STATUS_IN_PROGRESS;
   IssueModel.ISSUE_STATUS_RESOLVED; IssueModel.ISSUE_STATUS_CLOSED].

Definition VALID_PRIORITIES : list string :=
  [ISSUE_PRIORITY_LOW; ISSUE_PRIORITY_MEDIUM; ISSUE_PRIORITY_HIGH;
   ISSUE_PRIORITY_CRITICAL].

Definition VALID_SEVERITIES : list string :=
  [ISSUE_SEVERITY_MINOR; ISSUE_SEVERITY_MAJOR; ISSUE_SEVERITY_CRITICAL].

End IssueConstants.

(* ===================================================================== *)
(** * Token issuance (middleware/auth.js) *)
(* ===================================================================== *)

Module Tokens.

(** The payload [generateToken] signs. *)
Definition payload_of (user : Store.user_row) : Middleware.identity :=
  {| Middleware.userId := Js.Num (Store.user_id user);
     Middleware.email := Js.Str (Store.email user);
     Middleware.name := Js.Str (Store.name user) |}.

(** [jwt.sign(payload, process.env.JWT_SECRET, { expiresIn })] of the
    jsonwebtoken library is the parameter [jwt_sign]. *)
Definition generateToken (jwt_sign : Middleware.identity → string)
    (user : Store.user_row) : string :=
  jwt_sign (payload_of user).

End Tokens.

(* ===================================================================== *)
(** * The issue controller (IssueController) *)
(* ===================================================================== *)

Module IssueController.
Import Store.

(** [{ id, name, email }] *)
Record user_ref : Type := {
  ref_id : Z;
  ref_name : option string;
  ref_email : option string
}.

(** What [formatIssueResponse] returns. *)
Record issue_response : Type := {
  id : Z;
  r_title : string;
  r_description : option string;
  r_status : option issue_status;
  r_priority : option issue_priority;
  r_severity : option issue_severity;
  r_createdBy : user_ref;
  r_assignedTo : option user_ref;
  createdAt : Z;
  updatedAt : Z;
  resolvedAt : option Z
}.

Definition format_row (j : joined_row) : issue_response :=
  let i := issue j in
  {| id := issue_id i;
     r_title := title i;
     r_description := description i;
     r_status := status i;
     r_priority := priority i;
     r_severity := severity i;
     r_createdBy := {| ref_id := created_by i;
                       ref_name := creator_name j;
                       ref_email := creator_email j |};
     r_assignedTo :=
       match assigned_to i with
       | Some a =>
           if a =? 0 then None
           else Some {| ref_id := a;
                        ref_name := assignee_name j;
                        ref_email := assignee_email j |}
       | None => None
       end;
     createdAt := created_at i;
     updatedAt := updated_at i;
     resolvedAt := resolved_at i |}.

(** [formatIssueResponse(issue)]; reading a property of null throws. *)
Definition formatIssueResponse (issue : option joined_row)
  : M issue_response :=
  match issue with
  | Some j => ret (format_row j)
  | None => throw (TypeError "Cannot read properties of null")
  end.

(** Modelled from the spec: the response helpers (responseHelper) are not
    among the sources.  Each helper call is kept as the outcome it names,
    [notFoundResponse] being the 404-equivalent one; [nextError] is
    [next(error)], which hands the error to the central handler. *)
Inductive response : Type :=
| successResponse (data : option issue_response) (message : string)
| createdResponse (data : issue_response) (message : string)
| notFoundResponse (message : string)
| nextError (error : js_error).

(** [try { ... } catch (error) { next(error); }] *)
Definition try_catch (m : M response) : db → response * db :=
  λ d, match m d with
       | (Ok r, d') => (r, d')
       | (Throw e, d') => (nextError e, d')
       end.

(** [req.user.userId] *)
Definition req_userId (req : Middleware.request) : M Js.value :=
  match Middleware.user req with
  | Some u => ret (Middleware.userId u)
  | None => throw (TypeError "Cannot read properties of null")
  end.

Definition getIssueById (req : Middleware.request) (now : Z)
  : db → response * db :=
  try_catch (
    let id := Middleware.params_id req in
    let* issue := IssueModel.getIssueById id now in
    match issue with
    | None => ret (notFoundResponse "Issue not found")
    | Some _ =>
        let* formatted := formatIssueResponse issue in
        ret (successResponse (Some formatted) "Issue retrieved successfully")
    end).

Definition createIssue (req : Middleware.request) (now : Z)
  : db → response * db :=
  try_catch (
    let body := Middleware.body req in
    let title := Js.prop body "title" in
    let description := Js.prop body "description" in
    let status := Js.prop body "status" in
    let priority := Js.prop body "priority" in
    let severity := Js.prop body "severity" in
    let assignedTo := Js.prop body "assignedTo" in
    let* createdBy := req_userId req in
    let* insertId :=
      IssueModel.createIssue
        {| IssueModel.d_title := title;
           IssueModel.d_description := description;
           IssueModel.d_status := status;
           IssueModel.d_priority := priority;
           IssueModel.d_severity := severity;
           IssueModel.d_createdBy := createdBy;
           IssueModel.d_assignedTo := assignedTo |} now in
    let* issue := IssueModel.getIssueById insertId now in
    let* formatted := formatIssueResponse issue in
    ret (createdResponse formatted "Issue created successfully")).

Definition updateIssue (req : Middleware.request) (now : Z)
  : db → response * db :=
  try_catch (
    let id := Middleware.params_id req in
    let body := Middleware.body req in
    let title := Js.prop body "title" in
    let description := Js.prop body "description" in
    let status := Js.prop body "status" in
    let priority := Js.prop body "priority" in
    let severity := Js.prop body "severity" in
    let assignedTo := Js.prop body "assignedTo" in
    let* existingIssue := IssueModel.getIssueById id now in
    match existingIssue with
    | None => ret (notFoundResponse "Issue not found")
    | Some _ =>
        let* _ :=
          IssueModel.updateIssue id
            {| IssueModel.d_title := title;
               IssueModel.d_description := description;
               IssueModel.d_status := status;
               IssueModel.d_priority := priority;
               IssueModel.d_severity := severity;
               IssueModel.d_createdBy := Js.Undefined;
               IssueModel.d_assignedTo := assignedTo |} now in
        let* updatedIssue := IssueModel.getIssueById id now in
        let* formatted := formatIssueResponse updatedIssue in
        ret (successResponse (Some formatted) "Issue updated successfully")
    end).

Definition updateStatus (req : Middleware.request) (now : Z)
  : db → response * db :=
  try_catch (
    let id := Middleware.params_id req in
    let status := Js.prop (Middleware.body req) "status" in
    let* existingIssue := IssueModel.getIssueById id now in
    match existingIssue with
    | None => ret (notFoundResponse "Issue not found")
    | Some _ =>
        let* _ := IssueModel.updateStatus id status now in
        let* updatedIssue := IssueModel.getIssueById id now in
        let* formatted := formatIssueResponse updatedIssue in
        ret (successResponse (Some formatted)
               ("Issue status updated to " +:+ String "034"%char
                  (Js.template status +:+ String "034"%char EmptyString)))
    end).

Definition deleteIssue (req : Middleware.request) (now : Z)
  : db → response * db :=
  try_catch (
    let id := Middleware.params_id req in
    let* existingIssue := IssueModel.getIssueById id now in
    match existingIssue with
    | None => ret (notFoundResponse "Issue not found")
    | Some _ =>
        let* _ := IssueModel.deleteIssue id now in
        ret (successResponse None "Issue deleted successfully")
    end).

End IssueController.

(* ===================================================================== *)
(** * modules/issues/issueRoutes.js *)
(* ===================================================================== *)

Module IssueRoutes.
Import Store.

(** The routes whose handlers are embedded above. *)
Inductive route : Type :=
| GET_id            (* GET /api/issues/:id *)
| POST_root         (* POST /api/issues *)
| PUT_id            (* PUT /api/issues/:id *)
| PATCH_id_status   (* PATCH /api/issues/:id/status *)
| DELETE_id.        (* DELETE /api/issues/:id *)

Definition handler (r : route)
  : Middleware.request → Z → db → IssueController.response * db :=
  match r with
  | GET_id => IssueController.getIssueById
  | POST_root => IssueController.createIssue
  | PUT_id => IssueController.updateIssue
  | PATCH_id_status => IssueController.updateStatus
  | DELETE_id => IssueController.deleteIssue
  end.

(** [router.use(authenticate)] in front of whatever follows on the router:
    [next()] runs the rest of the stack, [next(error)] skips it and reaches
    the error handler. *)
Definition use_authenticate {A} (jwt_verify : string → result Middleware.claims)
    (rest : Middleware.request → A) (on_error : js_error → A)
    (req : Middleware.request) : A :=
  match Middleware.authenticate jwt_verify req with
  | Middleware.Next req' => rest req'
  | Middleware.NextError e => on_error e
  end.

(** The issue router on one request.  The request validators of the routes
    are not among the sources and are left out of the stack. *)
Definition router (jwt_verify : string → result Middleware.claims)
    (r : route) (req : Middleware.request) (now : Z)
  : db → IssueController.response * db :=
  λ d,
    use_authenticate jwt_verify
      (λ req', handler r req' now d)
      (λ e, (IssueController.nextError e, d))
      req.

End IssueRoutes.

(* ===================================================================== *)
(** * Registration *)
(* ===================================================================== *)

Module AuthService.
Import Store.


End AuthService.

(* ===================================================================== *)
(** * Specification vocabulary *)
(* ===================================================================== *)

Module Spec.
Import Store.

(** No space occurs in the text. *)
Fixpoint space_free (s : string) : bool :=
  match s with
  | EmptyString => true
  | String c s' => negb (Ascii.eqb c " "%char) && space_free s'
  end.

(** The header reads [Bearer <token>]: the word, one space, and a token
    without a space, so that it has exactly two space-separated parts. *)
Definition bearer_form (header token : string) : Prop :=
  header = "Bearer " +:+ token ∧ space_free token = true.

(** The four ways a request fails to authenticate, with the reason each
    reports. *)
Inductive auth_failure (jwt_verify : string → result Middleware.claims)
  : Middleware.request → string → Prop :=
| missing_header req :
    Middleware.authorization req = None
    ∨ Middleware.authorization req = Some EmptyString →
    auth_failure jwt_verify req "No authorization token provided"
| malformed_header req header :
    Middleware.authorization req = Some header →
    header ≠ EmptyString →
    (∀ token, ¬ bearer_form header token) →
    auth_failure jwt_verify req
      "Invalid authorization header format. Use: Bearer <token>"
| invalid_signature req header token :
    Middleware.authorization req = Some header →
    bearer_form header token →
    jwt_verify token = Throw JsonWebTokenError →
    auth_failure jwt_verify req "Invalid token"
| expired_token req header token :
    Middleware.authorization req = Some header →
    bearer_form header token →
    jwt_verify token = Throw TokenExpiredError →
    auth_failure jwt_verify req "Token has expired".

(** The reasons of the four failures. *)
Definition failure_reasons : list string :=
  ["No authorization token provided";
   "Invalid authorization header format. Use: Bearer <token>";
   "Invalid token";
   "Token has expired"].

(** The number of rows with the given status. *)
Definition count_status (s : option issue_status) (rows : list issue_row) : Z :=
  Z.of_nat (length (filter (λ r, status r = s) rows)).

Definition sumZ (l : list Z) : Z := foldr Z.add 0 l.

(** The sum of the per-status entries of a counts object, that is of every
    entry but [total]. *)
Definition sum_counts (counts : gmap string Z) : Z :=
  map_fold (λ k v acc, if decide (k = "total") then acc else v + acc) 0 counts.

(** The [issueData] object the update handler builds from a request body. *)
Definition update_data (body : gmap string Js.value) : IssueModel.issue_data :=
  {| IssueModel.d_title := Js.prop body "title";
     IssueModel.d_description := Js.prop body "description";
     IssueModel.d_status := Js.prop body "status";
     IssueModel.d_priority := Js.prop body "priority";
     IssueModel.d_severity := Js.prop body "severity";
     IssueModel.d_createdBy := Js.Undefined;
     IssueModel.d_assignedTo := Js.prop body "assignedTo" |}.

(** The id names a row of [issues]. *)
Definition present (id : Z) (d : db) : Prop :=
  ∃ r, r ∈ issues d ∧ issue_id r = id.

(** Both tables are the same in the two states. *)
Definition same_tables (d d' : db) : Prop :=
  issues d' = issues d ∧ users d' = users d.

(** The sequence of [issues.issue_id] is ahead of every id in the table. *)
Definition fresh_sequence (d : db) : Prop :=
  ∀ r, r ∈ issues d → issue_id r < issues_seq d.

(** Two request bodies that differ at most in a client-supplied creator. *)
Definition same_but_creator (body1 body2 : gmap string Js.value) : Prop :=
  ∀ k, k ≠ "createdBy" → k ≠ "created_by" → body1 !! k = body2 !! k.

(** The six fields an update may supply, with the column each one writes. *)
Definition supplied_fields (data : IssueModel.issue_data)
  : list (column * Js.value) :=
  [(Title, IssueModel.d_title data);
   (Description, IssueModel.d_description data);
   (Status, IssueModel.d_status data);
   (Priority, IssueModel.d_priority data);
   (Severity, IssueModel.d_severity data);
   (AssignedTo, IssueModel.d_assignedTo data)].

(** No field is supplied: all six are undefined. *)
Definition nothing_supplied (data : IssueModel.issue_data) : bool :=
  forallb (λ f, negb (Js.defined f.2)) (supplied_fields data).

(** The columns an update may write: those of the supplied fields,
    [updated_at], and [resolved_at] when a status is supplied. *)
Definition may_change (data : IssueModel.issue_data) (c : column) : bool :=
  existsb (λ f, bool_decide (f.1 = c) && Js.defined f.2) (supplied_fields data)
  || bool_decide (c = UpdatedAt)
  || (bool_decide (c = ResolvedAt) && Js.defined (IssueModel.d_status data)).

(** The row [r'] is the row [r] after the partial update. *)
Definition row_updated (data : IssueModel.issue_data) (now : Z)
    (r r' : issue_row) : Prop :=
  updated_at r' = now
  ∧ (∀ c, may_change data c = false → cell_of c r' = cell_of c r)
  ∧ (∀ c v, (c, v) ∈ supplied_fields data → Js.defined v = true →
            coerce c (prepareValue v) = Ok (cell_of c r'))
  ∧ resolved_at r'
    = (if IssueModel.is_resolved_or_closed (IssueModel.d_status data)
       then Some now else resolved_at r).

(** The columns a listing may be sorted by. *)
Definition sort_allow_list : list string :=
  ["created_at"; "updated_at"; "title"; "priority"; "status"; "severity"].

(** The column a listing is to be sorted by: the requested one when it is
    on the allow-list, [created_at] otherwise. *)
Definition requested_column (sortBy : Js.value) : column :=
  match sortBy with
  | Js.Str s =>
      if bool_decide (s ∈ sort_allow_list)
      then default CreatedAt (column_of_name s) else CreatedAt
  | _ => CreatedAt
  end.

(** The direction a listing is to be sorted in: ascending exactly when the
    requested order reads [asc] whatever the case of its letters, descending
    otherwise. *)
Definition requested_direction (sortOrder : Js.value) : direction :=
  match sortOrder with
  | Js.Str s => if String.eqb (Js.toLowerCase s) "asc" then ASC else DESC
  | _ => DESC
  end.

(** The sort parameter is query-string text, or left out. *)
Definition text_or_absent (v : Js.value) : Prop :=
  v = Js.Undefined ∨ ∃ s, v = Js.Str s.

(** A text of ASCII characters only. *)
Fixpoint ascii_text (s : string) : bool :=
  match s with
  | EmptyString => true
  | String c s' => (N_of_ascii c <? 128)%N && ascii_text s'
  end.

(** A sort order that is left out, or a text of ASCII characters: there
    [toUpperCase] changes the 26 small letters and nothing else. *)
Definition ascii_or_absent (v : Js.value) : Prop :=
  v = Js.Undefined ∨ ∃ s, v = Js.Str s ∧ ascii_text s = true.

(** An integer in the range of the 4-byte [INTEGER] type of the id
    columns. *)
Definition int4 (n : Z) : Prop := - 2147483648 ≤ n ≤ 2147483647.

(** The title and the description of the row are ASCII texts. *)
Definition ascii_issue (r : issue_row) : bool :=
  ascii_text (title r) && from_option ascii_text true (description r).

(** A listing or an export that searches does so with an ASCII term in
    ASCII texts: there the case folding of the store is that of the 26
    letters, and a character is a byte. *)
Definition ascii_search (search : Js.value) (d : db) : Prop :=
  Js.truthy search = true →
  ascii_text (Js.template search) = true
  ∧ ∀ r, r ∈ issues d → ascii_issue r = true.

(** The page, the page size and the offset of a listing are safe
    integers. *)
Definition safe_page (o : IssueModel.list_options) : Prop :=
  Js.safe (default 1 (IssueModel.page o))
  ∧ Js.safe (default 10 (IssueModel.limit o))
  ∧ Js.safe ((default 1 (IssueModel.page o) - 1)
             * default 10 (IssueModel.limit o)).

(** A cell in the range of its column type. *)
Definition in_range (x : cell) : Prop :=
  match x with
  | CInt n => int4 n
  | _ => True
  end.

Definition with_sortBy (v : Js.value) (o : IssueModel.list_options)
  : IssueModel.list_options :=
  {| IssueModel.page := IssueModel.page o;
     IssueModel.limit := IssueModel.limit o;
     IssueModel.o_status := IssueModel.o_status o;
     IssueModel.o_priority := IssueModel.o_priority o;
     IssueModel.o_severity := IssueModel.o_severity o;
     IssueModel.search := IssueModel.search o;
     IssueModel.sortBy := v;
     IssueModel.sortOrder := IssueModel.sortOrder o;
     IssueModel.createdBy := IssueModel.createdBy o |}.

(** An exact-match filter: absent (falsy), or the row's cell is the value
    asked for. *)
Definition eq_filter (c : column) (v : Js.value) (r : issue_row) : bool :=
  negb (Js.truthy v)
  || bool_decide (coerce c (prepareValue v) = Ok (cell_of c r)).

(** The free-text filter: absent, or the title or the description matches
    the search term between two wildcards, whatever the case. *)
Definition search_filter (v : Js.value) (r : issue_row) : bool :=
  negb (Js.truthy v)
  || ilike (title r) ("%" +:+ Js.template v +:+ "%")
  || from_option (λ d, ilike d ("%" +:+ Js.template v +:+ "%")) false
       (description r).

(** The filter predicate of a listing: all filters, combined with AND. *)
Definition selects (o : IssueModel.list_options) (r : issue_row) : bool :=
  eq_filter Status (IssueModel.o_status o) r
  && eq_filter Priority (IssueModel.o_priority o) r
  && eq_filter Severity (IssueModel.o_severity o) r
  && eq_filter CreatedBy (IssueModel.createdBy o) r
  && search_filter (IssueModel.search o) r.


(** An exact-match filter the store can read: absent, or a value of the
    column's type, within its range. *)
Definition readable (c : column) (v : Js.value) : Prop :=
  Js.truthy v = true → ∃ x, coerce c (prepareValue v) = Ok x ∧ in_range x.

Definition readable_filters (o : IssueModel.list_options) : Prop :=
  readable Status (IssueModel.o_status o)
  ∧ readable Priority (IssueModel.o_priority o)
  ∧ readable Severity (IssueModel.o_severity o)
  ∧ readable CreatedBy (IssueModel.createdBy o).

(** Invariants of the WHERE builder: the next placeholder is one past the
    parameters pushed so far; the placeholders in the conditions are
    [$1 .. $n] for the n parameters, in order; once bound, the conditions
    select what [f] selects. *)
Definition where_index_ok (b : IssueModel.where_builder) : Prop :=
  IssueModel.paramIndex b = S (length (IssueModel.params b))
  ∧ IssueModel.conditions b ≫= cond_placeholders
    = seq 1 (length (IssueModel.params b)).

Definition where_denotes (b : IssueModel.where_builder)
    (f : issue_row → bool) : Prop :=
  ∀ extra now bs,
    traverse (bind_cond (prepareValue <$> (IssueModel.params b ++ extra)) now)
      (IssueModel.conditions b) = Ok bs →
    ∀ r, where_holds bs r = f r.

Definition where_binds (b : IssueModel.where_builder) : Prop :=
  ∀ extra now,
    ∃ bs,
      traverse (bind_cond (prepareValue <$> (IssueModel.params b ++ extra)) now)
        (IssueModel.conditions b) = Ok bs.

(** The row [r'] is the row [r] after a status-only update. *)
Definition status_updated (status : Js.value) (now : Z) (r r' : issue_row)
  : Prop :=
  coerce Status (prepareValue status) = Ok (cell_of Status r')
  ∧ updated_at r' = now
  ∧ resolved_at r'
    = (if IssueModel.is_resolved_or_closed status then Some now else None)
  ∧ (∀ c, c ≠ Status → c ≠ ResolvedAt → c ≠ UpdatedAt →
          cell_of c r' = cell_of c r).

(** Invariant of the SET builder: the next placeholder is one past the
    parameters pushed so far. *)
Definition index_ok (b : IssueModel.set_builder) : Prop :=
  IssueModel.set_paramIndex b = S (length (IssueModel.set_params b)).

(** The SET builder holds [c = $n] with [v] as its n-th parameter. *)
Definition entry (b : IssueModel.set_builder) (c : column) (v : Js.value)
  : Prop :=
  ∃ i, (c, Placeholder (S i)) ∈ IssueModel.updateFields b
       ∧ IssueModel.set_params b !! i = Some v.

(** A search term without the LIKE wildcards [%] and [_] and without the
    escape character. *)
Fixpoint wildcard_free (s : string) : bool :=
  match s with
  | EmptyString => true
  | String c s' =>
      negb (Ascii.eqb c "%") && negb (Ascii.eqb c "_")
      && negb (Ascii.eqb c "\") && wildcard_free s'
  end.

(** [s] occurs in [text] when the case of the ASCII letters is ignored. *)
Definition occurs_in (s text : string) : Prop :=
  ∃ pre post, Js.toLowerCase text = pre +:+ Js.toLowerCase s +:+ post.

(** [s] occurs in the title or in the description of the row. *)
Definition mentions (s : string) (r : issue_row) : Prop :=
  occurs_in s (title r)
  ∨ ∃ dsc, description r = Some dsc ∧ occurs_in s dsc.

(** The exact-match filters of a listing, without the search. *)
Definition selects_exact (o : IssueModel.list_options) (r : issue_row)
  : bool :=
  eq_filter Status (IssueModel.o_status o) r
  && eq_filter Priority (IssueModel.o_priority o) r
  && eq_filter Severity (IssueModel.o_severity o) r
  && eq_filter CreatedBy (IssueModel.createdBy o) r.

(** Every row of [issues] satisfies the foreign keys of the table. *)
Definition consistent (d : db) : Prop :=
  ∀ r, r ∈ issues d → check_issue (users d) r = Ok r.

(** A status the store can write: none, or the label of a member of the
    enum type. *)
Definition writable_status (status : Js.value) : Prop :=
  status = Js.Undefined ∨ status = Js.Null
  ∨ ∃ s, status = Js.Str s ∧ s ∈ IssueConstants.VALID_STATUSES.

End Spec.

(* ===================================================================== *)
(** * Sample data *)
(* ===================================================================== *)

Module Samples.
Import Store.

Definition ann : user_row :=
  {| user_id := 1; name := "Ann"; email := "ann@example.org";
     password_hash := "$2b$10$ann"; u_created_at := 100; u_updated_at := 100;
     is_enabled := true |}.

Definition bob : user_row :=
  {| user_id := 2; name := "Bob"; email := "bob@example.org";
     password_hash := "$2b$10$bob"; u_created_at := 110; u_updated_at := 150;
     is_enabled := false |}.

Definition login_bug : issue_row :=
  {| issue_id := 1; title := "Login bug"; description := None;
     status := Some Resolved; priority := Some High; severity := Some Minor;
     created_by := 1; assigned_to := Some 2;
     created_at := 200; updated_at := 260; resolved_at := Some 260 |}.

Definition crash : issue_row :=
  {| issue_id := 2; title := "Crash"; description := Some "on the LOGIN page";
     status := Some Open; priority := Some Low; severity := Some Major;
     created_by := 2; assigned_to := None;
     created_at := 210; updated_at := 210; resolved_at := None |}.

Definition db0 : db :=
  {| users := [ann; bob]; issues := [login_bug; crash];
     users_seq := 3; issues_seq := 3; journal := [] |}.

Definition ann_claims : Middleware.claims :=
  {| Middleware.c_userId := Js.Num 1;
     Middleware.c_email := Js.Str "ann@example.org";
     Middleware.c_name := Js.Str "Ann";
     Middleware.c_iat := 1000; Middleware.c_exp := 2000 |}.

(** A verifier that knows one good and one expired token. *)
Definition jwt0 (token : string) : result Middleware.claims :=
  if String.eqb token "good" then Ok ann_claims
  else if String.eqb token "old" then Throw TokenExpiredError
  else Throw JsonWebTokenError.

Definition request0 (header : option string) (id : Z)
    (body : gmap string Js.value) : Middleware.request :=
  {| Middleware.authorization := header; Middleware.user := None;
     Middleware.params_id := id; Middleware.body := body;
     Middleware.query := ∅ |}.

Definition as_ann (id : Z) (body : gmap string Js.value)
  : Middleware.request :=
  {| Middleware.authorization := Some "Bearer good";
     Middleware.user := Some (Middleware.identity_of ann_claims);
     Middleware.params_id := id; Middleware.body := body;
     Middleware.query := ∅ |}.


Definition listing (page limit : Z) (sortBy sortOrder : Js.value)
  : IssueModel.list_options :=
  {| IssueModel.page := Some page; IssueModel.limit := Some limit;
     IssueModel.o_status := Js.Undefined;
     IssueModel.o_priority := Js.Undefined;
     IssueModel.o_severity := Js.Undefined;
     IssueModel.search := Js.Str "login";
     IssueModel.sortBy := sortBy;
     IssueModel.sortOrder := sortOrder;
     IssueModel.createdBy := Js.Undefined |}.

End Samples.

(* ===================================================================== *)
(** * Properties of the middleware *)
(* ===================================================================== *)

Section MiddlewareFacts.
Import Middleware Spec.

Lemma append_cons c a b : String c a +:+ b = String c (a +:+ b).
Proof. reflexivity. Qed.

Lemma split_space_not_nil s : Js.split_space s ≠ [].
Proof.
  destruct s as [|c s]; simpl; [done|].
  destruct (Ascii.eqb c " "); [done|].
  by destruct (Js.split_space s).
Qed.

Lemma split_space_free s : space_free s = true → Js.split_space s = [s].
Proof.
  induction s as [|c s IH]; simpl; [done|].
  destruct (Ascii.eqb c " "); simpl; [done|].
  intros H. by rewrite (IH H).
Qed.

Lemma split_space_app a b :
  space_free a = true →
  Js.split_space (a +:+ String " " b) = a :: Js.split_space b.
Proof.
  induction a as [|c a IH]; [done|].
  rewrite append_cons. simpl.
  destruct (Ascii.eqb c " "); simpl; [done|].
  intros H. by rewrite (IH H).
Qed.

Lemma split_space_cons s a rest :
  Js.split_space s = a :: rest →
  space_free a = true
  ∧ ((rest = [] ∧ s = a)
     ∨ ∃ s', s = a +:+ String " " s' ∧ Js.split_space s' = rest).
Proof.
  revert a rest. induction s as [|c s IH]; simpl; intros a rest H.
  - injection H as <- <-. auto.
  - destruct (Ascii.eqb c " ") eqn:Hc.
    + injection H as <- <-. apply Ascii.eqb_eq in Hc as ->.
      split; [done|]. right. by exists s.
    + destruct (Js.split_space s) as [|w ws] eqn:Hs.
      { by apply split_space_not_nil in Hs. }
      injection H as <- <-.
      destruct (IH w ws eq_refl) as [Hw Hrest]. simpl. rewrite Hc, Hw.
      split; [done|].
      destruct Hrest as [[-> ->]|(s' & -> & Hs')]; [by left|].
      right. by exists s'.
Qed.

Lemma bearer_token_form header token :
  bearer_token (Js.split_space header) = Some token ↔ bearer_form header token.
Proof.
  unfold bearer_token, bearer_form. split.
  - destruct (Js.split_space header) as [|p0 [|p1 [|]]] eqn:Hs; try done.
    destruct (String.eqb_spec p0 "Bearer") as [->|]; [|done].
    intros [= ->].
    apply split_space_cons in Hs as [_ [[? _]|(s' & -> & Hs')]]; [done|].
    apply split_space_cons in Hs' as [Hfree [[_ ->]|(s'' & _ & Hnil)]].
    + done.
    + by apply split_space_not_nil in Hnil.
  - intros [-> Hfree].
    change ("Bearer " +:+ token) with ("Bearer" +:+ String " " token).
    rewrite split_space_app by done. by rewrite split_space_free.
Qed.

Lemma bearer_token_none header :
  (∀ token, ¬ bearer_form header token) →
  bearer_token (Js.split_space header) = None.
Proof.
  intros H. destruct (bearer_token _) as [t|] eqn:Ht; [|done].
  by apply bearer_token_form, H in Ht.
Qed.

Lemma bearer_form_not_empty header token :
  bearer_form header token → header_missing (Some header) = false.
Proof. by intros [-> _]. Qed.

Variable jwt_verify : string → result claims.

Lemma authenticate_failure req msg :
  auth_failure jwt_verify req msg →
  authenticate jwt_verify req = NextError (UnauthorizedError msg).
Proof.
  unfold authenticate, authenticate_try.
  destruct 1 as [req [H|H]|req h Hh Hne Hform|req h tok Hh Hform Hv
                 |req h tok Hh Hform Hv]; rewrite ?H, ?Hh.
  - done.
  - done.
  - simpl. destruct (String.eqb_spec h EmptyString); [done|].
    by rewrite bearer_token_none.
  - rewrite (bearer_form_not_empty _ _ Hform). simpl.
    apply bearer_token_form in Hform. by rewrite Hform, Hv.
  - rewrite (bearer_form_not_empty _ _ Hform). simpl.
    apply bearer_token_form in Hform. by rewrite Hform, Hv.
Qed.

Lemma authenticate_valid req header token decoded :
  authorization req = Some header →
  bearer_form header token →
  jwt_verify token = Ok decoded →
  authenticate jwt_verify req = Next (set_user (Some (identity_of decoded)) req).
Proof.
  intros Hh Hform Hv. unfold authenticate, authenticate_try. rewrite Hh.
  rewrite (bearer_form_not_empty _ _ Hform). simpl.
  apply bearer_token_form in Hform. by rewrite Hform, Hv.
Qed.

End MiddlewareFacts.

(** C7: on a protected route, each of the four authentication failures
    (missing header, header not of the form [Bearer <token>], invalid
    signature, expired token) makes [authenticate] end in [next(error)] with
    an [UnauthorizedError] carrying that failure's reason, so that the router
    answers without running any handler and without touching the store; the
    four reasons are pairwise distinct; and a valid token puts the token's
    [userId], [email] and [name] on the request. *)
Theorem authenticate_guards_protected_routes
    (jwt_verify : string → result Middleware.claims)
    (req : Middleware.request) :
  (∀ msg, Spec.auth_failure jwt_verify req msg →
     msg ∈ Spec.failure_reasons
     ∧ Middleware.authenticate jwt_verify req
       = Middleware.NextError (UnauthorizedError msg)
     ∧ (∀ A (rest : Middleware.request → A) (on_error : js_error → A),
          IssueRoutes.use_authenticate jwt_verify rest on_error req
          = on_error (UnauthorizedError msg))
     ∧ (∀ route now d,
          IssueRoutes.router jwt_verify route req now d
          = (IssueController.nextError (UnauthorizedError msg), d)))
  ∧ NoDup Spec.failure_reasons
  ∧ (∀ header token decoded,
       Middleware.authorization req = Some header →
       Spec.bearer_form header token →
       jwt_verify token = Ok decoded →
       Middleware.authenticate jwt_verify req
       = Middleware.Next
           (Middleware.set_user
              (Some {| Middleware.userId := Middleware.c_userId decoded;
                       Middleware.email := Middleware.c_email decoded;
                       Middleware.name := Middleware.c_name decoded |})
              req)).
Proof.
  split; [|split].
  - intros msg Hfail.
    pose proof (authenticate_failure jwt_verify req msg Hfail) as Hauth.
    split; [|split; [done|split]].
    + unfold Spec.failure_reasons.
      destruct Hfail; apply list_elem_of_In; simpl; tauto.
    + intros A rest on_error. unfold IssueRoutes.use_authenticate.
      by rewrite Hauth.
    + intros route now d. unfold IssueRoutes.router, IssueRoutes.use_authenticate.
      by rewrite Hauth.
  - unfold Spec.failure_reasons.
    repeat (apply NoDup_cons; split; [by apply (bool_decide_unpack _)|]).
    apply NoDup_nil_2.
  - intros header token decoded Hh Hform Hv.
    by apply (authenticate_valid jwt_verify req header token decoded).
Qed.

Lemma authenticate_guards_protected_routes_witness :
  Middleware.authenticate Samples.jwt0 (Samples.request0 None 1 ∅)
  = Middleware.NextError (UnauthorizedError "No authorization token provided")
  ∧ Middleware.authenticate Samples.jwt0
      (Samples.request0 (Some "Bearer old") 1 ∅)
    = Middleware.NextError (UnauthorizedError "Token has expired")
  ∧ Middleware.authenticate Samples.jwt0
      (Samples.request0 (Some "Bearer good") 1 ∅)
    = Middleware.Next (Samples.as_ann 1 ∅).
Proof.
  split; [|split].
  - apply (proj1 (authenticate_guards_protected_routes Samples.jwt0
                    (Samples.request0 None 1 ∅)) _).
    apply Spec.missing_header. by left.
  - apply (proj1 (authenticate_guards_protected_routes Samples.jwt0
                    (Samples.request0 (Some "Bearer old") 1 ∅)) _).
    by apply (Spec.expired_token _ _ "Bearer old" "old").
  - by apply (proj2 (proj2 (authenticate_guards_protected_routes Samples.jwt0
                    (Samples.request0 (Some "Bearer good") 1 ∅)))
                "Bearer good" "good" Samples.ann_claims).
Defined.

(** C10: [optionalAuth] always ends in [next()], never in [next(error)]:
    with a missing or malformed header, or a token the verifier refuses for
    whatever reason, the request goes on with a null identity; only a
    well-formed header with a valid token puts the token's [userId],
    [email] and [name] on the request. *)
Theorem optionalAuth_never_rejects
    (jwt_verify : string → result Middleware.claims)
    (req : Middleware.request) :
  (∃ u, Middleware.optionalAuth jwt_verify req
        = Middleware.Next (Middleware.set_user u req))
  ∧ (Middleware.authorization req = None
     ∨ Middleware.authorization req = Some EmptyString
     ∨ (∃ header, Middleware.authorization req = Some header
                  ∧ ∀ token, ¬ Spec.bearer_form header token)
     ∨ (∃ header token e, Middleware.authorization req = Some header
                          ∧ Spec.bearer_form header token
                          ∧ jwt_verify token = Throw e) →
     Middleware.optionalAuth jwt_verify req
     = Middleware.Next (Middleware.set_user None req))
  ∧ (∀ header token decoded,
       Middleware.authorization req = Some header →
       Spec.bearer_form header token →
       jwt_verify token = Ok decoded →
       Middleware.optionalAuth jwt_verify req
       = Middleware.Next
           (Middleware.set_user
              (Some {| Middleware.userId := Middleware.c_userId decoded;
                       Middleware.email := Middleware.c_email decoded;
                       Middleware.name := Middleware.c_name decoded |})
              req)).
Proof.
  unfold Middleware.optionalAuth, Middleware.optionalAuth_try.
  split; [|split].
  - destruct (Middleware.header_missing _); [by eexists|].
    destruct (Middleware.bearer_token _) as [token|]; [|by eexists].
    destruct (jwt_verify token); by eexists.
  - intros [H|[H|[(h & H & Hform)|(h & token & e & H & Hform & Hv)]]];
      rewrite H; [done|done|..].
    + destruct (Middleware.header_missing _); [done|]. simpl.
      by rewrite bearer_token_none.
    + rewrite (bearer_form_not_empty _ _ Hform). simpl.
      apply bearer_token_form in Hform. by rewrite Hform, Hv.
  - intros h token decoded H Hform Hv. rewrite H.
    rewrite (bearer_form_not_empty _ _ Hform). simpl.
    apply bearer_token_form in Hform. by rewrite Hform, Hv.
Qed.

Lemma optionalAuth_never_rejects_witness :
  Middleware.optionalAuth Samples.jwt0
    (Samples.request0 (Some "Bearer forged") 1 ∅)
  = Middleware.Next (Samples.request0 (Some "Bearer forged") 1 ∅)
  ∧ Middleware.optionalAuth Samples.jwt0
      (Samples.request0 (Some "Bearer good") 1 ∅)
    = Middleware.Next (Samples.as_ann 1 ∅).
Proof.
  split.
  - apply (proj1 (proj2 (optionalAuth_never_rejects Samples.jwt0
                    (Samples.request0 (Some "Bearer forged") 1 ∅)))).
    right; right; right.
    by exists "Bearer forged", "forged", JsonWebTokenError.
  - by apply (proj2 (proj2 (optionalAuth_never_rejects Samples.jwt0
                    (Samples.request0 (Some "Bearer good") 1 ∅)))
                "Bearer good" "good" Samples.ann_claims).
Defined.

(* ===================================================================== *)
(** * Properties of the user lookups *)
(* ===================================================================== *)

Section AuthFacts.
Import Store.


Lemma positive_length {A} (l : list A) :
  (0 <? Z.of_nat (length l)) = true ↔ ∃ x, x ∈ l.
Proof.
  destruct l as [|x l]; simpl.
  - split; [done|]. intros [x Hx]. by apply not_elem_of_nil in Hx.
  - split; [|done]. intros _. exists x. apply list_elem_of_here.
Qed.



End AuthFacts.



(* ===================================================================== *)
(** * Properties of the status counts *)
(* ===================================================================== *)

Section CountFacts.
Import Store IssueModel Spec.

Lemma sumZ_cons x l : sumZ (x :: l) = x + sumZ l.
Proof. reflexivity. Qed.

Lemma status_key_not_total s : status_key s ≠ "total".
Proof. by destruct s as [[]|]. Qed.

Lemma status_key_inj s1 s2 : status_key s1 = status_key s2 → s1 = s2.
Proof. destruct s1 as [[]|], s2 as [[]|]; simpl; congruence. Qed.

Lemma sum_counts_insert k c (m : gmap string Z) :
  sum_counts (<[k := c]> m)
  = (if decide (k = "total") then 0 else c) + sum_counts (delete k m).
Proof.
  rewrite <-insert_delete_eq. unfold sum_counts.
  rewrite map_fold_insert_L.
  - by case_decide.
  - intros. repeat case_decide; lia.
  - apply lookup_delete_eq.
Qed.

Lemma sum_counts_delete k (m : gmap string Z) :
  sum_counts m
  = (if decide (k = "total") then 0 else default 0 (m !! k))
    + sum_counts (delete k m).
Proof.
  destruct (m !! k) as [v|] eqn:Hk.
  - rewrite <-(insert_delete_id m k v Hk) at 1.
    rewrite sum_counts_insert, delete_delete_eq. done.
  - rewrite (delete_id m k Hk). simpl. case_decide; lia.
Qed.

Lemma sum_counts_delete_total (m : gmap string Z) :
  sum_counts (delete "total" m) = sum_counts m.
Proof. rewrite (sum_counts_delete "total" m), decide_True by done. lia. Qed.

Lemma sum_counts_add_count m s c :
  default 0 (m !! status_key s) = 0 →
  sum_counts (add_count m (s, c)) = sum_counts m + c.
Proof.
  intros H0. unfold add_count. simpl.
  rewrite sum_counts_insert, decide_True, sum_counts_delete_total by done.
  rewrite sum_counts_insert, (sum_counts_delete (status_key s) m), H0.
  pose proof (status_key_not_total s). repeat case_decide; (done || lia).
Qed.

Lemma lookup_add_count_ne m s c k :
  k ≠ "total" → k ≠ status_key s → add_count m (s, c) !! k = m !! k.
Proof. intros ??. unfold add_count. simpl. by rewrite !lookup_insert_ne. Qed.

Lemma lookup_add_count_key m s c :
  add_count m (s, c) !! status_key s = Some c.
Proof.
  unfold add_count. simpl.
  rewrite lookup_insert_ne by (apply not_eq_sym, status_key_not_total).
  apply lookup_insert_eq.
Qed.

Lemma lookup_add_count_total m s c :
  add_count m (s, c) !! "total" = Some (default 0 (m !! "total") + c).
Proof.
  unfold add_count. simpl. rewrite lookup_insert_eq.
  by rewrite lookup_insert_ne by apply status_key_not_total.
Qed.

Variable rows : list issue_row.

Let group (s : option issue_status) : option issue_status * Z :=
  (s, count_status s rows).

Lemma fold_sum_counts l m :
  NoDup l →
  (∀ s, s ∈ l → default 0 (m !! status_key s) = 0) →
  sum_counts (foldl add_count m (group <$> l))
  = sum_counts m + sumZ ((λ s, count_status s rows) <$> l).
Proof.
  revert m. induction l as [|a l IH]; intros m Hnd H0; [simpl; lia|].
  apply NoDup_cons in Hnd as [Ha Hnd].
  rewrite !fmap_cons, sumZ_cons. cbn [foldl].
  change (group a) with (a, count_status a rows).
  rewrite IH; [|done|].
  - rewrite sum_counts_add_count; [lia|]. apply H0, list_elem_of_here.
  - intros s Hs. rewrite lookup_add_count_ne.
    + by apply H0, list_elem_of_further.
    + apply status_key_not_total.
    + intros Heq%status_key_inj. by subst.
Qed.

Lemma fold_lookup_total l m t :
  m !! "total" = Some t →
  foldl add_count m (group <$> l) !! "total"
  = Some (t + sumZ ((λ s, count_status s rows) <$> l)).
Proof.
  revert m t. induction l as [|a l IH]; intros m t Hm.
  - simpl. rewrite Hm. f_equal. lia.
  - rewrite !fmap_cons, sumZ_cons. cbn [foldl].
    change (group a) with (a, count_status a rows).
    rewrite (IH _ (t + count_status a rows)).
    + f_equal. lia.
    + by rewrite lookup_add_count_total, Hm.
Qed.

Lemma fold_lookup_in l m s :
  s ∈ l →
  foldl add_count m (group <$> l) !! status_key s = Some (count_status s rows).
Proof.
  induction l as [|a l IH] using rev_ind; intros Hs.
  - by apply not_elem_of_nil in Hs.
  - rewrite fmap_app, foldl_app. cbn [fmap list_fmap foldl].
    change (group a) with (a, count_status a rows).
    destruct (decide (s = a)) as [->|Hne].
    + apply lookup_add_count_key.
    + rewrite lookup_add_count_ne.
      * apply IH. apply elem_of_app in Hs as [?|Hs]; [done|].
        by apply list_elem_of_singleton in Hs.
      * apply status_key_not_total.
      * by intros ?%status_key_inj.
Qed.

Lemma fold_lookup_notin l m k :
  k ≠ "total" →
  (∀ s, s ∈ l → status_key s ≠ k) →
  foldl add_count m (group <$> l) !! k = m !! k.
Proof.
  intros Hk. induction l as [|a l IH] using rev_ind; intros Hl; [done|].
  rewrite fmap_app, foldl_app. cbn [fmap list_fmap foldl].
  change (group a) with (a, count_status a rows).
  rewrite lookup_add_count_ne.
  - apply IH. intros s Hs. apply Hl, elem_of_app. by left.
  - done.
  - apply not_eq_sym, Hl, elem_of_app. right. apply list_elem_of_here.
Qed.

Lemma count_status_cons s r l :
  count_status s (r :: l)
  = (if decide (status r = s) then 1 else 0) + count_status s l.
Proof.
  unfold count_status. rewrite filter_cons. case_decide; simpl; lia.
Qed.

Lemma sumZ_indicator_notin (x : option issue_status) ks :
  x ∉ ks → sumZ ((λ s, if decide (x = s) then 1 else 0) <$> ks) = 0.
Proof.
  induction ks as [|b ks IH]; intros Hx; [done|].
  rewrite fmap_cons, sumZ_cons, decide_False, IH; [done|..].
  - intros ?. apply Hx. by apply list_elem_of_further.
  - intros ->. apply Hx. apply list_elem_of_here.
Qed.

Lemma sumZ_indicator (x : option issue_status) ks :
  NoDup ks → x ∈ ks →
  sumZ ((λ s, if decide (x = s) then 1 else 0) <$> ks) = 1.
Proof.
  induction 1 as [|a ks Ha Hnd IH]; intros Hx.
  - by apply not_elem_of_nil in Hx.
  - rewrite fmap_cons, sumZ_cons. destruct (decide (x = a)) as [->|Hne].
    + by rewrite sumZ_indicator_notin.
    + rewrite IH; [done|]. by apply elem_of_cons in Hx as [?|?].
Qed.

Lemma sumZ_plus {A} (f g : A → Z) l :
  sumZ ((λ a, f a + g a) <$> l) = sumZ (f <$> l) + sumZ (g <$> l).
Proof.
  induction l as [|a l IH]; [done|]. rewrite !fmap_cons, !sumZ_cons. lia.
Qed.

End CountFacts.

Lemma count_partition (rows : list Store.issue_row) ks :
  NoDup ks →
  (∀ r, r ∈ rows → Store.status r ∈ ks) →
  Spec.sumZ ((λ s, Spec.count_status s rows) <$> ks) = Z.of_nat (length rows).
Proof.
  intros Hnd. induction rows as [|r rows IH]; intros Hin.
  - clear. induction ks as [|k ks IHk]; [done|].
    rewrite fmap_cons, sumZ_cons, IHk. done.
  - rewrite (list_fmap_ext _ (λ s, (if decide (Store.status r = s) then 1 else 0)
                                  + Spec.count_status s rows) ks).
    2: { intros. apply count_status_cons. }
    rewrite sumZ_plus, sumZ_indicator, IH; simpl length; [lia|..|done|].
    + intros r' Hr'. by apply Hin, list_elem_of_further.
    + apply Hin, list_elem_of_here.
Qed.

Lemma count_status_zero s (rows : list Store.issue_row) :
  (∀ r, r ∈ rows → Store.status r ≠ s) → Spec.count_status s rows = 0.
Proof.
  intros H. unfold Spec.count_status.
  induction rows as [|r rows IH]; [done|].
  rewrite filter_cons, decide_False by apply H, list_elem_of_here.
  apply IH. intros r' Hr'. by apply H, list_elem_of_further.
Qed.

(** C9: whatever the store holds, [getStatusCounts] answers with a mapping
    that has each of the four status keys, bound to the number of issues
    with that status (0 when there is none), and a [total] equal to the
    number of issues: the sum of the four counts and of the number of
    issues whose status is NULL, so the sum of the four counts exactly when
    every issue has a status. *)
Theorem status_counts_complete (d : Store.db) :
  ∃ counts,
    IssueModel.getStatusCounts d = (Ok counts, Store.received Store.SELECT d)
    ∧ (∀ s, counts !! Store.status_label s
            = Some (Spec.count_status (Some s) (Store.issues d)))
    ∧ (∀ s, (∀ r, r ∈ Store.issues d → Store.status r ≠ Some s) →
            counts !! Store.status_label s = Some 0)
    ∧ counts !! "total"
      = Some (Spec.count_status (Some Store.Open) (Store.issues d)
              + Spec.count_status (Some Store.InProgress) (Store.issues d)
              + Spec.count_status (Some Store.Resolved) (Store.issues d)
              + Spec.count_status (Some Store.Closed) (Store.issues d)
              + Spec.count_status None (Store.issues d))
    ∧ ((∀ r, r ∈ Store.issues d → Store.status r ≠ None) →
       counts !! "total"
       = Some (Spec.count_status (Some Store.Open) (Store.issues d)
               + Spec.count_status (Some Store.InProgress) (Store.issues d)
               + Spec.count_status (Some Store.Resolved) (Store.issues d)
               + Spec.count_status (Some Store.Closed) (Store.issues d)))
    ∧ counts !! "total" = Some (Z.of_nat (length (Store.issues d))).
Proof.
  set (rows := Store.issues d).
  set (ks := remove_dups (Store.status <$> rows)).
  set (counts := foldl IssueModel.add_count IssueModel.counts_start
                   ((λ s, (s, Spec.count_status s rows)) <$> ks)).
  assert (Hks : ∀ r, r ∈ rows → Store.status r ∈ ks).
  { intros r Hr. apply elem_of_remove_dups. by apply list_elem_of_fmap_2. }
  assert (Hsum : Spec.sumZ ((λ s, Spec.count_status s rows) <$> ks)
                 = Z.of_nat (length rows)).
  { apply count_partition; [apply NoDup_remove_dups|done]. }
  assert (Hknown : ∀ s, counts !! Store.status_label s
                        = Some (Spec.count_status (Some s) rows)).
  { intros s. destruct (decide (Some s ∈ ks)) as [Hin|Hout].
    - apply (fold_lookup_in rows ks _ (Some s) Hin).
    - unfold counts. rewrite fold_lookup_notin.
      + rewrite count_status_zero; [by destruct s|].
        intros r Hr Heq. apply Hout. rewrite <-Heq. by apply Hks.
      + by destruct s.
      + intros s' Hs' Heq. apply Hout.
        by rewrite <-(status_key_inj s' (Some s) Heq). }
  assert (Htotal : counts !! "total" = Some (Z.of_nat (length rows))).
  { unfold counts. rewrite (fold_lookup_total rows ks _ 0) by done.
    by rewrite Hsum. }
  assert (Hfive : Z.of_nat (length rows)
                  = Spec.count_status (Some Store.Open) rows
                    + Spec.count_status (Some Store.InProgress) rows
                    + Spec.count_status (Some Store.Resolved) rows
                    + Spec.count_status (Some Store.Closed) rows
                    + Spec.count_status None rows).
  { rewrite <-(count_partition rows
                 [Some Store.Open; Some Store.InProgress; Some Store.Resolved;
                  Some Store.Closed; None]).
    - unfold Spec.sumZ. simpl. lia.
    - by apply (bool_decide_unpack _).
    - intros r _. destruct (Store.status r) as [[]|];
        by apply (bool_decide_unpack _). }
  exists counts. split; [reflexivity|]. split; [done|].
  split; [|split; [|split]].
  - intros s Hnone. rewrite Hknown. f_equal. by apply count_status_zero.
  - by rewrite Htotal, Hfive.
  - intros Hall. rewrite Htotal, Hfive, (count_status_zero None rows Hall).
    f_equal. lia.
  - done.
Qed.

(** After a status-only update with no status, one issue of the sample
    store has no status: [total] is 2 and the four counts add up to 1. *)
Lemma status_counts_complete_counterexample :
  match
    (IssueModel.getStatusCounts
       (IssueModel.updateStatus 1 Js.Undefined 300 Samples.db0).2).1
  with
  | Ok counts =>
      counts !! "Open" = Some 1
      ∧ counts !! "In Progress" = Some 0
      ∧ counts !! "Resolved" = Some 0
      ∧ counts !! "Closed" = Some 0
      ∧ counts !! "total" = Some 2
  | Throw _ => False
  end.
Proof. vm_compute. by repeat split. Qed.

(* ===================================================================== *)
(** * Properties of the store *)
(* ===================================================================== *)

Section StoreFacts.
Import Store.

Lemma traverse_Forall2 {A B} (f : A → result B) l l' :
  traverse f l = Ok l' → Forall2 (λ x y, f x = Ok y) l l'.
Proof.
  revert l'. induction l as [|x l IH]; simpl; intros l' H.
  - injection H as <-. constructor.
  - destruct (f x) as [y|] eqn:Hx; [|done].
    destruct (traverse f l) as [ys|]; [|done].
    injection H as <-. constructor; auto.
Qed.

Lemma Forall2_traverse {A B} (f : A → result B) l l' :
  Forall2 (λ x y, f x = Ok y) l l' → traverse f l = Ok l'.
Proof. induction 1 as [|x y l l' Hx _ IH]; simpl; [done|]. by rewrite Hx, IH. Qed.

Lemma store_cell_frame c v r r' c' :
  store_cell c v r = Ok r' → c' ≠ c → cell_of c' r' = cell_of c' r.
Proof.
  intros H Hne.
  destruct c, v; simpl in H; try discriminate; injection H as <-;
    destruct c'; done.
Qed.

Lemma store_cell_written c v r r' :
  store_cell c v r = Ok r' → cell_of c r' = v.
Proof.
  intros H.
  destruct c, v; simpl in H; try discriminate; by injection H as <-.
Qed.

Lemma apply_assignments_frame sets r r' c :
  apply_assignments sets r = Ok r' → c ∉ sets.*1 → cell_of c r' = cell_of c r.
Proof.
  revert r. induction sets as [|[c0 v0] sets IH]; simpl; intros r H Hc.
  - by injection H as <-.
  - destruct (store_cell c0 v0 r) as [r1|] eqn:H1; [|done]. simpl in H.
    rewrite (IH r1 H).
    + apply (store_cell_frame _ _ _ _ _ H1). intros ->. apply Hc, list_elem_of_here.
    + intros ?. by apply Hc, list_elem_of_further.
Qed.

Lemma apply_assignments_written sets r r' c v :
  apply_assignments sets r = Ok r' → NoDup sets.*1 → (c, v) ∈ sets →
  cell_of c r' = v.
Proof.
  revert r. induction sets as [|[c0 v0] sets IH]; simpl; intros r H Hnd Hin.
  - by apply not_elem_of_nil in Hin.
  - destruct (store_cell c0 v0 r) as [r1|] eqn:H1; [|done]. simpl in H.
    apply NoDup_cons in Hnd as [Hc0 Hnd].
    apply elem_of_cons in Hin as [[= -> ->]|Hin].
    + rewrite (apply_assignments_frame _ _ _ _ H Hc0).
      by apply store_cell_written in H1.
    + by apply (IH r1).
Qed.

Lemma check_issue_ok us r r' : check_issue us r = Ok r' → r' = r.
Proof.
  unfold check_issue. repeat case_match; try discriminate. by intros [= <-].
Qed.

Lemma first_duplicate_None cs : first_duplicate cs = None → NoDup cs.
Proof.
  unfold first_duplicate. intros H.
  destruct (list_find _ cs) as [p|] eqn:Hf; [done|]. clear H.
  pose proof (proj1 (list_find_None _ _) Hf) as Hall. clear Hf.
  assert (Hgen : ∀ l : list column,
             Forall (λ c, ¬ (1 < length (filter (λ c', c' = c) l))%nat) l
             → NoDup l).
  { clear. induction l as [|a l IH]; intros Hall; constructor.
    - apply Forall_cons in Hall as [Ha _].
      rewrite filter_cons, decide_True in Ha by done. simpl in Ha.
      intros Hin. apply Ha.
      assert (a ∈ filter (λ c', c' = a) l) as Hin'
        by (by apply list_elem_of_filter).
      destruct (filter (λ c', c' = a) l); [by apply not_elem_of_nil in Hin'|].
      simpl. lia.
    - apply IH. apply Forall_cons in Hall as [_ Hall].
      eapply Forall_impl; [exact Hall|]. intros c Hc. simpl in Hc.
      rewrite filter_cons in Hc. case_decide; simpl in Hc; lia. }
  by apply Hgen.
Qed.

Lemma cell_of_set_updated_at c t r :
  c ≠ UpdatedAt → cell_of c (set_updated_at t r) = cell_of c r.
Proof. by destruct c. Qed.

(** What a row looks like after the statement went over it. *)
Lemma update_row_effect us now sets bs r r' :
  NoDup sets.*1 →
  update_row us now sets bs r = Ok r' →
  if where_holds bs r then
    updated_at r' = now
    ∧ (∀ c, c ∉ sets.*1 → c ≠ UpdatedAt → cell_of c r' = cell_of c r)
    ∧ (∀ c v, (c, v) ∈ sets → c ≠ UpdatedAt → cell_of c r' = v)
  else r' = r.
Proof.
  intros Hnd. unfold update_row. destruct (where_holds bs r); [|by intros [= <-]].
  destruct (apply_assignments sets r) as [r1|] eqn:H1; [|done]. simpl.
  intros ->%check_issue_ok. unfold update_updated_at_column.
  split; [done|split].
  - intros c Hc Hne. rewrite cell_of_set_updated_at by done.
    by apply (apply_assignments_frame sets).
  - intros c v Hin Hne. rewrite cell_of_set_updated_at by done.
    by apply (apply_assignments_written sets r).
Qed.

Lemma traverse_bind_assignment_fst ps now sets bsets :
  traverse (bind_assignment ps now) sets = Ok bsets → bsets.*1 = sets.*1.
Proof.
  intros H%traverse_Forall2. induction H as [|a b l l' Hab _ IH]; [done|].
  rewrite !fmap_cons, IH. f_equal.
  unfold bind_assignment in Hab.
  destruct (eval_expr ps now a.2); [|done]. simpl in Hab.
  destruct (coerce a.1 _); [|done]. by injection Hab as <-.
Qed.

(** The outcome of a successful UPDATE, statement by statement. *)
Lemma query_update_ok sets where_ params now d ids d' :
  query_update sets where_ params now d = (Ok ids, d') →
  ∃ bsets bs,
    traverse (bind_assignment (prepareValue <$> params) now) sets = Ok bsets
    ∧ traverse (bind_cond (prepareValue <$> params) now) where_ = Ok bs
    ∧ NoDup sets.*1
    ∧ Forall2 (λ r r', update_row (users d) now bsets bs r = Ok r')
        (issues d) (issues d')
    ∧ ids = issue_id <$> filter (λ r, where_holds bs r) (issues d)
    ∧ users d' = users d
    ∧ users_seq d' = users_seq d ∧ issues_seq d' = issues_seq d
    ∧ journal d' = journal d ++ [UPDATE].
Proof.
  unfold query_update, prepared.
  destruct (arity_ok _ _); [|done].
  destruct (first_duplicate _) eqn:Hdup; [done|].
  destruct (traverse (bind_assignment _ _) sets) as [bsets|] eqn:Hs; [|done].
  simpl.
  destruct (traverse (bind_cond _ _) where_) as [bs|] eqn:Hw; [|done]. simpl.
  destruct (traverse (update_row _ _ _ _) _) as [rows|] eqn:Hr; [|done]. simpl.
  intros [= <- <-]. exists bsets, bs.
  split; [done|]. split; [done|]. split; [by apply first_duplicate_None|].
  split; [by apply traverse_Forall2|done].
Qed.

(** A failed UPDATE leaves the tables as they were. *)
Lemma query_update_throw sets where_ params now d e d' :
  query_update sets where_ params now d = (Throw e, d') →
  d' = received UPDATE d.
Proof.
  unfold query_update. destruct (prepared _ _ _) as [[rows ids]|]; [done|].
  by intros [= _ <-].
Qed.

End StoreFacts.

(* ===================================================================== *)
(** * Properties of the issue model *)
(* ===================================================================== *)

Section IssueModelFacts.
Import Store IssueModel Spec.

Lemma where_id_holds id r :
  where_holds [BEq IssueId (CInt id)] r ↔ issue_id r = id.
Proof.
  unfold where_holds. simpl. rewrite andb_true_r, bool_decide_spec.
  split; [by intros [= ->]|by intros ->].
Qed.

Lemma filter_where_id id (rows : list issue_row) :
  filter (λ r, where_holds [BEq IssueId (CInt id)] r) rows
  = filter (λ r, issue_id r = id) rows.
Proof. apply list_filter_iff. intros r. apply where_id_holds. Qed.

Lemma getIssueById_eq id now d :
  getIssueById id now d
  = (Ok (head (filter (λ r, issue_id r = id) (issues d)
               ≫= join_users (users d))),
     received SELECT d).
Proof.
  transitivity
    (Ok (head (take 1 (filter (λ r, where_holds [BEq IssueId (CInt id)] r)
                         (issues d) ≫= join_users (users d)))),
     received SELECT d); [reflexivity|].
  rewrite filter_where_id. f_equal. f_equal.
  by destruct (_ ≫= _).
Qed.

Lemma join_users_head us r :
  ∃ j, head (join_users us r) = Some j ∧ issue j = r.
Proof.
  unfold join_users.
  assert (Hne : ∀ k, ∃ x l, matching_users us k = x :: l).
  { intros [k|]; simpl; [|by eexists _, _].
    destruct (filter _ us); simpl; by eexists _, _. }
  destruct (Hne (Some (created_by r))) as (c & lc & ->).
  destruct (Hne (assigned_to r)) as (a & la & ->).
  simpl. by eexists.
Qed.

Lemma getIssueById_absent id now d :
  (∀ r, r ∈ issues d → issue_id r ≠ id) →
  getIssueById id now d = (Ok None, received SELECT d).
Proof.
  intros Habs. rewrite getIssueById_eq.
  assert (filter (λ r, issue_id r = id) (issues d) = []) as ->; [|done].
  induction (issues d) as [|r l IH]; [done|].
  rewrite filter_cons, decide_False by apply Habs, list_elem_of_here.
  apply IH. intros r' ?. by apply Habs, list_elem_of_further.
Qed.

Lemma getIssueById_present id now d :
  id ∈ issue_id <$> issues d →
  ∃ j, getIssueById id now d = (Ok (Some j), received SELECT d)
       ∧ issue j ∈ issues d ∧ issue_id (issue j) = id.
Proof.
  intros (r & -> & Hr)%list_elem_of_fmap. rewrite getIssueById_eq.
  assert (r ∈ filter (λ r', issue_id r' = issue_id r) (issues d)) as Hin
    by (by apply list_elem_of_filter).
  destruct (filter _ (issues d)) as [|r0 l] eqn:Hf;
    [by apply not_elem_of_nil in Hin|].
  assert (r0 ∈ filter (λ r', issue_id r' = issue_id r) (issues d))
    as [Hid Hr0]%list_elem_of_filter by (rewrite Hf; apply list_elem_of_here).
  destruct (join_users_head (users d) r0) as (j & Hj & <-).
  exists j. split; [|done].
  rewrite bind_cons. f_equal. f_equal.
  destruct (join_users (users d) (issue j)); [done|].
  simpl in *. done.
Qed.

Lemma present_ids id d : present id d ↔ id ∈ issue_id <$> issues d.
Proof.
  unfold present. rewrite list_elem_of_fmap. split.
  - intros (r & Hr & <-). by exists r.
  - intros (r & -> & Hr). by exists r.
Qed.

(** An UPDATE that does not assign [issue_id] keeps the ids where they
    are. *)
Lemma query_update_ids sets where_ params now d ids d' :
  IssueId ∉ sets.*1 →
  query_update sets where_ params now d = (Ok ids, d') →
  issue_id <$> issues d' = issue_id <$> issues d.
Proof.
  intros Hno (bsets & bs & Hb & _ & Hnd & Hrows & _)%query_update_ok.
  apply traverse_bind_assignment_fst in Hb. rewrite <-Hb in Hno, Hnd.
  induction Hrows as [|r r' l l' Hr _ IH]; [done|].
  rewrite !fmap_cons, IH. f_equal.
  apply (update_row_effect _ _ _ _ _ _ Hnd) in Hr.
  destruct (where_holds bs r); [|by subst].
  destruct Hr as (_ & Hframe & _).
  by injection (Hframe IssueId Hno ltac:(done)).
Qed.

Lemma push_field_no_id c v b :
  c ≠ IssueId →
  IssueId ∉ (updateFields b).*1 → IssueId ∉ (updateFields (push_field c v b)).*1.
Proof.
  intros Hc Hb. unfold push_field. destruct (Js.defined v); [|done]. simpl.
  rewrite fmap_app, elem_of_app. intros [?|Hin%list_elem_of_singleton]; [done|].
  by apply Hc.
Qed.

Lemma push_raw_no_id a b :
  a.1 ≠ IssueId →
  IssueId ∉ (updateFields b).*1 → IssueId ∉ (updateFields (push_raw a b)).*1.
Proof.
  intros Hc Hb. unfold push_raw. simpl.
  rewrite fmap_app, elem_of_app. intros [?|Hin%list_elem_of_singleton]; [done|].
  by apply Hc.
Qed.

Lemma update_set_no_id data : IssueId ∉ (updateFields (update_set data)).*1.
Proof.
  unfold update_set, push_status.
  repeat first
    [ apply push_raw_no_id; [done|]
    | apply push_field_no_id; [done|]
    | match goal with |- context [if ?b then _ else _] => destruct b end ].
  all: apply not_elem_of_nil.
Qed.


Lemma updateIssue_throw id data now d e d' :
  updateIssue id data now d = (Throw e, d') → same_tables d d'.
Proof.
  unfold updateIssue. destruct (_ =? _)%nat; [done|]. unfold bind.
  destruct (query_update _ _ _ _ d) as [[ids|] d1] eqn:Hq; [done|].
  intros [= _ <-]. by apply query_update_throw in Hq as ->.
Qed.

Lemma updateStatus_ids id status now d n d' :
  updateStatus id status now d = (Ok n, d') →
  issue_id <$> issues d' = issue_id <$> issues d.
Proof.
  unfold updateStatus, bind.
  destruct (query_update _ _ _ _ d) as [[ids|] d1] eqn:Hq; [|done].
  intros [= _ <-]. refine (query_update_ids _ _ _ _ _ _ _ _ Hq).
  destruct (is_resolved_or_closed status); by apply (bool_decide_unpack _).
Qed.

Lemma updateStatus_throw id status now d e d' :
  updateStatus id status now d = (Throw e, d') → same_tables d d'.
Proof.
  unfold updateStatus, bind.
  destruct (query_update _ _ _ _ d) as [[ids|] d1] eqn:Hq; [done|].
  intros [= _ <-]. by apply query_update_throw in Hq as ->.
Qed.

End IssueModelFacts.

(* ===================================================================== *)
(** * Properties of the issue controller *)
(* ===================================================================== *)

Section ControllerFacts.
Import Store Spec.

Lemma same_tables_received v d : same_tables d (received v d).
Proof. done. Qed.

Lemma present_received id v d : present id (received v d) ↔ present id d.
Proof. done. Qed.

(** The re-fetch after a write that kept the ids finds the row. *)
Lemma refetch_after id now d d1 :
  present id d →
  issue_id <$> issues d1 = issue_id <$> issues d →
  ∃ j, IssueModel.getIssueById id now d1 = (Ok (Some j), received SELECT d1)
       ∧ issue j ∈ issues d1 ∧ issue_id (issue j) = id.
Proof.
  intros Hp%present_ids Hids. apply getIssueById_present. by rewrite Hids.
Qed.

End ControllerFacts.




Section CreateFacts.
Import Store Spec.

(** The outcome of a successful INSERT. *)
Lemma query_insert_issue_ok values params now d id d' :
  query_insert_issue values params now d = (Ok id, d') →
  ∃ bvalues r,
    traverse (bind_assignment (prepareValue <$> params) now) values = Ok bvalues
    ∧ NoDup values.*1
    ∧ apply_assignments bvalues (default_issue (issues_seq d) now) = Ok r
    ∧ id = issue_id r
    ∧ issues d' = issues d ++ [r]
    ∧ users d' = users d
    ∧ issues_seq d' = issues_seq d + 1.
Proof.
  unfold query_insert_issue, prepared.
  destruct (arity_ok _ _); [|done].
  destruct (first_duplicate _) eqn:Hdup; [done|].
  destruct (traverse _ values) as [bvalues|] eqn:Hb; [|done].
  repeat case_bool_decide; try done. simpl.
  destruct (apply_assignments _ _) as [r|] eqn:Hr; [|done]. simpl.
  destruct (existsb _ (issues d)); [done|]. simpl.
  destruct (check_issue _ r) as [r'|] eqn:Hc; [|done].
  apply check_issue_ok in Hc as ->.
  intros [= <- <-]. exists bvalues, r.
  split; [done|]. split; [by apply first_duplicate_None|done].
Qed.

Lemma bind_assignment_placeholder ps now c i b v :
  bind_assignment ps now (c, Placeholder (S i)) = Ok b →
  ps !! i = Some v →
  ∃ x, b = (c, x) ∧ coerce c v = Ok x.
Proof.
  unfold bind_assignment. simpl. intros H Hv. rewrite Hv in H. simpl in H.
  destruct (coerce c v) as [x|]; [|done]. injection H as <-. by exists x.
Qed.

(** The row [createIssue] of the model inserts carries the creator it was
    given and the id it returns. *)
Lemma createIssue_row data now d id d' :
  IssueModel.createIssue data now d = (Ok id, d') →
  ∃ r, issues d' = issues d ++ [r] ∧ users d' = users d
       ∧ issue_id r = id ∧ id = issues_seq d
       ∧ coerce CreatedBy (prepareValue (IssueModel.d_createdBy data))
         = Ok (CInt (created_by r)).
Proof.
  unfold IssueModel.createIssue, bind. cbv zeta.
  destruct (query_insert_issue _ _ _ d) as [[id'|] d1] eqn:Hq; [|done].
  intros [= <- <-].
  apply query_insert_issue_ok in Hq
    as (bvalues & r & Hb & Hnd & Hr & -> & Hi & Hu & _).
  exists r. split; [done|]. split; [done|]. split; [done|].
  pose proof (traverse_bind_assignment_fst _ _ _ _ Hb) as Hfst.
  split.
  - assert (cell_of IssueId r = cell_of IssueId (default_issue (issues_seq d) now))
      as Hid.
    { apply (apply_assignments_frame bvalues); [done|]. rewrite Hfst.
      by apply (bool_decide_unpack _). }
    by injection Hid.
  - apply traverse_Forall2 in Hb.
    destruct (Forall2_lookup_l _ _ _ 5%nat (CreatedBy, Placeholder 6) Hb eq_refl)
      as (b & Hb5 & Hbind).
    eapply bind_assignment_placeholder in Hbind as (x & -> & Hx);
      [|reflexivity].
    rewrite Hx. f_equal. symmetry.
    change (cell_of CreatedBy r = x).
    apply (apply_assignments_written bvalues _ _ _ _ Hr).
    + by rewrite Hfst.
    + by eapply list_elem_of_lookup_2.
Qed.

Lemma getIssueById_last id now d rows r :
  issues d = rows ++ [r] →
  (∀ r', r' ∈ rows → issue_id r' ≠ id) →
  issue_id r = id →
  ∃ j, IssueModel.getIssueById id now d = (Ok (Some j), received SELECT d)
       ∧ issue j = r.
Proof.
  intros Hrows Hfresh Hid. rewrite getIssueById_eq, Hrows, filter_app.
  assert (filter (λ r', issue_id r' = id) rows = []) as ->.
  { clear Hrows. induction rows as [|a l IH]; [done|].
    rewrite filter_cons, decide_False by apply Hfresh, list_elem_of_here.
    apply IH. intros r' ?. by apply Hfresh, list_elem_of_further. }
  rewrite filter_cons, decide_True by done. simpl.
  destruct (join_users_head (users d) r) as (j & Hj & <-).
  exists j. rewrite app_nil_r. by rewrite Hj.
Qed.

End CreateFacts.

(** C3: the creator of a created issue is the authenticated caller's
    [userId]: two create requests by the same caller whose bodies differ at
    most in a [createdBy] or [created_by] field have the same outcome, and
    the row a successful create appends, which is the record returned,
    has the caller's [userId] in [created_by]. *)
Theorem creator_is_the_caller (req1 req2 : Middleware.request) (now : Z)
    (d : Store.db) :
  (Middleware.user req1 = Middleware.user req2 →
   Spec.same_but_creator (Middleware.body req1) (Middleware.body req2) →
   IssueController.createIssue req1 now d
   = IssueController.createIssue req2 now d)
  ∧ (Spec.fresh_sequence d →
     ∀ data msg d',
       IssueController.createIssue req1 now d
       = (IssueController.createdResponse data msg, d') →
       ∃ u r,
         Middleware.user req1 = Some u
         ∧ Store.issues d' = Store.issues d ++ [r]
         ∧ IssueController.id data = Store.issue_id r
         ∧ IssueController.ref_id (IssueController.r_createdBy data)
           = Store.created_by r
         ∧ Store.coerce Store.CreatedBy (Store.prepareValue (Middleware.userId u))
           = Ok (Store.CInt (Store.created_by r))
         ∧ (∀ n, Middleware.userId u = Js.Num n → Store.created_by r = n)).
Proof.
  split.
  - intros Huser Hsame.
    unfold IssueController.createIssue, IssueController.req_userId, Js.prop.
    rewrite Huser.
    by rewrite (Hsame "title"), (Hsame "description"), (Hsame "status"),
      (Hsame "priority"), (Hsame "severity"), (Hsame "assignedTo")
        by (by apply (bool_decide_unpack _)).
  - intros Hfresh data msg d'.
    unfold IssueController.createIssue, IssueController.try_catch,
      IssueController.req_userId, Store.bind.
    cbv zeta.
    destruct (Middleware.user req1) as [u|]; [|done].
    unfold Store.ret at 1.
    destruct (IssueModel.createIssue _ now d) as [[id|] d1] eqn:Hc; [|done].
    apply createIssue_row in Hc as (r & Hrows & Husers & Hid & Hseq & Hby).
    assert (Hnew : ∀ r', r' ∈ Store.issues d → Store.issue_id r' ≠ id).
    { intros r' Hr' Heq. apply Hfresh in Hr'. lia. }
    destruct (getIssueById_last id now d1 (Store.issues d) r Hrows Hnew Hid)
      as (j & -> & Hj).
    unfold IssueController.formatIssueResponse, Store.ret.
    intros [= <- <- <-]. exists u, r.
    split; [done|]. split; [done|]. unfold IssueController.format_row.
    rewrite Hj. simpl. split; [done|]. split; [done|]. split; [done|].
    intros n Hn. simpl in Hby. rewrite Hn in Hby. by injection Hby.
Qed.

Lemma creator_is_the_caller_witness :
  IssueController.createIssue
    (Samples.as_ann 0 {[ "title" := Js.Str "Typo"; "createdBy" := Js.Num 2 ]})
    300 Samples.db0
  = IssueController.createIssue
      (Samples.as_ann 0 {[ "title" := Js.Str "Typo" ]}) 300 Samples.db0
  ∧ ∃ u r,
      Middleware.user
        (Samples.as_ann 0 {[ "title" := Js.Str "Typo"; "createdBy" := Js.Num 2 ]})
      = Some u
      ∧ Middleware.userId u = Js.Num 1
      ∧ Store.created_by r = 1.
Proof.
  pose proof (creator_is_the_caller
    (Samples.as_ann 0 {[ "title" := Js.Str "Typo"; "createdBy" := Js.Num 2 ]})
    (Samples.as_ann 0 {[ "title" := Js.Str "Typo" ]}) 300 Samples.db0)
    as [Hsame Hcreator].
  split.
  - apply Hsame; [done|]. intros k Hk _.
    unfold Samples.as_ann. cbn [Middleware.body].
    destruct (decide (k = "title")) as [->|Hne]; [done|].
    by rewrite lookup_insert_ne, !lookup_singleton_ne.
  - assert (Hfresh : Spec.fresh_sequence Samples.db0).
    { intros r Hr. repeat (apply elem_of_cons in Hr as [->|Hr]);
        [done..|by apply not_elem_of_nil in Hr]. }
    assert (Hrun : ∃ data msg d',
              IssueController.createIssue
                (Samples.as_ann 0
                   {[ "title" := Js.Str "Typo"; "createdBy" := Js.Num 2 ]})
                300 Samples.db0
              = (IssueController.createdResponse data msg, d')).
    { eexists _, _, _. vm_compute. reflexivity. }
    destruct Hrun as (data & msg & d' & Hrun).
    destruct (Hcreator Hfresh data msg d' Hrun)
      as (u & r & Hu & _ & _ & _ & _ & Hn).
    exists u, r. split; [done|].
    injection Hu as <-. split; [done|]. by apply Hn.
Defined.

(* ===================================================================== *)
(** * The SET list of [updateIssue] *)
(* ===================================================================== *)

Section UpdateSetFacts.
Import Store IssueModel Spec.

Lemma push_field_index c v b : index_ok b → index_ok (push_field c v b).
Proof.
  unfold index_ok, push_field. intros H. destruct (Js.defined v); [|done].
  simpl. rewrite length_app. simpl. lia.
Qed.

Lemma push_raw_index a b : index_ok b → index_ok (push_raw a b).
Proof. done. Qed.

Lemma push_status_index v b : index_ok b → index_ok (push_status v b).
Proof.
  intros H. unfold push_status. destruct (Js.defined v) eqn:Hv; [|done].
  destruct (is_resolved_or_closed v);
    [apply push_raw_index|]; by apply push_field_index.
Qed.

Lemma update_set_index data : index_ok (update_set data).
Proof.
  unfold update_set.
  repeat first [apply push_raw_index | apply push_field_index
               | apply push_status_index].
  done.
Qed.

Lemma push_field_entry_new c v b :
  index_ok b → Js.defined v = true → entry (push_field c v b) c v.
Proof.
  unfold index_ok, push_field. intros Hb ->. exists (length (set_params b)).
  simpl. split.
  - rewrite Hb. apply elem_of_app. right. apply list_elem_of_here.
  - by rewrite lookup_app_r, Nat.sub_diag.
Qed.

Lemma push_field_entry_old c' v' b c v :
  entry b c v → entry (push_field c' v' b) c v.
Proof.
  intros (i & Hin & Hi). unfold push_field. destruct (Js.defined v'); [|by exists i].
  exists i. simpl. split.
  - apply elem_of_app. by left.
  - by apply lookup_app_l_Some.
Qed.

Lemma push_raw_entry_old a b c v : entry b c v → entry (push_raw a b) c v.
Proof.
  intros (i & Hin & Hi). exists i. simpl. split; [|done].
  apply elem_of_app. by left.
Qed.

Lemma push_status_entry_new v b :
  index_ok b → Js.defined v = true → entry (push_status v b) Status v.
Proof.
  intros Hb Hv. unfold push_status. rewrite Hv.
  destruct (is_resolved_or_closed v);
    [apply push_raw_entry_old|]; by apply push_field_entry_new.
Qed.

Lemma push_status_entry_old v' b c v :
  entry b c v → entry (push_status v' b) c v.
Proof.
  intros H. unfold push_status. destruct (Js.defined v'); [|done].
  destruct (is_resolved_or_closed v');
    [apply push_raw_entry_old|]; by apply push_field_entry_old.
Qed.

Lemma update_set_entry data c v :
  (c, v) ∈ supplied_fields data → Js.defined v = true →
  entry (update_set data) c v.
Proof.
  intros Hin Hv. unfold update_set, supplied_fields in *.
  repeat (apply elem_of_cons in Hin as [[= -> ->]|Hin]);
    [..|by apply not_elem_of_nil in Hin];
    repeat first
      [ apply push_field_entry_new;
        [repeat first [apply push_field_index | apply push_status_index]; done
        |done]
      | apply push_status_entry_new;
        [repeat first [apply push_field_index | apply push_status_index]; done
        |done]
      | apply push_raw_entry_old
      | apply push_field_entry_old
      | apply push_status_entry_old ].
Qed.

Lemma resolved_or_closed_defined v :
  is_resolved_or_closed v = true → Js.defined v = true.
Proof. by destruct v. Qed.

Lemma push_field_columns c v b :
  (updateFields (push_field c v b)).*1
  = (updateFields b).*1 ++ (if Js.defined v then [c] else []).
Proof.
  unfold push_field. destruct (Js.defined v); simpl.
  - by rewrite fmap_app.
  - by rewrite app_nil_r.
Qed.

Lemma push_raw_columns a b :
  (updateFields (push_raw a b)).*1 = (updateFields b).*1 ++ [a.1].
Proof. unfold push_raw. simpl. by rewrite fmap_app. Qed.

Lemma push_status_columns v b :
  (updateFields (push_status v b)).*1
  = (updateFields b).*1 ++ (if Js.defined v then [Status] else [])
    ++ (if is_resolved_or_closed v then [ResolvedAt] else []).
Proof.
  unfold push_status.
  pose proof (resolved_or_closed_defined v) as Hres.
  destruct (Js.defined v) eqn:Hv.
  - destruct (is_resolved_or_closed v).
    + by rewrite push_raw_columns, push_field_columns, Hv, <-app_assoc.
    + by rewrite push_field_columns, Hv, app_nil_r.
  - destruct (is_resolved_or_closed v); [by specialize (Hres eq_refl)|].
    by rewrite !app_nil_r.
Qed.

(** The columns of the SET list, in the order they are pushed. *)
Lemma update_set_columns data :
  (updateFields (update_set data)).*1
  = (if Js.defined (d_title data) then [Title] else [])
    ++ (if Js.defined (d_description data) then [Description] else [])
    ++ (if Js.defined (d_status data) then [Status] else [])
    ++ (if is_resolved_or_closed (d_status data) then [ResolvedAt] else [])
    ++ (if Js.defined (d_priority data) then [Priority] else [])
    ++ (if Js.defined (d_severity data) then [Severity] else [])
    ++ (if Js.defined (d_assignedTo data) then [AssignedTo] else [])
    ++ [UpdatedAt].
Proof.
  unfold update_set.
  rewrite push_raw_columns, !push_field_columns, push_status_columns,
    !push_field_columns.
  simpl. by rewrite <-!app_assoc.
Qed.

Lemma update_set_length data :
  (length (updateFields (update_set data)) =? 1)%nat = nothing_supplied data.
Proof.
  rewrite <-(length_fmap fst), update_set_columns.
  unfold nothing_supplied, supplied_fields. simpl.
  pose proof (resolved_or_closed_defined (d_status data)) as Hres.
  destruct (Js.defined (d_title data)), (Js.defined (d_description data)),
    (Js.defined (d_status data)), (is_resolved_or_closed (d_status data)),
    (Js.defined (d_priority data)), (Js.defined (d_severity data)),
    (Js.defined (d_assignedTo data)); try reflexivity;
    by specialize (Hres eq_refl).
Qed.

Lemma update_set_may_change data c :
  c ∈ (updateFields (update_set data)).*1 → may_change data c = true.
Proof.
  rewrite update_set_columns. unfold may_change, supplied_fields. simpl.
  pose proof (resolved_or_closed_defined (d_status data)) as Hres.
  destruct (Js.defined (d_title data)), (Js.defined (d_description data)),
    (Js.defined (d_status data)), (is_resolved_or_closed (d_status data)),
    (Js.defined (d_priority data)), (Js.defined (d_severity data)),
    (Js.defined (d_assignedTo data)); try (by specialize (Hres eq_refl));
    simpl; intros Hin;
    repeat (apply elem_of_cons in Hin as [->|Hin]); try done;
    by apply not_elem_of_nil in Hin.
Qed.

Lemma update_set_resolved data :
  if is_resolved_or_closed (d_status data)
  then (ResolvedAt, NowCall) ∈ updateFields (update_set data)
  else ResolvedAt ∉ (updateFields (update_set data)).*1.
Proof.
  destruct (is_resolved_or_closed (d_status data)) eqn:Hres.
  - unfold update_set, push_status.
    rewrite (resolved_or_closed_defined _ Hres), Hres.
    repeat first
      [ apply push_raw_entry_old | idtac ].
    assert (Hmono : ∀ c v b a, a ∈ updateFields b → a ∈ updateFields (push_field c v b)).
    { intros c v b a Ha. unfold push_field. destruct (Js.defined v); [|done].
      simpl. apply elem_of_app. by left. }
    unfold push_raw at 1. simpl. apply elem_of_app. left.
    do 3 apply Hmono. unfold push_raw. simpl.
    apply elem_of_app. right. apply list_elem_of_here.
  - rewrite update_set_columns, Hres.
    destruct (Js.defined (d_title data)), (Js.defined (d_description data)),
      (Js.defined (d_status data)),
      (Js.defined (d_priority data)), (Js.defined (d_severity data)),
      (Js.defined (d_assignedTo data)); by apply (bool_decide_unpack _).
Qed.

End UpdateSetFacts.

Section UpdateFacts.
Import Store IssueModel Spec.

Lemma Forall2_elem_of_l {A B} (P : A → B → Prop) l k x :
  Forall2 P l k → x ∈ l → ∃ y, y ∈ k ∧ P x y.
Proof.
  intros HP (i & Hi)%list_elem_of_lookup_1.
  destruct (Forall2_lookup_l _ _ _ _ _ HP Hi) as (y & Hy & Hxy).
  exists y. split; [|done]. by eapply list_elem_of_lookup_2.
Qed.

(** The WHERE clause [issue_id = $n] with the id as the n-th parameter. *)
Lemma bind_where_id params id now bs :
  traverse
    (bind_cond (prepareValue <$> (params ++ [Js.Num id])) now)
    [ColEq IssueId (Placeholder (S (length params)))] = Ok bs →
  bs = [BEq IssueId (CInt id)].
Proof.
  simpl. rewrite fmap_app, lookup_app_r by (by rewrite length_fmap).
  rewrite length_fmap, Nat.sub_diag. simpl. by intros [= <-].
Qed.

Lemma resolved_at_cell r t :
  cell_of ResolvedAt r = CTime t → resolved_at r = Some t.
Proof. simpl. destruct (resolved_at r); simpl; congruence. Qed.

Lemma resolved_at_cell_eq r r' :
  cell_of ResolvedAt r' = cell_of ResolvedAt r → resolved_at r' = resolved_at r.
Proof. simpl. destruct (resolved_at r), (resolved_at r'); simpl; congruence. Qed.

(** One row under the UPDATE of [updateIssue]. *)
Lemma updateIssue_row id data now us bsets r r' :
  traverse
    (bind_assignment
       (prepareValue <$> (set_params (update_set data) ++ [Js.Num id])) now)
    (updateFields (update_set data)) = Ok bsets →
  NoDup (updateFields (update_set data)).*1 →
  update_row us now bsets [BEq IssueId (CInt id)] r = Ok r' →
  (issue_id r ≠ id → r' = r) ∧ (issue_id r = id → row_updated data now r r').
Proof.
  intros Hb Hnd Hrow.
  pose proof (traverse_bind_assignment_fst _ _ _ _ Hb) as Hfst.
  apply traverse_Forall2 in Hb.
  apply update_row_effect in Hrow; [|by rewrite Hfst].
  pose proof (where_id_holds id r) as Hwhere.
  destruct (where_holds [BEq IssueId (CInt id)] r).
  2: { split; [done|]. intros Hid. by apply Hwhere in Hid. }
  split; [intros Hne; destruct Hne; by apply Hwhere|]. intros _.
  destruct Hrow as (Hupd & Hframe & Hwritten). rewrite Hfst in Hframe.
  split; [done|]. split; [|split].
  - intros c Hc. apply Hframe.
    + intros Hin%update_set_may_change. congruence.
    + intros ->. unfold may_change in Hc.
      rewrite (bool_decide_eq_true_2 (UpdatedAt = UpdatedAt)) in Hc by done.
      by rewrite orb_true_r in Hc.
  - intros c v Hin Hv.
    destruct (update_set_entry data c v Hin Hv) as (i & Hentry & Hi).
    destruct (Forall2_elem_of_l _ _ _ _ Hb Hentry) as (b & Hbin & Hbind).
    eapply bind_assignment_placeholder in Hbind as (x & -> & Hx).
    2: { rewrite list_lookup_fmap, (lookup_app_l_Some _ _ _ _ Hi). done. }
    rewrite Hx. f_equal. symmetry. apply (Hwritten c x Hbin).
    unfold supplied_fields in Hin.
    repeat (apply elem_of_cons in Hin as [[= -> _]|Hin]); try done.
    by apply not_elem_of_nil in Hin.
  - pose proof (update_set_resolved data) as Hres.
    destruct (is_resolved_or_closed (d_status data)).
    + destruct (Forall2_elem_of_l _ _ _ _ Hb Hres) as (b & Hbin & Hbind).
      injection Hbind as <-. apply resolved_at_cell.
      by apply (Hwritten ResolvedAt (CTime now) Hbin).
    + apply resolved_at_cell_eq. by apply Hframe.
Qed.

End UpdateFacts.

(** C4: a partial update writes nothing when no field is supplied: it
    answers 0 affected rows and the store, journal included, is as before.
    Otherwise it sends one UPDATE; rows with another id are untouched, and in
    a row with the id the supplied fields hold the supplied values,
    [updated_at] is the time of the write, [resolved_at] is that time when
    the supplied status is Resolved or Closed and unchanged otherwise, and
    every other column, in particular the fields left undefined, [issue_id],
    [created_by] and [created_at], is as before. *)
Theorem partial_update_frame (id : Z) (data : IssueModel.issue_data)
    (now : Z) (d : Store.db) :
  (Spec.nothing_supplied data = true →
   IssueModel.updateIssue id data now d = (Ok 0, d))
  ∧ (Spec.nothing_supplied data = false →
     ∀ n d', IssueModel.updateIssue id data now d = (Ok n, d') →
       Store.journal d' = Store.journal d ++ [Store.UPDATE]
       ∧ Store.users d' = Store.users d
       ∧ n = Z.of_nat (length (filter (λ r, Store.issue_id r = id)
                                 (Store.issues d)))
       ∧ Forall2 (λ r r',
            (Store.issue_id r ≠ id → r' = r)
            ∧ (Store.issue_id r = id → Spec.row_updated data now r r'))
           (Store.issues d) (Store.issues d')).
Proof.
  unfold IssueModel.updateIssue. rewrite update_set_length. split.
  - by intros ->.
  - intros -> n d'. unfold Store.bind.
    destruct (Store.query_update _ _ _ _ d) as [[ids|] d1] eqn:Hq; [|done].
    intros [= <- <-].
    apply query_update_ok in Hq
      as (bsets & bs & Hb & Hw & Hnd & Hrows & -> & Hu & _ & _ & Hj).
    rewrite update_set_index in Hw. apply bind_where_id in Hw as ->.
    split; [done|]. split; [done|]. split.
    + by rewrite length_fmap, filter_where_id.
    + eapply Forall2_impl; [exact Hrows|]. intros r r' Hrow.
      by apply (updateIssue_row id data now (Store.users d) bsets).
Qed.

Lemma partial_update_frame_witness :
  IssueModel.updateIssue 2
    {| IssueModel.d_title := Js.Undefined;
       IssueModel.d_description := Js.Undefined;
       IssueModel.d_status := Js.Undefined;
       IssueModel.d_priority := Js.Undefined;
       IssueModel.d_severity := Js.Undefined;
       IssueModel.d_createdBy := Js.Undefined;
       IssueModel.d_assignedTo := Js.Undefined |} 300 Samples.db0
  = (Ok 0, Samples.db0)
  ∧ ∃ d', IssueModel.updateIssue 2
            (Spec.update_data {[ "priority" := Js.Str "High" ]}) 300
            Samples.db0
          = (Ok 1, d')
          ∧ Forall2 (λ r r',
               (Store.issue_id r ≠ 2 → r' = r)
               ∧ (Store.issue_id r = 2 →
                  Spec.row_updated
                    (Spec.update_data {[ "priority" := Js.Str "High" ]}) 300
                    r r'))
              (Store.issues Samples.db0) (Store.issues d').
Proof.
  split.
  - by apply (proj1 (partial_update_frame 2 _ 300 Samples.db0)).
  - eexists. split; [vm_compute; reflexivity|].
    refine (proj2 (proj2 (proj2 (proj2 (partial_update_frame 2
                    (Spec.update_data {[ "priority" := Js.Str "High" ]})
                    300 Samples.db0) _ 1 _ _))));
      vm_compute; reflexivity.
Defined.

(** C1 (failing input): a full update that reopens a resolved issue writes
    the new status and keeps the old [resolved_at], whereas the status-only
    update of the same issue to the same status clears it. *)
Theorem updateIssue_reopen_keeps_resolved_at :
  (∃ d' r',
     IssueModel.updateIssue 1 (Spec.update_data {[ "status" := Js.Str "Open" ]})
       300 Samples.db0 = (Ok 1, d')
     ∧ Store.issues d' !! 0%nat = Some r'
     ∧ Store.status r' = Some Store.Open
     ∧ Store.resolved_at r' = Some 260)
  ∧ (∃ d' r',
       IssueModel.updateStatus 1 (Js.Str "Open") 300 Samples.db0 = (Ok 1, d')
       ∧ Store.issues d' !! 0%nat = Some r'
       ∧ Store.status r' = Some Store.Open
       ∧ Store.resolved_at r' = None)
  ∧ (∃ j d',
       IssueController.updateIssue
         (Samples.as_ann 1 {[ "status" := Js.Str "Open" ]}) 300 Samples.db0
       = (IssueController.successResponse (Some j) "Issue updated successfully",
          d')
       ∧ IssueController.r_status j = Some Store.Open
       ∧ IssueController.resolvedAt j = Some 260).
Proof.
  split; [|split].
  - eexists _, _. split; [vm_compute; reflexivity|]. by split.
  - eexists _, _. split; [vm_compute; reflexivity|]. by split.
  - eexists _, _. split; [vm_compute; reflexivity|]. by split.
Qed.

(* ===================================================================== *)
(** * Properties of the ordering *)
(* ===================================================================== *)

Section OrderFacts.
Import Store IssueModel Spec.

Lemma key_le_total a b : key_le a b = true ∨ key_le b a = true.
Proof.
  destruct a as [[k1 n1] s1], b as [[k2 n2] s2]. unfold key_le.
  rewrite !orb_true_iff, !andb_true_iff, !orb_true_iff, !andb_true_iff,
    !Z.ltb_lt, !Z.eqb_eq.
  destruct (String.leb_total s1 s2) as [->| ->]; lia.
Qed.

Lemma key_le_trans a b c :
  key_le a b = true → key_le b c = true → key_le a c = true.
Proof.
  destruct a as [[k1 n1] s1], b as [[k2 n2] s2], c as [[k3 n3] s3].
  unfold key_le.
  rewrite !orb_true_iff, !andb_true_iff, !orb_true_iff, !andb_true_iff,
    !Z.ltb_lt, !Z.eqb_eq.
  intros [?|[? [?|[? H12]]]] [?|[? [?|[? H23]]]]; try lia.
  right. split; [lia|]. right. split; [lia|].
  apply Is_true_true. transitivity s2; by apply Is_true_true.
Qed.

#[local] Instance order_rel_total c dir : Total (order_rel c dir).
Proof. intros a b. unfold order_rel. destruct dir; apply key_le_total. Qed.

#[local] Instance order_rel_trans c dir : Transitive (order_rel c dir).
Proof.
  intros x y z. unfold order_rel. destruct dir; intros H1 H2.
  - by apply (key_le_trans _ _ _ H1).
  - by apply (key_le_trans _ _ _ H2).
Qed.

Lemma StronglySorted_sublist {A} (R : relation A) l k :
  k `sublist_of` l → StronglySorted R l → StronglySorted R k.
Proof.
  induction 1 as [|x k l Hsub IH|x k l Hsub IH]; intros Hs; [done|..].
  - apply StronglySorted_inv in Hs as [Hs Hall]. constructor; [by apply IH|].
    apply Forall_forall. intros y Hy.
    eapply Forall_forall; [exact Hall|]. by eapply elem_of_sublist.
  - apply StronglySorted_inv in Hs as [Hs _]. by apply IH.
Qed.

(** The rows a listing returns are in the order asked of the store. *)
Lemma query_issues_sorted where_ name dir limit offset params now d rows d' c :
  query_issues where_ (Some (name, dir)) limit offset params now d
  = (Ok rows, d') →
  column_of_name name = Some c →
  StronglySorted (order_rel c dir) rows.
Proof.
  unfold query_issues, prepared. intros H Hc. rewrite Hc in H.
  destruct (arity_ok _ _); [|done].
  destruct (traverse _ where_) as [bs|]; [|done]. simpl in H.
  destruct (row_count _ _ limit) as [lim|]; [|done]. simpl in H.
  destruct (row_count _ _ offset) as [off|]; [|done]. simpl in H.
  injection H as <- <-.
  assert (Hs : StronglySorted (order_rel c dir)
                 (drop (default 0%nat off)
                    (merge_sort (order_rel c dir)
                       (filter (λ r, where_holds bs r) (issues d)
                        ≫= join_users (users d))))).
  { eapply StronglySorted_sublist; [apply sublist_drop|].
    apply StronglySorted_merge_sort; apply _. }
  destruct lim as [n|]; simpl; [|done].
  eapply StronglySorted_sublist; [apply sublist_take|done].
Qed.

Lemma upper_lower_a c :
  Ascii.eqb (Js.upper_char c) "A" = Ascii.eqb (Js.lower_char c) "a".
Proof. by destruct c as [[] [] [] [] [] [] [] []]. Qed.

Lemma upper_lower_s c :
  Ascii.eqb (Js.upper_char c) "S" = Ascii.eqb (Js.lower_char c) "s".
Proof. by destruct c as [[] [] [] [] [] [] [] []]. Qed.

Lemma upper_lower_c c :
  Ascii.eqb (Js.upper_char c) "C" = Ascii.eqb (Js.lower_char c) "c".
Proof. by destruct c as [[] [] [] [] [] [] [] []]. Qed.

(** [s.toUpperCase() === 'ASC'] holds exactly when [s] reads [asc] up to
    the case of its letters. *)
Lemma upper_is_ASC s :
  String.eqb (Js.toUpperCase s) "ASC" = String.eqb (Js.toLowerCase s) "asc".
Proof.
  destruct s as [|c1 [|c2 [|c3 [|c4 s]]]]; simpl;
    rewrite ?upper_lower_a, ?upper_lower_s, ?upper_lower_c; reflexivity.
Qed.

Lemma safeSortOrder_direction v :
  text_or_absent v →
  safeSortOrder (Js.or_default (Js.Str "DESC") v) = Ok (requested_direction v).
Proof.
  intros [->|[s ->]]; [done|]. simpl. by rewrite upper_is_ASC.
Qed.

Lemma includes_allow_list v :
  Js.includes validSortFields v = true
  ↔ ∃ s, v = Js.Str s ∧ s ∈ sort_allow_list.
Proof.
  unfold Js.includes, validSortFields, sort_allow_list.
  destruct v as [| |s|n]; try (split; [done|by intros (s & ? & _)]).
  rewrite existsb_exists. split.
  - intros (x & Hx%list_elem_of_In & ->%String.eqb_eq). by exists x.
  - intros (s' & [= <-] & Hs). exists s.
    split; [by apply list_elem_of_In|apply String.eqb_refl].
Qed.

Lemma safeSortBy_column v :
  column_of_name (Js.template (safeSortBy v)) = Some (requested_column v).
Proof.
  unfold safeSortBy.
  destruct (Js.includes validSortFields v) eqn:Hinc.
  - apply includes_allow_list in Hinc as (s & -> & Hs). simpl.
    rewrite bool_decide_eq_true_2 by done. unfold sort_allow_list in Hs.
    repeat (apply elem_of_cons in Hs as [->|Hs]); try done.
    by apply not_elem_of_nil in Hs.
  - destruct v as [| |s|n]; try done. simpl.
    rewrite bool_decide_eq_false_2; [done|]. intros Hs.
    assert (Js.includes validSortFields (Js.Str s) = true) as Hin
      by (apply includes_allow_list; by exists s).
    congruence.
Qed.

Lemma safeSortBy_default v :
  safeSortBy (Js.or_default (Js.Str "created_at") v)
  = (if Js.includes validSortFields v then v else Js.Str "created_at").
Proof. by destruct v. Qed.

End OrderFacts.

(* ===================================================================== *)
(** * The WHERE clause of [getAllIssues] *)
(* ===================================================================== *)

Section WhereFacts.
Import Store IssueModel Spec.

Lemma traverse_app_eq {A B} (f : A → result B) l1 l2 :
  traverse f (l1 ++ l2)
  = match traverse f l1 with
    | Ok bs1 =>
        match traverse f l2 with
        | Ok bs2 => Ok (bs1 ++ bs2)
        | Throw e => Throw e
        end
    | Throw e => Throw e
    end.
Proof.
  induction l1 as [|x l1 IH]; simpl.
  - by destruct (traverse f l2).
  - destruct (f x) as [y|]; [|done]. rewrite IH.
    destruct (traverse f l1); [|done]. by destruct (traverse f l2).
Qed.

Lemma traverse_app {A B} (f : A → result B) l1 l2 bs :
  traverse f (l1 ++ l2) = Ok bs ↔
  ∃ bs1 bs2, traverse f l1 = Ok bs1 ∧ traverse f l2 = Ok bs2 ∧ bs = bs1 ++ bs2.
Proof.
  rewrite traverse_app_eq. split.
  - destruct (traverse f l1) as [bs1|]; [|done].
    destruct (traverse f l2) as [bs2|]; [|done].
    intros [= <-]. by exists bs1, bs2.
  - by intros (bs1 & bs2 & -> & -> & ->).
Qed.

Lemma where_holds_app bs1 bs2 r :
  where_holds (bs1 ++ bs2) r = where_holds bs1 r && where_holds bs2 r.
Proof. apply forallb_app. Qed.

Lemma eval_placeholder_next ps v extra now :
  eval_expr (prepareValue <$> (ps ++ v :: extra)) now
    (Placeholder (S (length ps)))
  = Ok (prepareValue v).
Proof.
  simpl. rewrite list_lookup_fmap, lookup_app_r, Nat.sub_diag by done. done.
Qed.

Lemma coerce_not_null c v x :
  Js.truthy v = true → coerce c (prepareValue v) = Ok x → x ≠ CNull.
Proof.
  destruct v as [| |s|n]; try done; intros _; destruct c; simpl;
    unfold title_cell;
    try destruct (int_of_text s); try destruct (varchar _ _ _);
    try destruct (status_of_label s); try destruct (priority_of_label s);
    try destruct (severity_of_label s);
    simpl; intros H; try discriminate H; by injection H as <-.
Qed.

Lemma cond_holds_eq c x r :
  x ≠ CNull → cond_holds r (BEq c x) = bool_decide (Ok x = Ok (cell_of c r)).
Proof.
  intros Hx. destruct x; try done; simpl;
    apply bool_decide_ext; split; congruence.
Qed.

Lemma where_start_ok : where_index_ok where_start.
Proof. done. Qed.

Lemma where_start_denotes : where_denotes where_start (λ _, true).
Proof. intros extra now bs [= <-] r. done. Qed.

Lemma where_start_binds : where_binds where_start.
Proof. intros extra now. by eexists. Qed.

Lemma push_equals_ok c v b :
  where_index_ok b → where_index_ok (push_equals c v b).
Proof.
  intros [Hi Hp]. unfold push_equals. destruct (Js.truthy v); [|done].
  split; simpl.
  - rewrite length_app. simpl. lia.
  - rewrite bind_app, Hp, Hi, length_app. simpl.
    by rewrite Nat.add_1_r, seq_S.
Qed.

Lemma push_search_ok v b :
  where_index_ok b → where_index_ok (push_search v b).
Proof.
  intros [Hi Hp]. unfold push_search. destruct (Js.truthy v); [|done].
  split; simpl.
  - rewrite length_app. simpl. lia.
  - rewrite bind_app, Hp, Hi, length_app. simpl.
    by rewrite Nat.add_1_r, seq_S.
Qed.

Lemma push_equals_denotes c v b f :
  where_index_ok b → where_denotes b f →
  where_denotes (push_equals c v b) (λ r, f r && eq_filter c v r).
Proof.
  intros [Hi _] Hf. unfold push_equals, eq_filter.
  destruct (Js.truthy v) eqn:Hv.
  2: { intros extra now bs H r. rewrite (Hf extra now bs H). simpl.
       by rewrite andb_true_r. }
  intros extra now bs. simpl. rewrite <-app_assoc. simpl.
  intros (bs1 & bs2 & H1 & H2 & ->)%traverse_app r.
  rewrite where_holds_app, (Hf _ _ _ H1). f_equal.
  simpl in H2. rewrite Hi in H2.
  pose proof (eval_placeholder_next (params b) v extra now) as He.
  simpl in He. rewrite He in H2. simpl in H2.
  destruct (coerce c (prepareValue v)) as [x|] eqn:Hx; [|done].
  injection H2 as <-. unfold where_holds. simpl forallb.
  rewrite andb_true_r. apply cond_holds_eq. by eapply coerce_not_null.
Qed.

Lemma push_search_denotes v b f :
  where_index_ok b → where_denotes b f →
  where_denotes (push_search v b) (λ r, f r && search_filter v r).
Proof.
  intros [Hi _] Hf. unfold push_search, search_filter.
  destruct (Js.truthy v) eqn:Hv.
  2: { intros extra now bs H r. rewrite (Hf extra now bs H). simpl.
       by rewrite andb_true_r. }
  intros extra now bs. simpl. rewrite <-app_assoc. simpl.
  intros (bs1 & bs2 & H1 & H2 & ->)%traverse_app r.
  rewrite where_holds_app, (Hf _ _ _ H1). f_equal.
  simpl in H2. rewrite Hi in H2.
  pose proof (eval_placeholder_next (params b)
                (Js.Str ("%" +:+ Js.template v +:+ "%")) extra now) as He.
  simpl in He. rewrite He in H2. injection H2 as <-.
  unfold where_holds. simpl. by rewrite andb_true_r.
Qed.

Lemma push_equals_binds c v b :
  where_index_ok b → readable c v → where_binds b →
  where_binds (push_equals c v b).
Proof.
  intros [Hi _] Hr Hb. unfold push_equals.
  destruct (Js.truthy v) eqn:Hv; [|done].
  destruct (Hr Hv) as (x & Hx & _).
  intros extra now. simpl. rewrite <-app_assoc. simpl.
  destruct (Hb (v :: extra) now) as [bs1 H1].
  exists (bs1 ++ [BEq c x]). apply traverse_app. exists bs1, [BEq c x].
  split; [done|]. split; [|done].
  simpl. rewrite Hi.
  pose proof (eval_placeholder_next (params b) v extra now) as He.
  simpl in He. rewrite He. simpl. by rewrite Hx.
Qed.

Lemma push_search_binds v b :
  where_index_ok b → where_binds b → where_binds (push_search v b).
Proof.
  intros [Hi _] Hb. unfold push_search.
  destruct (Js.truthy v) eqn:Hv; [|done].
  intros extra now. simpl. rewrite <-app_assoc. simpl.
  destruct (Hb (Js.Str ("%" +:+ Js.template v +:+ "%") :: extra) now)
    as [bs1 H1].
  eexists. apply traverse_app. exists bs1. eexists.
  split; [done|]. split; [|done].
  simpl. rewrite Hi.
  pose proof (eval_placeholder_next (params b)
                (Js.Str ("%" +:+ Js.template v +:+ "%")) extra now) as He.
  simpl in He. by rewrite He.
Qed.

Lemma list_where_steps o :
  where_index_ok (list_where o)
  ∧ where_denotes (list_where o) (selects o)
  ∧ (readable_filters o → where_binds (list_where o)).
Proof.
  pose proof (push_equals_ok Status (o_status o) _ where_start_ok) as K1.
  pose proof (push_equals_ok Priority (o_priority o) _ K1) as K2.
  pose proof (push_equals_ok Severity (o_severity o) _ K2) as K3.
  pose proof (push_equals_ok CreatedBy (createdBy o) _ K3) as K4.
  pose proof (push_search_ok (search o) _ K4) as K5.
  pose proof (push_equals_denotes Status (o_status o) _ _
                where_start_ok where_start_denotes) as D1.
  pose proof (push_equals_denotes Priority (o_priority o) _ _ K1 D1) as D2.
  pose proof (push_equals_denotes Severity (o_severity o) _ _ K2 D2) as D3.
  pose proof (push_equals_denotes CreatedBy (createdBy o) _ _ K3 D3) as D4.
  pose proof (push_search_denotes (search o) _ _ K4 D4) as D5.
  split; [exact K5|]. split.
  - intros extra now bs H r. by rewrite (D5 extra now bs H r).
  - intros (Hs & Hp & Hv & Hc).
    pose proof (push_equals_binds Status (o_status o) _
                  where_start_ok Hs where_start_binds) as B1.
    pose proof (push_equals_binds Priority (o_priority o) _ K1 Hp B1) as B2.
    pose proof (push_equals_binds Severity (o_severity o) _ K2 Hv B2) as B3.
    pose proof (push_equals_binds CreatedBy (createdBy o) _ K3 Hc B3) as B4.
    exact (push_search_binds (search o) _ K4 B4).
Qed.

Lemma list_where_ok o : where_index_ok (list_where o).
Proof. apply list_where_steps. Qed.

Lemma list_where_denotes o : where_denotes (list_where o) (selects o).
Proof. apply list_where_steps. Qed.


End WhereFacts.

(* ===================================================================== *)
(** * Properties of the listing *)
(* ===================================================================== *)

Section ListingFacts.
Import Store IssueModel Spec.



(** What a listing that returned has run. *)
Lemma getAllIssues_ok o now d res d' :
  getAllIssues o now d = (Ok res, d') →
  ∃ dir d1,
    safeSortOrder (Js.or_default (Js.Str "DESC") (sortOrder o)) = Ok dir
    ∧ query_count (conditions (list_where o)) (params (list_where o)) now d
      = (Ok (total res), d1)
    ∧ query_issues (conditions (list_where o))
        (Some (Js.template
                 (safeSortBy (Js.or_default (Js.Str "created_at") (sortBy o))),
               dir))
        (Some (Placeholder (paramIndex (list_where o))))
        (Some (Placeholder (S (paramIndex (list_where o)))))
        (params (list_where o)
         ++ [Js.Num (default 10 (limit o));
             Js.Num ((default 1 (page o) - 1) * default 10 (limit o))])
        now d1
      = (Ok (r_issues res), d')
    ∧ totalPages res = Js.ceil_div (total res) (default 10 (limit o))
    ∧ currentPage res = default 1 (page o)
    ∧ perPage res = default 10 (limit o).
Proof.
  unfold getAllIssues. cbv zeta.
  destruct (safeSortOrder _) as [dir|] eqn:Hdir; [|done].
  unfold bind.
  destruct (query_count _ _ now d) as [[t|] d1] eqn:Hc; [|done].
  destruct (query_issues _ _ _ _ _ now d1) as [[rows|] d2] eqn:Hq; [|done].
  intros [= <- <-]. by exists dir, d1.
Qed.

(** The count query of a listing counts the rows the filters select. *)
Lemma list_count o now d t d1 :
  query_count (conditions (list_where o)) (params (list_where o)) now d
  = (Ok t, d1) →
  t = Z.of_nat (length (filter (λ r, selects o r) (issues d))).
Proof.
  unfold query_count, prepared. destruct (arity_ok _ _); [|done].
  destruct (traverse _ _) as [bs|] eqn:Hbs; [|done]. simpl.
  intros [= <- _]. f_equal. f_equal.
  apply list_filter_iff. intros r.
  rewrite <-(app_nil_r (params (list_where o))) in Hbs.
  by rewrite (list_where_denotes o _ _ _ Hbs r).
Qed.



Lemma count_of_inv n x :
  count_of n = Ok x → 0 ≤ n ≤ 9223372036854775807 ∧ x = Some (Z.to_nat n).
Proof.
  unfold count_of.
  destruct (Z.ltb_spec n (-9223372036854775808)); [done|].
  destruct (Z.ltb_spec 9223372036854775807 n); [done|].
  destruct (Z.ltb_spec n 0); [done|]. intros [= <-]. split; [lia|done].
Qed.




End ListingFacts.

(** C6: a listing whose sort order is left out or a text of ASCII
    characters is sorted in the direction asked for, ascending exactly when
    the order reads [asc] whatever the case of its letters and descending
    otherwise; and by the column asked for when it is on the allow-list and
    by [created_at] otherwise: with a [sortBy] that is not on the list the
    listing is the very listing sorted by [created_at], the column so
    chosen always names a column of the store, and the rows a listing
    returns are in that order.  A sort order that is null or a number makes
    the listing throw a [TypeError] before any statement is sent. *)
Theorem sort_by_allow_list (o : IssueModel.list_options) (now : Z)
    (d : Store.db) :
  (Spec.ascii_or_absent (IssueModel.sortOrder o) →
   IssueModel.safeSortOrder
     (Js.or_default (Js.Str "DESC") (IssueModel.sortOrder o))
   = Ok (Spec.requested_direction (IssueModel.sortOrder o))
   ∧ Store.column_of_name
       (Js.template
          (IssueModel.safeSortBy
             (Js.or_default (Js.Str "created_at") (IssueModel.sortBy o))))
     = Some (Spec.requested_column (IssueModel.sortBy o))
   ∧ (Js.includes IssueModel.validSortFields (IssueModel.sortBy o) = false →
      Spec.requested_column (IssueModel.sortBy o) = Store.CreatedAt
      ∧ IssueModel.getAllIssues o now d
        = IssueModel.getAllIssues (Spec.with_sortBy (Js.Str "created_at") o)
            now d)
   ∧ (∀ res d',
        IssueModel.getAllIssues o now d = (Ok res, d') →
        StronglySorted
          (Store.order_rel (Spec.requested_column (IssueModel.sortBy o))
             (Spec.requested_direction (IssueModel.sortOrder o)))
          (IssueModel.r_issues res)))
  ∧ (IssueModel.sortOrder o = Js.Null
     ∨ (∃ n, IssueModel.sortOrder o = Js.Num n) →
     ∃ msg,
       IssueModel.getAllIssues o now d = (Throw (TypeError msg), d)).
Proof.
  split.
  - intros Hascii.
    assert (Hord : Spec.text_or_absent (IssueModel.sortOrder o)).
    { destruct Hascii as [?|(s & ? & _)]; [by left|right; by exists s]. }
    assert (Hcol : Store.column_of_name
              (Js.template
                 (IssueModel.safeSortBy
                    (Js.or_default (Js.Str "created_at") (IssueModel.sortBy o))))
            = Some (Spec.requested_column (IssueModel.sortBy o))).
    { destruct (IssueModel.sortBy o) eqn:Hs; try apply safeSortBy_column.
      done. }
    split; [by apply safeSortOrder_direction|]. split; [done|]. split.
    + intros Hinc. split.
      * rewrite safeSortBy_default, Hinc in Hcol. by injection Hcol.
      * unfold IssueModel.getAllIssues. cbv zeta.
        rewrite !safeSortBy_default, Hinc. done.
    + intros res d' (dir & d1 & Hdir & _ & Hq & _)%getAllIssues_ok.
      rewrite (safeSortOrder_direction _ Hord) in Hdir. injection Hdir as <-.
      by apply (query_issues_sorted _ _ _ _ _ _ _ _ _ _ _ Hq).
  - intros [Hnull|[n Hnum]]; unfold IssueModel.getAllIssues; cbv zeta.
    + rewrite Hnull. by eexists.
    + rewrite Hnum. by eexists.
Qed.

Lemma sort_by_allow_list_witness :
  IssueModel.getAllIssues
    (Samples.listing 1 10 (Js.Str "bogus; DROP TABLE issues") (Js.Str "AsC"))
    300 Samples.db0
  = IssueModel.getAllIssues
      (Samples.listing 1 10 (Js.Str "created_at") (Js.Str "AsC")) 300
      Samples.db0
  ∧ ∃ res d',
      IssueModel.getAllIssues
        (Samples.listing 1 10 (Js.Str "bogus; DROP TABLE issues")
           (Js.Str "AsC")) 300 Samples.db0 = (Ok res, d')
      ∧ Store.issue_id ∘ Store.issue <$> IssueModel.r_issues res = [1; 2]
      ∧ StronglySorted (Store.order_rel Store.CreatedAt Store.ASC)
          (IssueModel.r_issues res).
Proof.
  pose proof (proj1 (sort_by_allow_list
                (Samples.listing 1 10 (Js.Str "bogus; DROP TABLE issues")
                   (Js.Str "AsC")) 300 Samples.db0)
                ltac:(right; by eexists))
    as (_ & _ & Hfallback & Hsorted).
  split; [by apply Hfallback|].
  eexists _, _. split; [vm_compute; reflexivity|]. split; [done|].
  eapply Hsorted. vm_compute. reflexivity.
Defined.

(** C6, as the claim has it, fails where the sort order is not text: for a
    null sort order the listing is not sorted in descending order, it
    throws. *)
Lemma sort_by_allow_list_counterexample :
  IssueModel.getAllIssues (Samples.listing 1 10 Js.Undefined Js.Null) 300
    Samples.db0
  = (Throw (TypeError "sortOrder.toUpperCase is not a function"), Samples.db0).
Proof. reflexivity. Qed.

(* ===================================================================== *)
(** * Further properties of the issue model *)
(* ===================================================================== *)

Section StatusFacts.
Import Store IssueModel Spec.

Lemma resolved_at_cell_null r :
  cell_of ResolvedAt r = CNull → resolved_at r = None.
Proof. simpl. by destruct (resolved_at r). Qed.

(** One row under the UPDATE of [updateStatus]. *)
Lemma updateStatus_row id status now us sets bsets r r' :
  sets = (if is_resolved_or_closed status
          then [(Status, Placeholder 1); (ResolvedAt, NowCall);
                (UpdatedAt, NowCall)]
          else [(Status, Placeholder 1); (ResolvedAt, NullLit);
                (UpdatedAt, NowCall)]) →
  traverse (bind_assignment (prepareValue <$> [status; Js.Num id]) now) sets
  = Ok bsets →
  update_row us now bsets [BEq IssueId (CInt id)] r = Ok r' →
  (issue_id r ≠ id → r' = r) ∧ (issue_id r = id → status_updated status now r r').
Proof.
  intros -> Hb Hrow.
  assert (∃ x, coerce Status (prepareValue status) = Ok x
               ∧ bsets = [(Status, x);
                          (ResolvedAt, if is_resolved_or_closed status
                                       then CTime now else CNull);
                          (UpdatedAt, CTime now)]) as (x & Hx & ->).
  { destruct (is_resolved_or_closed status); simpl in Hb;
      unfold bind_assignment in Hb; simpl in Hb;
      destruct (coerce Status (prepareValue status)) as [x|]; try done;
      simpl in Hb; injection Hb as <-; by exists x. }
  apply update_row_effect in Hrow; [|by apply (bool_decide_unpack _)].
  pose proof (where_id_holds id r) as Hwhere.
  destruct (where_holds [BEq IssueId (CInt id)] r).
  2: { split; [done|]. intros Hid. by apply Hwhere in Hid. }
  split; [intros Hne; destruct Hne; by apply Hwhere|]. intros _.
  destruct Hrow as (Hupd & Hframe & Hwritten).
  split; [|split; [done|split]].
  - rewrite Hx. f_equal. symmetry. apply Hwritten; [|done].
    apply list_elem_of_here.
  - assert (cell_of ResolvedAt r'
            = (if is_resolved_or_closed status then CTime now else CNull))
      as Hres.
    { apply Hwritten; [|done].
      apply list_elem_of_further, list_elem_of_here. }
    destruct (is_resolved_or_closed status).
    + by apply resolved_at_cell.
    + by apply resolved_at_cell_null.
  - intros c H1 H2 H3. apply Hframe; [|done]. simpl.
    intros Hin. repeat (apply elem_of_cons in Hin as [->|Hin]); try done.
    by apply not_elem_of_nil in Hin.
Qed.

End StatusFacts.

(** X1: a status-only update that the store takes sends one UPDATE, leaves
    the rows with another id and the users as they were, and in every row
    with the id writes the new status, sets [updated_at] to the time of the
    write and sets [resolved_at] to that time when the status is Resolved or
    Closed and to NULL otherwise; no other column of the row changes. *)
Theorem updateStatus_stamps_or_clears (id : Z) (status : Js.value) (now : Z)
    (d : Store.db) (n : Z) (d' : Store.db) :
  IssueModel.updateStatus id status now d = (Ok n, d') →
  Store.journal d' = Store.journal d ++ [Store.UPDATE]
  ∧ Store.users d' = Store.users d
  ∧ n = Z.of_nat (length (filter (λ r, Store.issue_id r = id) (Store.issues d)))
  ∧ Forall2 (λ r r',
       (Store.issue_id r ≠ id → r' = r)
       ∧ (Store.issue_id r = id → Spec.status_updated status now r r'))
      (Store.issues d) (Store.issues d').
Proof.
  unfold IssueModel.updateStatus, Store.bind.
  destruct (Store.query_update _ _ _ _ d) as [[ids|] d1] eqn:Hq; [|done].
  intros [= <- <-].
  apply query_update_ok in Hq
    as (bsets & bs & Hb & Hw & Hnd & Hrows & -> & Hu & _ & _ & Hj).
  apply (bind_where_id [status] id now bs) in Hw as ->.
  split; [done|]. split; [done|]. split.
  - by rewrite length_fmap, filter_where_id.
  - eapply Forall2_impl; [exact Hrows|]. intros r r' Hrow.
    exact (updateStatus_row id status now (Store.users d) _ bsets r r'
             eq_refl Hb Hrow).
Qed.

Lemma updateStatus_stamps_or_clears_witness :
  ∃ d', IssueModel.updateStatus 1 (Js.Str "In Progress") 300 Samples.db0
        = (Ok 1, d')
        ∧ Forall2 (λ r r',
             (Store.issue_id r ≠ 1 → r' = r)
             ∧ (Store.issue_id r = 1 →
                Spec.status_updated (Js.Str "In Progress") 300 r r'))
            (Store.issues Samples.db0) (Store.issues d').
Proof.
  eexists. split; [vm_compute; reflexivity|].
  refine (proj2 (proj2 (proj2 (updateStatus_stamps_or_clears 1
            (Js.Str "In Progress") 300 Samples.db0 1 _ _)))).
  vm_compute. reflexivity.
Defined.

Section DeleteFacts.
Import Store IssueModel Spec.

Lemma deleteIssue_eq id now d :
  deleteIssue id now d
  = (Ok (Z.of_nat (length (filter (λ r, issue_id r = id) (issues d)))),
     with_issues (filter (λ r, issue_id r ≠ id) (issues d)) (received DELETE d)).
Proof.
  transitivity
    (Ok (Z.of_nat (length (issue_id <$>
           filter (λ r, where_holds [BEq IssueId (CInt id)] r) (issues d)))),
     with_issues
       (filter (λ r, negb (where_holds [BEq IssueId (CInt id)] r)) (issues d))
       (received DELETE d)); [reflexivity|].
  rewrite length_fmap, filter_where_id. do 2 f_equal.
  apply list_filter_iff. intros r.
  rewrite negb_True, where_id_holds. done.
Qed.

Lemma filter_other_id id id' (rows : list issue_row) :
  id' ≠ id →
  filter (λ r, issue_id r = id') (filter (λ r, issue_id r ≠ id) rows)
  = filter (λ r, issue_id r = id') rows.
Proof.
  intros Hne. rewrite list_filter_filter. apply list_filter_iff.
  intros r. split; [by intros [? _]|]. intros Hr. split; [done|]. congruence.
Qed.

End DeleteFacts.

(** X2: [deleteIssue] with an id in the range of the [issue_id] column
    does not throw; it sends one DELETE, removes exactly
    the rows with the id, keeps the other rows in their order and the users
    as they were, and answers with the number of rows removed; afterwards
    [getIssueById] answers null for that id and what it answered before for
    every other id in that range.  On an id that names a row the delete
    handler answers
    with the success response and the id names no row any more. *)
Theorem delete_removes_the_issue (req : Middleware.request) (now : Z)
    (d : Store.db) :
  Spec.int4 (Middleware.params_id req) →
  (∃ d',
     IssueModel.deleteIssue (Middleware.params_id req) now d
     = (Ok (Z.of_nat (length (filter
                (λ r, Store.issue_id r = Middleware.params_id req)
                (Store.issues d)))), d')
     ∧ Store.issues d'
       = filter (λ r, Store.issue_id r ≠ Middleware.params_id req)
           (Store.issues d)
     ∧ Store.users d' = Store.users d
     ∧ Store.journal d' = Store.journal d ++ [Store.DELETE]
     ∧ (IssueModel.getIssueById (Middleware.params_id req) now d').1 = Ok None
     ∧ (∀ id', Spec.int4 id' → id' ≠ Middleware.params_id req →
          (IssueModel.getIssueById id' now d').1
          = (IssueModel.getIssueById id' now d).1))
  ∧ (Spec.present (Middleware.params_id req) d →
     ∃ d',
       IssueController.deleteIssue req now d
       = (IssueController.successResponse None "Issue deleted successfully", d')
       ∧ ¬ Spec.present (Middleware.params_id req) d'
       ∧ Store.issues d'
         = filter (λ r, Store.issue_id r ≠ Middleware.params_id req)
             (Store.issues d)).
Proof.
  intros _. split.
  - eexists. split; [apply deleteIssue_eq|].
    split; [done|]. split; [done|]. split; [done|]. split.
    + rewrite getIssueById_absent; [done|]. simpl.
      by intros r [? _]%list_elem_of_filter.
    + intros id' _ Hne. rewrite !getIssueById_eq. simpl.
      by rewrite filter_other_id.
  - intros Hp.
    destruct (getIssueById_present (Middleware.params_id req) now d)
      as (j0 & Hget0 & _); [by apply present_ids|].
    eexists. split; [|split].
    + unfold IssueController.deleteIssue, IssueController.try_catch, Store.bind.
      cbv zeta. rewrite Hget0, deleteIssue_eq. reflexivity.
    + simpl. intros (r & [? _]%list_elem_of_filter & ?). done.
    + done.
Qed.

Lemma delete_removes_the_issue_witness :
  ∃ d',
    IssueController.deleteIssue (Samples.as_ann 2 ∅) 300 Samples.db0
    = (IssueController.successResponse None "Issue deleted successfully", d')
    ∧ Store.issues d' = [Samples.login_bug].
Proof.
  destruct (proj2 (delete_removes_the_issue (Samples.as_ann 2 ∅) 300
                     Samples.db0 ltac:(unfold Spec.int4; simpl; lia)))
    as (d' & Hdel & _ & Hrows).
  { exists Samples.crash. split; [|reflexivity].
    apply list_elem_of_further, list_elem_of_here. }
  exists d'. split; [done|]. rewrite Hrows. vm_compute. reflexivity.
Defined.

(** X3: an update handler called on an existing issue with none of the six
    fields in the body answers "Issue updated successfully" with the stored
    record, having sent two SELECTs and no UPDATE: the tables are as they
    were and [updated_at] is not refreshed. *)
Theorem put_without_fields_writes_nothing (req : Middleware.request)
    (now : Z) (d : Store.db) :
  Spec.present (Middleware.params_id req) d →
  Spec.nothing_supplied (Spec.update_data (Middleware.body req)) = true →
  ∃ j d',
    IssueController.updateIssue req now d
    = (IssueController.successResponse (Some (IssueController.format_row j))
         "Issue updated successfully", d')
    ∧ Store.issue j ∈ Store.issues d
    ∧ Store.issue_id (Store.issue j) = Middleware.params_id req
    ∧ Store.issues d' = Store.issues d
    ∧ Store.users d' = Store.users d
    ∧ Store.journal d' = Store.journal d ++ [Store.SELECT; Store.SELECT].
Proof.
  intros Hp Hnone.
  destruct (getIssueById_present (Middleware.params_id req) now d)
    as (j & Hget & Hin & Hid); [by apply present_ids|].
  destruct (getIssueById_present (Middleware.params_id req) now
              (Store.received Store.SELECT d))
    as (j' & Hget' & _); [by apply present_ids|].
  assert (j' = j) as ->.
  { rewrite getIssueById_eq in Hget, Hget'. simpl in Hget'. congruence. }
  assert (Hupd : IssueModel.updateIssue (Middleware.params_id req)
                   (Spec.update_data (Middleware.body req)) now
                   (Store.received Store.SELECT d)
                 = (Ok 0, Store.received Store.SELECT d)).
  { unfold IssueModel.updateIssue. by rewrite update_set_length, Hnone. }
  exists j, (Store.received Store.SELECT (Store.received Store.SELECT d)).
  split; [|split; [done|split; [done|split; [done|split; [done|]]]]].
  - unfold Spec.update_data in Hupd.
    unfold IssueController.updateIssue, IssueController.try_catch, Store.bind.
    cbv zeta. by rewrite Hget, Hupd, Hget'.
  - simpl. by rewrite <-app_assoc.
Qed.

Lemma put_without_fields_writes_nothing_witness :
  ∃ j d',
    IssueController.updateIssue
      (Samples.as_ann 2 {[ "createdBy" := Js.Num 1 ]}) 300 Samples.db0
    = (IssueController.successResponse (Some (IssueController.format_row j))
         "Issue updated successfully", d')
    ∧ Store.issues d' = Store.issues Samples.db0
    ∧ Store.updated_at (Store.issue j) = 210.
Proof.
  destruct (put_without_fields_writes_nothing
              (Samples.as_ann 2 {[ "createdBy" := Js.Num 1 ]}) 300 Samples.db0)
    as (j & d' & Hput & Hin & Hid & Hrows & _).
  { exists Samples.crash. split; [|reflexivity].
    apply list_elem_of_further, list_elem_of_here. }
  { vm_compute. reflexivity. }
  exists j, d'. split; [done|]. split; [done|].
  simpl in Hin, Hid.
  repeat (apply elem_of_cons in Hin as [Hin|Hin]);
    [by rewrite Hin in Hid|by rewrite Hin|by apply not_elem_of_nil in Hin].
Defined.

Section ConstantFacts.
Import Store.

Lemma status_of_label_Some l s :
  status_of_label l = Some s ↔ l = status_label s.
Proof.
  unfold status_of_label. simpl. split.
  - repeat case_decide; simpl; intros [= <-]; done.
  - intros ->. by destruct s.
Qed.

Lemma priority_of_label_Some l p :
  priority_of_label l = Some p ↔ l = priority_label p.
Proof.
  unfold priority_of_label. simpl. split.
  - repeat case_decide; simpl; intros [= <-]; done.
  - intros ->. by destruct p.
Qed.

Lemma severity_of_label_Some l s :
  severity_of_label l = Some s ↔ l = severity_label s.
Proof.
  unfold severity_of_label. simpl. split.
  - repeat case_decide; simpl; intros [= <-]; done.
  - intros ->. by destruct s.
Qed.

Lemma valid_status_label l :
  l ∈ IssueConstants.VALID_STATUSES ↔ is_Some (status_of_label l).
Proof.
  split.
  - intros Hin. repeat (apply elem_of_cons in Hin as [->|Hin]);
      [by eexists..|by apply not_elem_of_nil in Hin].
  - intros [s ->%status_of_label_Some].
    destruct s; apply (bool_decide_unpack _); reflexivity.
Qed.

End ConstantFacts.

(** X4: the lists of valid values of the constants file are exactly the
    labels of the three enum types of the schema: a text is in
    [VALID_STATUSES], [VALID_PRIORITIES] or [VALID_SEVERITIES] exactly when
    the store reads it as a value of the status, priority or severity
    column. *)
Theorem constants_match_the_schema (l : string) :
  (l ∈ IssueConstants.VALID_STATUSES
   ↔ ∃ x, Store.coerce Store.Status (Store.SqlText l) = Ok (Store.CStatus x))
  ∧ (l ∈ IssueConstants.VALID_PRIORITIES
     ↔ ∃ x, Store.coerce Store.Priority (Store.SqlText l)
            = Ok (Store.CPriority x))
  ∧ (l ∈ IssueConstants.VALID_SEVERITIES
     ↔ ∃ x, Store.coerce Store.Severity (Store.SqlText l)
            = Ok (Store.CSeverity x)).
Proof.
  split; [|split]; simpl.
  - rewrite valid_status_label. split.
    + intros [x ->]. by exists x.
    + intros [x Hx]. destruct (Store.status_of_label l); [by eexists|done].
  - split.
    + intros Hin. repeat (apply elem_of_cons in Hin as [->|Hin]);
        [by eexists..|by apply not_elem_of_nil in Hin].
    + intros [x Hx].
      destruct (Store.priority_of_label l) as [p|] eqn:Hp; [|done].
      apply priority_of_label_Some in Hp as ->.
      destruct p; apply (bool_decide_unpack _); reflexivity.
  - split.
    + intros Hin. repeat (apply elem_of_cons in Hin as [->|Hin]);
        [by eexists..|by apply not_elem_of_nil in Hin].
    + intros [x Hx].
      destruct (Store.severity_of_label l) as [p|] eqn:Hp; [|done].
      apply severity_of_label_Some in Hp as ->.
      destruct p; apply (bool_decide_unpack _); reflexivity.
Qed.



Section SequenceFacts.
Import Store IssueModel Spec.

Lemma fresh_sequence_ids d :
  fresh_sequence d ↔ Forall (λ i, i < issues_seq d) (issue_id <$> issues d).
Proof.
  unfold fresh_sequence. rewrite Forall_fmap, Forall_forall. done.
Qed.

(** An INSERT that failed added no row, and never moves the sequence back. *)
Lemma query_insert_issue_throw values params now d e d' :
  query_insert_issue values params now d = (Throw e, d') →
  issues d' = issues d ∧ users d' = users d ∧ issues_seq d ≤ issues_seq d'.
Proof.
  unfold query_insert_issue.
  destruct (prepared _ _ _) as [bvalues|].
  - destruct (_ ;; _) as [r|]; [done|]. intros [= _ <-]. simpl.
    repeat split; lia.
  - intros [= _ <-]. simpl. repeat split; lia.
Qed.

Lemma createIssue_fresh data now d :
  fresh_sequence d → fresh_sequence (createIssue data now d).2.
Proof.
  intros Hf. unfold createIssue, bind. cbv zeta.
  destruct (query_insert_issue _ _ _ d) as [[id|e] d1] eqn:Hq; simpl.
  - apply query_insert_issue_ok in Hq
      as (bvalues & r & Hb & Hnd & Hr & -> & Hi & _ & Hseq).
    assert (issue_id r = issues_seq d) as Hid.
    { assert (cell_of IssueId r
              = cell_of IssueId (default_issue (issues_seq d) now)) as H.
      { apply (apply_assignments_frame bvalues); [done|].
        rewrite (traverse_bind_assignment_fst _ _ _ _ Hb).
        by apply (bool_decide_unpack _). }
      by injection H. }
    intros r' Hr'. rewrite Hi in Hr'. rewrite Hseq.
    apply elem_of_app in Hr' as [Hr'| ->%list_elem_of_singleton].
    + apply Hf in Hr'. lia.
    + lia.
  - apply query_insert_issue_throw in Hq as (Hi & _ & Hseq).
    intros r' Hr'. rewrite Hi in Hr'. apply Hf in Hr'. lia.
Qed.

Lemma query_update_fresh sets where_ params now d :
  IssueId ∉ sets.*1 →
  fresh_sequence d → fresh_sequence (query_update sets where_ params now d).2.
Proof.
  intros Hno Hf.
  destruct (query_update sets where_ params now d) as [[ids|e] d1] eqn:Hq;
    simpl.
  - pose proof (query_update_ids _ _ _ _ _ _ _ Hno Hq) as Hids.
    apply query_update_ok in Hq as (_ & _ & _ & _ & _ & _ & _ & _ & _ & Hseq & _).
    apply fresh_sequence_ids. rewrite Hids, Hseq. by apply fresh_sequence_ids.
  - by apply query_update_throw in Hq as ->.
Qed.

Lemma updateIssue_fresh id data now d :
  fresh_sequence d → fresh_sequence (updateIssue id data now d).2.
Proof.
  intros Hf. unfold updateIssue. destruct (_ =? _)%nat; [done|].
  unfold bind.
  pose proof (query_update_fresh (updateFields (update_set data))
                [ColEq IssueId (Placeholder (set_paramIndex (update_set data)))]
                (set_params (update_set data) ++ [Js.Num id]) now d
                (update_set_no_id data) Hf) as H.
  by destruct (query_update _ _ _ _ d) as [[ids|e] d1].
Qed.

Lemma updateStatus_fresh id status now d :
  fresh_sequence d → fresh_sequence (updateStatus id status now d).2.
Proof.
  intros Hf. unfold updateStatus, bind.
  match goal with
  | |- context [query_update ?s ?w ?p now d] =>
      pose proof (query_update_fresh s w p now d) as H
  end.
  destruct (query_update _ _ _ _ d) as [[ids|e] d1]; apply H; try done;
    destruct (is_resolved_or_closed status); by apply (bool_decide_unpack _).
Qed.

Lemma deleteIssue_fresh id now d :
  fresh_sequence d → fresh_sequence (deleteIssue id now d).2.
Proof.
  intros Hf. rewrite deleteIssue_eq. simpl.
  intros r [_ Hr]%list_elem_of_filter. by apply Hf.
Qed.

End SequenceFacts.

(** X6: when the id sequence of [issues] is ahead of every id in the
    table, it still is after [createIssue], [updateIssue], [updateStatus]
    and [deleteIssue], whether they return or throw; and the id a
    successful [createIssue] returns named no row before. *)
Theorem fresh_sequence_is_kept (d : Store.db) (now : Z) :
  Spec.fresh_sequence d →
  (∀ data, Spec.fresh_sequence (IssueModel.createIssue data now d).2)
  ∧ (∀ id data, Spec.fresh_sequence (IssueModel.updateIssue id data now d).2)
  ∧ (∀ id status,
       Spec.fresh_sequence (IssueModel.updateStatus id status now d).2)
  ∧ (∀ id, Spec.fresh_sequence (IssueModel.deleteIssue id now d).2)
  ∧ (∀ data id d',
       IssueModel.createIssue data now d = (Ok id, d') →
       ¬ Spec.present id d ∧ Spec.present id d').
Proof.
  intros Hf. split; [|split; [|split; [|split]]].
  - intros data. by apply createIssue_fresh.
  - intros id data. by apply updateIssue_fresh.
  - intros id status. by apply updateStatus_fresh.
  - intros id. by apply deleteIssue_fresh.
  - intros data id d' (r & Hrows & _ & Hid & Hseq & _)%createIssue_row. split.
    + intros (r' & Hr' & Hid'). apply Hf in Hr'. lia.
    + exists r. split; [|done]. rewrite Hrows. apply elem_of_app. right.
      apply list_elem_of_here.
Qed.

Lemma fresh_sequence_is_kept_witness :
  Spec.fresh_sequence
    (IssueModel.createIssue
       {| IssueModel.d_title := Js.Str "Typo";
          IssueModel.d_description := Js.Undefined;
          IssueModel.d_status := Js.Undefined;
          IssueModel.d_priority := Js.Undefined;
          IssueModel.d_severity := Js.Undefined;
          IssueModel.d_createdBy := Js.Num 1;
          IssueModel.d_assignedTo := Js.Undefined |} 300 Samples.db0).2.
Proof.
  apply (proj1 (fresh_sequence_is_kept Samples.db0 300
    ltac:(intros r Hr; repeat (apply elem_of_cons in Hr as [->|Hr]);
          [done..|by apply not_elem_of_nil in Hr]))).
Defined.

Section OwnerFacts.
Import Store IssueModel Spec.

Lemma where_id_owner_holds id uid r :
  where_holds [BEq IssueId (CInt id); BEq CreatedBy (CInt uid)] r
  ↔ issue_id r = id ∧ created_by r = uid.
Proof.
  unfold where_holds. simpl.
  rewrite andb_true_r, andb_True, !bool_decide_spec.
  split; [by intros [[= ->] [= ->]]|by intros [-> ->]].
Qed.

Lemma issueExists_eq id now d :
  issueExists id now d
  = (Ok (0 <? Z.of_nat (length (filter (λ r, issue_id r = id) (issues d)))),
     received SELECT d).
Proof.
  transitivity
    (Ok (0 <? Z.of_nat (length
           (filter (λ r, where_holds [BEq IssueId (CInt id)] r) (issues d)))),
     received SELECT d); [reflexivity|].
  by rewrite filter_where_id.
Qed.

Lemma isIssueOwner_eq id uid now d :
  isIssueOwner id uid now d
  = (Ok (0 <? Z.of_nat (length
           (filter (λ r, issue_id r = id ∧ created_by r = uid) (issues d)))),
     received SELECT d).
Proof.
  transitivity
    (Ok (0 <? Z.of_nat (length
           (filter (λ r, where_holds
                           [BEq IssueId (CInt id); BEq CreatedBy (CInt uid)] r)
              (issues d)))),
     received SELECT d); [reflexivity|].
  do 5 f_equal. apply list_filter_iff. intros r. apply where_id_owner_holds.
Qed.

End OwnerFacts.

(** X7: for an issue id and a user id in the range of their columns,
    [issueExists] answers true exactly when the id names a row, and
    [isIssueOwner] exactly when a row with the id has the user as its
    creator; so an owner always owns an existing issue, and the creator given
    to a successful [createIssue] owns the issue it returns. *)
Theorem owner_of_an_existing_issue (id uid : Z) (now : Z) (d : Store.db) :
  Spec.int4 id →
  Spec.int4 uid →
  (∃ b, IssueModel.issueExists id now d = (Ok b, Store.received Store.SELECT d)
        ∧ (b = true ↔ Spec.present id d))
  ∧ (∃ b, IssueModel.isIssueOwner id uid now d
          = (Ok b, Store.received Store.SELECT d)
          ∧ (b = true ↔ ∃ r, r ∈ Store.issues d ∧ Store.issue_id r = id
                             ∧ Store.created_by r = uid))
  ∧ ((IssueModel.isIssueOwner id uid now d).1 = Ok true →
     (IssueModel.issueExists id now d).1 = Ok true)
  ∧ (∀ data d',
       IssueModel.d_createdBy data = Js.Num uid →
       IssueModel.createIssue data now d = (Ok id, d') →
       (IssueModel.isIssueOwner id uid now d').1 = Ok true).
Proof.
  intros _ _.
  assert (Hex : ∀ d0 b,
            b = (0 <? Z.of_nat (length
                   (filter (λ r, Store.issue_id r = id) (Store.issues d0)))) →
            b = true ↔ Spec.present id d0).
  { intros d0 b ->. rewrite positive_length. unfold Spec.present. split.
    - intros [r [? ?]%list_elem_of_filter]. by exists r.
    - intros (r & ? & ?). exists r. by apply list_elem_of_filter. }
  assert (How : ∀ d0 b,
            b = (0 <? Z.of_nat (length
                   (filter (λ r, Store.issue_id r = id
                                 ∧ Store.created_by r = uid)
                      (Store.issues d0)))) →
            b = true ↔ ∃ r, r ∈ Store.issues d0 ∧ Store.issue_id r = id
                            ∧ Store.created_by r = uid).
  { intros d0 b ->. rewrite positive_length. split.
    - intros [r [? ?]%list_elem_of_filter]. by exists r.
    - intros (r & ? & ?). exists r. by apply list_elem_of_filter. }
  split; [|split; [|split]].
  - eexists. split; [apply issueExists_eq|]. by apply Hex.
  - eexists. split; [apply isIssueOwner_eq|]. by apply How.
  - rewrite isIssueOwner_eq, issueExists_eq. simpl. intros [= Hb]. f_equal.
    apply (Hex d _ eq_refl). apply (How d _ eq_refl) in Hb as (r & ? & ? & _).
    by exists r.
  - intros data d' Hby (r & Hrows & _ & Hid & _ & Hc)%createIssue_row.
    rewrite Hby in Hc. injection Hc as Hc.
    rewrite isIssueOwner_eq. simpl. f_equal. apply (How d' _ eq_refl).
    exists r. split; [|done]. rewrite Hrows. apply elem_of_app. right.
    apply list_elem_of_here.
Qed.

Lemma owner_of_an_existing_issue_witness :
  (IssueModel.isIssueOwner 2 2 300 Samples.db0).1 = Ok true
  ∧ (IssueModel.issueExists 2 300 Samples.db0).1 = Ok true.
Proof.
  assert (H : (IssueModel.isIssueOwner 2 2 300 Samples.db0).1 = Ok true)
    by (vm_compute; reflexivity).
  split; [exact H|].
  exact (proj1 (proj2 (proj2 (owner_of_an_existing_issue 2 2 300 Samples.db0
                               ltac:(unfold Spec.int4; lia)
                               ltac:(unfold Spec.int4; lia))))
           H).
Defined.

(* ===================================================================== *)
(** * Properties of the user model *)
(* ===================================================================== *)

Section UserFacts.
Import Store AuthModel Spec.

Lemma int4_of_ok k : int4 k → int4_of k = Ok (Some k).
Proof.
  intros [Hlo Hhi]. unfold int4_of.
  destruct (Z.ltb_spec k (-2147483648)); [lia|].
  by destruct (Z.ltb_spec 2147483647 k); [lia|].
Qed.

Lemma head_fmap_take {A B} (f : A → B) (l : list A) :
  head (f <$> take 1 l) = f <$> head l.
Proof. by destruct l. Qed.



Lemma head_filter_Some {A} (P : A → Prop) `{!∀ x, Decision (P x)} l x :
  head (filter P l) = Some x → x ∈ l ∧ P x.
Proof.
  intros Hh. assert (x ∈ filter P l) as [??]%list_elem_of_filter; [|done].
  destruct (filter P l); [done|]. injection Hh as ->. apply list_elem_of_here.
Qed.

Lemma head_filter_None {A} (P : A → Prop) `{!∀ x, Decision (P x)} l :
  head (filter P l) = None ↔ ¬ ∃ x, x ∈ l ∧ P x.
Proof.
  split.
  - intros Hh (x & Hx & HP).
    assert (x ∈ filter P l) as Hin by by apply list_elem_of_filter.
    destruct (filter P l); [by apply not_elem_of_nil in Hin|done].
  - intros Hno. destruct (filter P l) as [|x l'] eqn:Hf; [done|]. destruct Hno.
    exists x.
    assert (x ∈ filter P l) as [??]%list_elem_of_filter
      by (rewrite Hf; apply list_elem_of_here).
    done.
Qed.


Lemma enabled_with_id_spec k u :
  enabled_with_id (Some k) u ↔ user_id u = k ∧ is_enabled u = true.
Proof.
  unfold enabled_with_id.
  rewrite andb_True, bool_decide_spec, Is_true_true.
  split; [by intros [[= ->] ?]|by intros [-> ?]].
Qed.

Lemma findById_eq k d :
  int4 k →
  findById (Js.Num k) d
  = (Ok (profile_of
           <$> head (filter (λ u, enabled_with_id (Some k) u) (users d))),
     received SELECT d).
Proof.
  intros Hk.
  transitivity
    (match
       k' ← int4_of k;
       Ok (profile_of <$> take 1 (filter (λ u, enabled_with_id k' u) (users d)))
     with
     | Ok results => (Ok (head results), received SELECT d)
     | Throw e => (Throw e, received SELECT d)
     end); [reflexivity|].
  rewrite (int4_of_ok k Hk). cbn [mbind result_bind].
  by rewrite head_fmap_take.
Qed.

Lemma findById_spec k d :
  int4 k →
  ∃ r, findById (Js.Num k) d = (Ok r, received SELECT d)
       ∧ (∀ p, r = Some p →
            ∃ u, u ∈ users d ∧ user_id u = k ∧ is_enabled u = true
                 ∧ p = profile_of u)
       ∧ (r = None ↔
          ¬ ∃ u, u ∈ users d ∧ user_id u = k ∧ is_enabled u = true).
Proof.
  intros Hk. eexists. split; [by apply findById_eq|]. split.
  - intros p Hp. apply fmap_Some in Hp as (u & Hu & ->).
    apply head_filter_Some in Hu as [Hu He]. exists u.
    apply enabled_with_id_spec in He as [? ?]. done.
  - rewrite fmap_None, head_filter_None. apply not_iff_compat.
    apply exist_proper. intros u. rewrite enabled_with_id_spec. done.
Qed.





End UserFacts.



Section ProfileFacts.
Import Store AuthModel Spec.

Lemma varchar_fits column max s :
  (char_length s ≤ max)%nat → varchar column max s = Ok s.
Proof.
  intros Hs. unfold varchar. by rewrite (proj2 (Nat.leb_le _ _) Hs).
Qed.

Lemma text_of_fits column max s :
  (char_length s ≤ max)%nat → text_of column max (SqlText s) = Ok (Some s).
Proof.
  intros Hs. unfold text_of. by rewrite varchar_fits.
Qed.

(** An UPDATE of the enabled user [k] that keeps [user_id] and
    [is_enabled]: which rows it returns and which it leaves alone. *)
Section EnabledUpdate.
Variable h : user_row → user_row.
Variable k : Z.
Hypothesis h_user_id : ∀ u, user_id (h u) = user_id u.
Hypothesis h_is_enabled : ∀ u, is_enabled (h u) = is_enabled u.

Let g : user_row → user_row :=
  λ u, if enabled_with_id (Some k) u then h u else u.




End EnabledUpdate.



#[local] Instance newer_first_total : Total newer_first.
Proof. intros a b. unfold newer_first. lia. Qed.

#[local] Instance newer_first_trans : Transitive newer_first.
Proof. intros a b c. unfold newer_first. lia. Qed.

End ProfileFacts.





(** X11: [getAllUsers] returns the profiles of exactly the enabled users,
    each as often as it is in the table, newest creation time first. *)
Theorem getAllUsers_enabled_newest_first (d : Store.db) :
  ∃ us,
    AuthModel.getAllUsers d
    = (Ok (Store.profile_of <$> us), Store.received Store.SELECT d)
    ∧ us ≡ₚ filter (λ u, Store.is_enabled u) (Store.users d)
    ∧ StronglySorted Store.newer_first us
    ∧ StronglySorted (λ p q, Store.p_created_at q ≤ Store.p_created_at p)
        (Store.profile_of <$> us).
Proof.
  exists (merge_sort Store.newer_first
            (filter (λ u, Store.is_enabled u) (Store.users d))).
  split; [reflexivity|]. split; [apply merge_sort_Permutation|].
  assert (Hs := @StronglySorted_merge_sort _ Store.newer_first _
                  newer_first_trans newer_first_total
                  (filter (λ u, Store.is_enabled u) (Store.users d))).
  split; [done|].
  induction Hs as [|u l _ IH Hu]; [constructor|].
  rewrite fmap_cons. constructor; [done|].
  rewrite Forall_fmap. eapply Forall_impl; [exact Hu|]. done.
Qed.

Section CreateUserFacts.
Import Store AuthModel.


Lemma filter_nil_none {A} (P : A → Prop) `{!∀ x, Decision (P x)} l :
  (¬ ∃ x, x ∈ l ∧ P x) → filter P l = [].
Proof.
  intros Hno. apply (proj2 (head_filter_None P l)) in Hno.
  by destruct (filter P l).
Qed.



End CreateUserFacts.



(* ===================================================================== *)
(** * The row [createIssue] inserts *)
(* ===================================================================== *)

Section CreateFieldFacts.
Import Store IssueModel Spec.

(** What an INSERT wrote in a column, from the expression it was given. *)
Lemma inserted_cell values ps now bvalues r0 r i c e v :
  traverse (bind_assignment ps now) values = Ok bvalues →
  NoDup values.*1 →
  apply_assignments bvalues r0 = Ok r →
  values !! i = Some (c, e) →
  eval_expr ps now e = Ok v →
  coerce c v = Ok (cell_of c r).
Proof.
  intros Hb Hnd Hr Hi Hv.
  pose proof (traverse_bind_assignment_fst _ _ _ _ Hb) as Hfst.
  apply traverse_Forall2 in Hb.
  destruct (Forall2_lookup_l _ _ _ i (c, e) Hb Hi) as (b & Hbi & Hbind).
  unfold bind_assignment in Hbind. simpl in Hbind.
  rewrite Hv in Hbind. simpl in Hbind.
  destruct (coerce c v) as [x|]; [|done]. simpl in Hbind.
  injection Hbind as <-. f_equal. symmetry.
  apply (apply_assignments_written bvalues _ _ _ _ Hr).
  - by rewrite Hfst.
  - by eapply list_elem_of_lookup_2.
Qed.

Lemma user_exists_spec us k :
  user_exists us k = true ↔ ∃ u, u ∈ us ∧ user_id u = k.
Proof.
  unfold user_exists. rewrite existsb_exists. apply exist_proper. intros u.
  by rewrite <-list_elem_of_In, Z.eqb_eq.
Qed.

Lemma check_issue_facts us r r' :
  check_issue us r = Ok r' →
  user_exists us (created_by r) = true
  ∧ from_option (user_exists us) true (assigned_to r) = true.
Proof.
  unfold check_issue.
  destruct (user_exists us (created_by r)); [|done]. simpl.
  by destruct (from_option _ _ _).
Qed.

Lemma take_chars_length n s : (char_length (take_chars n s) ≤ n)%nat.
Proof.
  revert n. induction s as [|c s IH]; intros n; simpl; [lia|].
  destruct (is_continuation c) eqn:Hc; simpl; rewrite ?Hc; [apply IH|].
  destruct n as [|n]; simpl; rewrite ?Hc; [lia|].
  specialize (IH n). lia.
Qed.

Lemma varchar_length column max s t :
  varchar column max s = Ok t → (char_length t ≤ max)%nat.
Proof.
  unfold varchar. destruct (Nat.leb_spec (char_length s) max) as [Hs|Hs].
  - by intros [= <-].
  - destruct (all_spaces _); [|done]. intros [= <-]. apply take_chars_length.
Qed.

(** A text that went into [title] has at most 255 characters. *)
Lemma coerce_title_length v t :
  coerce Title v = Ok (CText t) → (char_length t ≤ 255)%nat.
Proof.
  destruct v as [| |s|n]; try done; unfold coerce, title_cell;
    (destruct (varchar _ _ _) as [t'|] eqn:Hv; [|done]);
    intros [= <-]; by eapply varchar_length.
Qed.

(** A successful [createIssue], statement by statement. *)
Lemma createIssue_inserted data now d id d' :
  createIssue data now d = (Ok id, d') →
  ∃ bvalues r,
    traverse
      (bind_assignment
         (prepareValue
            <$> [d_title data; Js.or_default Js.Null (d_description data);
                 Js.or_default (Js.Str ISSUE_STATUS_OPEN) (d_status data);
                 Js.or_default (Js.Str "Medium") (d_priority data);
                 Js.or_default (Js.Str "Minor") (d_severity data);
                 d_createdBy data;
                 Js.or_default Js.Null (d_assignedTo data)]) now)
      [(Title, Placeholder 1); (Description, Placeholder 2);
       (Status, Placeholder 3); (Priority, Placeholder 4);
       (Severity, Placeholder 5); (CreatedBy, Placeholder 6);
       (AssignedTo, Placeholder 7); (CreatedAt, NowCall); (UpdatedAt, NowCall)]
    = Ok bvalues
    ∧ apply_assignments bvalues (default_issue (issues_seq d) now) = Ok r
    ∧ check_issue (users d) r = Ok r
    ∧ issues d' = issues d ++ [r]
    ∧ id = issue_id r.
Proof.
  unfold createIssue, bind. cbv zeta.
  destruct (query_insert_issue _ _ _ d) as [[id'|] d1] eqn:Hq; [|done].
  intros [= <- <-]. revert Hq. unfold query_insert_issue, prepared.
  destruct (arity_ok _ _); [|done].
  destruct (first_duplicate _) eqn:Hdup; [done|].
  destruct (traverse _ _) as [bvalues|] eqn:Hb; [|done].
  repeat case_bool_decide; try done. simpl.
  destruct (apply_assignments _ _) as [r|] eqn:Hr; [|done]. simpl.
  destruct (existsb _ (issues d)); [done|]. simpl.
  destruct (check_issue _ r) as [r'|] eqn:Hc; [|done].
  pose proof (check_issue_ok _ _ _ Hc) as ->.
  intros [= <- <-]. by exists bvalues, r.
Qed.

End CreateFieldFacts.

(** X13: the row a successful [createIssue] appends.  Each of the seven
    values reaches its column as the store converts it (a title that is too
    long by spaces only cut to 255 characters), where an undefined
    [status], [priority] or [severity] has become Open, Medium or Minor,
    while null stays NULL in the row; [created_at] and [updated_at] are the
    time of the call; [resolved_at] is NULL whatever the status, Resolved and
    Closed included; the title has at most 255 characters, whatever their
    length in bytes, and the creator and the assignee, if any, are users. *)
Theorem createIssue_row_as_given
    (data : IssueModel.issue_data) (now : Z) (d : Store.db) (id : Z)
    (d' : Store.db) :
  IssueModel.createIssue data now d = (Ok id, d') →
  ∃ r,
    Store.issues d' = Store.issues d ++ [r]
    ∧ Store.issue_id r = id
    ∧ Store.coerce Store.Title (Store.prepareValue (IssueModel.d_title data))
      = Ok (Store.CText (Store.title r))
    ∧ Store.coerce Store.Description
        (Store.prepareValue (IssueModel.d_description data))
      = Ok (Store.cell_of Store.Description r)
    ∧ Store.coerce Store.Status
        (Store.prepareValue
           (Js.or_default (Js.Str "Open") (IssueModel.d_status data)))
      = Ok (Store.cell_of Store.Status r)
    ∧ Store.coerce Store.Priority
        (Store.prepareValue
           (Js.or_default (Js.Str "Medium") (IssueModel.d_priority data)))
      = Ok (Store.cell_of Store.Priority r)
    ∧ Store.coerce Store.Severity
        (Store.prepareValue
           (Js.or_default (Js.Str "Minor") (IssueModel.d_severity data)))
      = Ok (Store.cell_of Store.Severity r)
    ∧ Store.coerce Store.CreatedBy
        (Store.prepareValue (IssueModel.d_createdBy data))
      = Ok (Store.CInt (Store.created_by r))
    ∧ Store.coerce Store.AssignedTo
        (Store.prepareValue (IssueModel.d_assignedTo data))
      = Ok (Store.cell_of Store.AssignedTo r)
    ∧ (IssueModel.d_status data = Js.Undefined →
       Store.status r = Some Store.Open)
    ∧ (IssueModel.d_priority data = Js.Undefined →
       Store.priority r = Some Store.Medium)
    ∧ (IssueModel.d_severity data = Js.Undefined →
       Store.severity r = Some Store.Minor)
    ∧ (IssueModel.d_status data = Js.Null → Store.status r = None)
    ∧ Store.created_at r = now
    ∧ Store.updated_at r = now
    ∧ Store.resolved_at r = None
    ∧ (Store.char_length (Store.title r) ≤ 255)%nat
    ∧ (∃ u, u ∈ Store.users d ∧ Store.user_id u = Store.created_by r)
    ∧ (∀ a, Store.assigned_to r = Some a →
         ∃ u, u ∈ Store.users d ∧ Store.user_id u = a).
Proof.
  intros (bvalues & r & Hb & Hr & Hc & Hrows & ->)%createIssue_inserted.
  assert (Hnd : NoDup
            [(Store.Title, Store.Placeholder 1);
             (Store.Description, Store.Placeholder 2);
             (Store.Status, Store.Placeholder 3);
             (Store.Priority, Store.Placeholder 4);
             (Store.Severity, Store.Placeholder 5);
             (Store.CreatedBy, Store.Placeholder 6);
             (Store.AssignedTo, Store.Placeholder 7);
             (Store.CreatedAt, Store.NowCall);
             (Store.UpdatedAt, Store.NowCall)].*1)
    by (apply (bool_decide_unpack _); vm_compute; exact I).
  pose proof (λ i c e v, inserted_cell _ _ _ _ _ _ i c e v Hb Hnd Hr) as Hcell.
  pose proof (Hcell 0%nat Store.Title _ _ eq_refl eq_refl) as Htitle.
  pose proof (Hcell 1%nat Store.Description _ _ eq_refl eq_refl) as Hdesc.
  pose proof (Hcell 2%nat Store.Status _ _ eq_refl eq_refl) as Hstatus.
  pose proof (Hcell 3%nat Store.Priority _ _ eq_refl eq_refl) as Hprio.
  pose proof (Hcell 4%nat Store.Severity _ _ eq_refl eq_refl) as Hsev.
  pose proof (Hcell 5%nat Store.CreatedBy _ _ eq_refl eq_refl) as Hby'.
  pose proof (Hcell 6%nat Store.AssignedTo _ _ eq_refl eq_refl) as Hass.
  pose proof (Hcell 7%nat Store.CreatedAt _ _ eq_refl eq_refl) as Hca.
  pose proof (Hcell 8%nat Store.UpdatedAt _ _ eq_refl eq_refl) as Hua.
  clear Hcell.
  assert (Hres : Store.cell_of Store.ResolvedAt r
                 = Store.cell_of Store.ResolvedAt
                     (Store.default_issue (Store.issues_seq d) now)).
  { apply (apply_assignments_frame bvalues); [done|].
    rewrite (traverse_bind_assignment_fst _ _ _ _ Hb).
    by apply (bool_decide_unpack _). }
  assert (Hnull : ∀ v, Store.prepareValue (Js.or_default Js.Null v)
                       = Store.prepareValue v) by by intros [].
  rewrite Hnull in Hdesc, Hass.
  apply check_issue_facts in Hc as (Hby & Hto).
  pose proof (coerce_title_length _ _ Htitle) as Hlen.
  exists r. split_and!; try done.
  - intros Hu. rewrite Hu in Hstatus. simpl in Hstatus.
    destruct (Store.status r) as [x|]; [by injection Hstatus as <-|done].
  - intros Hu. rewrite Hu in Hprio. simpl in Hprio.
    destruct (Store.priority r) as [x|]; [by injection Hprio as <-|done].
  - intros Hu. rewrite Hu in Hsev. simpl in Hsev.
    destruct (Store.severity r) as [x|]; [by injection Hsev as <-|done].
  - intros Hu. rewrite Hu in Hstatus. simpl in Hstatus.
    by destruct (Store.status r).
  - simpl in Hca. by injection Hca.
  - simpl in Hua. by injection Hua.
  - simpl in Hres. by destruct (Store.resolved_at r).
  - by apply user_exists_spec.
  - intros a Ha. rewrite Ha in Hto. by apply user_exists_spec.
Qed.

Lemma createIssue_row_as_given_witness :
  ∃ r,
    Store.issues
      (IssueModel.createIssue
         {| IssueModel.d_title := Js.Str "Typo";
            IssueModel.d_description := Js.Undefined;
            IssueModel.d_status := Js.Str "Closed";
            IssueModel.d_priority := Js.Undefined;
            IssueModel.d_severity := Js.Undefined;
            IssueModel.d_createdBy := Js.Num 1;
            IssueModel.d_assignedTo := Js.Undefined |} 300 Samples.db0).2
    = Store.issues Samples.db0 ++ [r]
    ∧ Store.issue_id r = 3
    ∧ Store.status r = Some Store.Closed
    ∧ Store.resolved_at r = None
    ∧ Store.priority r = Some Store.Medium
    ∧ Store.created_by r = 1.
Proof.
  destruct (IssueModel.createIssue
              {| IssueModel.d_title := Js.Str "Typo";
                 IssueModel.d_description := Js.Undefined;
                 IssueModel.d_status := Js.Str "Closed";
                 IssueModel.d_priority := Js.Undefined;
                 IssueModel.d_severity := Js.Undefined;
                 IssueModel.d_createdBy := Js.Num 1;
                 IssueModel.d_assignedTo := Js.Undefined |} 300 Samples.db0)
    as [res d'] eqn:Hrun.
  assert (Hres : res = Ok 3)
    by (vm_compute in Hrun; by injection Hrun as <- _).
  rewrite Hres in Hrun.
  destruct (createIssue_row_as_given _ 300 Samples.db0 3 d' Hrun)
    as (r & Hrows & Hid & _ & _ & Hstatus & _ & _ & Hby & _ & _ & Hprio & _
        & _ & _ & _ & Hnone & _).
  exists r. simpl in Hstatus, Hby.
  split; [exact Hrows|]. split; [exact Hid|].
  split; [|split; [exact Hnone|split; [by apply Hprio|by injection Hby]]].
  destruct (Store.status r) as [x|]; [|discriminate Hstatus].
  injection Hstatus as <-. reflexivity.
Defined.

Section CreateShownFacts.
Import Store IssueModel Spec.






End CreateShownFacts.



(* ===================================================================== *)
(** * The rows of a page and of an export *)
(* ===================================================================== *)

Section PageFacts.
Import Store IssueModel Spec.

(** What a SELECT on [issues] with an ORDER BY returns. *)
Lemma query_issues_rows where_ name dir limit offset params now d rows d' c :
  query_issues where_ (Some (name, dir)) limit offset params now d
  = (Ok rows, d') →
  column_of_name name = Some c →
  ∃ bs lim off,
    traverse (bind_cond (prepareValue <$> params) now) where_ = Ok bs
    ∧ row_count (prepareValue <$> params) now limit = Ok lim
    ∧ row_count (prepareValue <$> params) now offset = Ok off
    ∧ rows
      = from_option
          (λ n, take n)
          id lim
          (drop (default 0%nat off)
             (merge_sort (order_rel c dir)
                (filter (λ r, where_holds bs r) (issues d)
                 ≫= join_users (users d))))
    ∧ d' = received SELECT d.
Proof.
  unfold query_issues, prepared. intros H Hc. rewrite Hc in H.
  destruct (arity_ok _ _); [|done].
  destruct (traverse _ where_) as [bs|]; [|done]. simpl in H.
  destruct (row_count _ _ limit) as [lim|]; [|done]. simpl in H.
  destruct (row_count _ _ offset) as [off|]; [|done]. simpl in H.
  injection H as <- <-. exists bs, lim, off.
  split; [done|]. split; [done|]. split; [done|]. split; [|done].
  by destruct lim.
Qed.

Lemma row_count_placeholder_inv ps n extra now x :
  row_count (prepareValue <$> (ps ++ Js.Num n :: extra)) now
    (Some (Placeholder (S (length ps))))
  = Ok x →
  0 ≤ n ≤ 9223372036854775807 ∧ x = Some (Z.to_nat n).
Proof.
  unfold row_count.
  pose proof (eval_placeholder_next ps (Js.Num n) extra now) as He.
  rewrite He. simpl. apply count_of_inv.
Qed.

Lemma filter_unique {A} (f : A → Z) k (l : list A) :
  NoDup (f <$> l) → (length (filter (λ x, f x = k) l) ≤ 1)%nat.
Proof.
  induction l as [|a l IH]; [simpl; lia|].
  rewrite fmap_cons. intros [Hnotin Hnd]%NoDup_cons.
  rewrite filter_cons. destruct (decide (f a = k)) as [<-|]; [|by apply IH].
  rewrite (filter_nil_none _ l); [simpl; lia|].
  intros (x & Hx & Hfx). apply Hnotin. apply list_elem_of_fmap. by exists x.
Qed.

Lemma matching_users_single us key :
  NoDup (user_id <$> us) → ∃ x, matching_users us key = [x].
Proof.
  intros Hnd. destruct key as [k|]; simpl; [|by eexists].
  pose proof (filter_unique user_id k us Hnd) as Hlen.
  destruct (filter _ us) as [|u [|u' l]]; simpl in *; [by eexists..|lia].
Qed.

(** Under unique user ids the two LEFT JOINs keep one row per issue. *)
Lemma join_users_single us r :
  NoDup (user_id <$> us) → ∃ j, join_users us r = [j] ∧ issue j = r.
Proof.
  intros Hnd. unfold join_users.
  destruct (matching_users_single us (Some (created_by r)) Hnd) as [c ->].
  destruct (matching_users_single us (assigned_to r) Hnd) as [a ->].
  simpl. by eexists.
Qed.

Lemma join_users_issue us r j : j ∈ join_users us r → issue j = r.
Proof.
  unfold join_users.
  intros (c & Hj & _)%list_elem_of_bind.
  apply list_elem_of_bind in Hj as (a & Hj & _).
  by apply list_elem_of_singleton in Hj as ->.
Qed.

Lemma joined_issues us (l : list issue_row) :
  NoDup (user_id <$> us) → issue <$> (l ≫= join_users us) = l.
Proof.
  intros Hnd. induction l as [|r l IH]; [done|].
  rewrite bind_cons, fmap_app, IH.
  by destruct (join_users_single us r Hnd) as (j & -> & <-).
Qed.

Lemma joined_elem us (l : list issue_row) j :
  j ∈ l ≫= join_users us → issue j ∈ l.
Proof.
  intros (r & Hj & Hr)%list_elem_of_bind.
  by rewrite (join_users_issue _ _ _ Hj).
Qed.

(** What a listing that returned has read: the count, and the segment of
    the sorted rows. *)
Lemma getAllIssues_rows o now d res d' :
  getAllIssues o now d = (Ok res, d') →
  ∃ dir,
    safeSortOrder (Js.or_default (Js.Str "DESC") (sortOrder o)) = Ok dir
    ∧ 0 ≤ default 10 (limit o)
    ∧ 0 ≤ (default 1 (page o) - 1) * default 10 (limit o)
    ∧ total res = Z.of_nat (length (filter (λ r, selects o r) (issues d)))
    ∧ r_issues res
      = take (Z.to_nat (default 10 (limit o)))
          (drop (Z.to_nat ((default 1 (page o) - 1) * default 10 (limit o)))
             (merge_sort (order_rel (requested_column (sortBy o)) dir)
                (filter (λ r, selects o r) (issues d)
                 ≫= join_users (users d))))
    ∧ d' = received SELECT (received SELECT d).
Proof.
  intros (dir & d1 & Hdir & Hc & Hq & _)%getAllIssues_ok.
  pose proof (list_count _ _ _ _ _ Hc) as Htotal.
  assert (Hd1 : d1 = received SELECT d).
  { revert Hc. unfold query_count.
    destruct (prepared _ _ _); [|done]. by intros [= _ <-]. }
  assert (Hcol : column_of_name
            (Js.template
               (safeSortBy (Js.or_default (Js.Str "created_at") (sortBy o))))
          = Some (requested_column (sortBy o))).
  { destruct (sortBy o) eqn:Hs; try apply safeSortBy_column. done. }
  apply (query_issues_rows _ _ _ _ _ _ _ _ _ _ _) with (1 := Hq) in Hcol
    as (bs & lim & off & Hbs & Hlim & Hoff & Hrows & ->).
  destruct (list_where_ok o) as [Hi _]. rewrite Hi in Hlim, Hoff.
  apply row_count_placeholder_inv in Hlim as [[Hl0 _] ->].
  assert (Hoff' : row_count
            (prepareValue
               <$> ((params (list_where o) ++ [Js.Num (default 10 (limit o))])
                    ++ Js.Num ((default 1 (page o) - 1) * default 10 (limit o))
                       :: []))
            now
            (Some (Placeholder
                     (S (length (params (list_where o)
                                 ++ [Js.Num (default 10 (limit o))])))))
          = Ok off).
  { rewrite <-app_assoc, length_app. simpl length. rewrite Nat.add_1_r.
    exact Hoff. }
  apply row_count_placeholder_inv in Hoff' as [[Ho0 _] ->]. clear Hoff.
  simpl in Hrows.
  assert (Hsel : filter (λ r, where_holds bs r) (issues d1)
                 = filter (λ r, selects o r) (issues d)).
  { rewrite Hd1. apply list_filter_iff. intros r.
    by rewrite (list_where_denotes o _ _ _ Hbs r). }
  assert (Husers : users d1 = users d) by by rewrite Hd1.
  rewrite Hsel, Husers in Hrows.
  exists dir. rewrite Hd1. done.
Qed.

(** Every row of a page is a row of the table that the filters select. *)
Lemma getAllIssues_selected o now d res d' j :
  getAllIssues o now d = (Ok res, d') →
  j ∈ r_issues res →
  issue j ∈ issues d ∧ selects o (issue j) = true.
Proof.
  intros (dir & _ & _ & _ & _ & Hrows & _)%getAllIssues_rows Hj.
  rewrite Hrows in Hj.
  assert (j ∈ filter (λ r, selects o r) (issues d) ≫= join_users (users d))
    as Hin.
  { rewrite <-(merge_sort_Permutation
                 (order_rel (requested_column (sortBy o)) dir)).
    eapply elem_of_sublist; [exact Hj|].
    etransitivity; [apply sublist_take|apply sublist_drop]. }
  apply joined_elem, list_elem_of_filter in Hin as [Hs Hin].
  split; [done|]. by apply Is_true_true.
Qed.

(** The sample store holds ASCII texts only. *)
Lemma db0_ascii_search v :
  ascii_text (Js.template v) = true → ascii_search v Samples.db0.
Proof.
  intros Hv _. split; [done|]. intros r Hr.
  repeat (apply elem_of_cons in Hr as [->|Hr]); [done..|].
  by apply not_elem_of_nil in Hr.
Qed.

Lemma listing_readable page limit sortBy sortOrder :
  readable_filters (Samples.listing page limit sortBy sortOrder).
Proof. unfold readable_filters, readable. simpl. by repeat split. Qed.

End PageFacts.

(** X15: the rows of a listing that returns, for filters the store can
    read, a sort order that is left out or ASCII text, a page, a page size
    and an offset that are safe integers, and a search, if any, for an ASCII
    term in ASCII texts.  The page size and the offset
    [(page - 1) * limit] are not negative; the rows are the segment of that
    size at that offset of all joined rows of the issues the filters select,
    put in the order asked for; so a page never holds more rows than its
    size, every row on it is a selected issue of the table, and, when no two
    users share an id, it holds as many rows as are left of [total] from the
    offset on, up to the page size.  The listing sends two SELECTs and
    changes no table. *)
Theorem listing_page_is_a_segment
    (o : IssueModel.list_options) (now : Z) (d : Store.db)
    (res : IssueModel.list_result) (d' : Store.db) :
  Spec.readable_filters o →
  Spec.ascii_or_absent (IssueModel.sortOrder o) →
  Spec.safe_page o →
  Spec.ascii_search (IssueModel.search o) d →
  IssueModel.getAllIssues o now d = (Ok res, d') →
  0 ≤ default 10 (IssueModel.limit o)
  ∧ 0 ≤ (default 1 (IssueModel.page o) - 1) * default 10 (IssueModel.limit o)
  ∧ IssueModel.currentPage res = default 1 (IssueModel.page o)
  ∧ IssueModel.perPage res = default 10 (IssueModel.limit o)
  ∧ (∃ dir sorted,
       dir = Spec.requested_direction (IssueModel.sortOrder o)
       ∧ sorted ≡ₚ filter (λ r, Spec.selects o r) (Store.issues d)
                     ≫= Store.join_users (Store.users d)
       ∧ StronglySorted
           (Store.order_rel (Spec.requested_column (IssueModel.sortBy o)) dir)
           sorted
       ∧ IssueModel.r_issues res
         = take (Z.to_nat (default 10 (IssueModel.limit o)))
             (drop (Z.to_nat ((default 1 (IssueModel.page o) - 1)
                              * default 10 (IssueModel.limit o)))
                sorted))
  ∧ Z.of_nat (length (IssueModel.r_issues res))
    ≤ default 10 (IssueModel.limit o)
  ∧ (∀ j, j ∈ IssueModel.r_issues res →
       Store.issue j ∈ Store.issues d ∧ Spec.selects o (Store.issue j) = true)
  ∧ (NoDup (Store.user_id <$> Store.users d) →
     Z.of_nat (length (IssueModel.r_issues res))
     = Z.min (default 10 (IssueModel.limit o))
         (Z.max 0
            (IssueModel.total res
             - (default 1 (IssueModel.page o) - 1)
               * default 10 (IssueModel.limit o))))
  ∧ Spec.same_tables d d'
  ∧ Store.journal d' = Store.journal d ++ [Store.SELECT; Store.SELECT].
Proof.
  intros _ Hord _ _ Hrun.
  pose proof (getAllIssues_rows _ _ _ _ _ Hrun)
    as (dir & Hdir & Hl0 & Ho0 & Htotal & Hrows & ->).
  apply getAllIssues_ok in Hrun as Hshape.
  destruct Hshape as (_ & _ & _ & _ & _ & _ & Hcur & Hper).
  rewrite safeSortOrder_direction in Hdir
    by (destruct Hord as [->|(s0 & -> & _)]; [by left|right; by eexists]).
  injection Hdir as Hdir.
  set (all := filter (λ r, Spec.selects o r) (Store.issues d)
                ≫= Store.join_users (Store.users d)) in Hrows.
  set (sorted := merge_sort
                   (Store.order_rel (Spec.requested_column (IssueModel.sortBy o))
                      dir) all) in Hrows.
  assert (Hperm : sorted ≡ₚ all) by apply merge_sort_Permutation.
  split; [done|]. split; [done|]. split; [done|]. split; [done|].
  split; [|split; [|split; [|split; [|split]]]].
  - exists dir, sorted.
    split; [done|]. split; [done|]. split; [|done].
    apply (@StronglySorted_merge_sort _ _ _ (order_rel_trans _ _)
             (order_rel_total _ _)).
  - rewrite Hrows, length_take. lia.
  - intros j Hj. by apply (getAllIssues_selected _ _ _ _ _ _ Hrun).
  - intros Hnd. rewrite Hrows, length_take, length_drop.
    rewrite (Permutation_length Hperm).
    assert (length all
            = length (filter (λ r, Spec.selects o r) (Store.issues d))) as ->.
    { unfold all. by rewrite <-(joined_issues _ _ Hnd) at 2; rewrite length_fmap. }
    rewrite Htotal. lia.
  - done.
  - simpl. by rewrite <-app_assoc.
Qed.

Lemma listing_page_is_a_segment_witness :
  ∃ res d',
    IssueModel.getAllIssues
      (Samples.listing 2 1 (Js.Str "created_at") (Js.Str "desc")) 300
      Samples.db0 = (Ok res, d')
    ∧ Z.of_nat (length (IssueModel.r_issues res)) = 1
    ∧ IssueModel.total res = 2.
Proof.
  assert (Hrun : ∃ res d',
            IssueModel.getAllIssues
              (Samples.listing 2 1 (Js.Str "created_at") (Js.Str "desc")) 300
              Samples.db0 = (Ok res, d')
            ∧ IssueModel.total res = 2).
  { eexists _, _. split; vm_compute; reflexivity. }
  destruct Hrun as (res & d' & Hrun & Htotal).
  exists res, d'. split; [exact Hrun|]. split; [|exact Htotal].
  destruct (listing_page_is_a_segment
              (Samples.listing 2 1 (Js.Str "created_at") (Js.Str "desc"))
              300 Samples.db0 res d'
              (listing_readable _ _ _ _)
              ltac:(right; by eexists)
              ltac:(unfold Spec.safe_page, Js.safe; simpl; lia)
              (db0_ascii_search (Js.Str "login") eq_refl) Hrun)
    as (_ & _ & _ & _ & _ & _ & _ & Hfull & _).
  rewrite Hfull, Htotal.
  - reflexivity.
  - apply (bool_decide_unpack _). vm_compute. exact I.
Defined.

Section ExportFacts.
Import Store IssueModel Spec.



End ExportFacts.



(* ===================================================================== *)
(** * What the search matches *)
(* ===================================================================== *)

Section SearchFacts.
Import Store IssueModel Spec.

Lemma toLowerCase_app a b :
  Js.toLowerCase (a +:+ b) = Js.toLowerCase a +:+ Js.toLowerCase b.
Proof. induction a as [|c a IH]; [done|]. simpl. by rewrite IH. Qed.

Lemma lower_char_wildcard c :
  negb (Ascii.eqb (Js.lower_char c) "%")
  && negb (Ascii.eqb (Js.lower_char c) "_")
  && negb (Ascii.eqb (Js.lower_char c) "\")
  = negb (Ascii.eqb c "%") && negb (Ascii.eqb c "_")
    && negb (Ascii.eqb c "\").
Proof. by destruct c as [[] [] [] [] [] [] [] []]. Qed.

Lemma wildcard_free_lower s :
  wildcard_free (Js.toLowerCase s) = wildcard_free s.
Proof.
  induction s as [|c s IH]; [done|].
  simpl. by rewrite IH, lower_char_wildcard.
Qed.

Lemma like_tokens_literal c p :
  negb (Ascii.eqb c "%") && negb (Ascii.eqb c "_") && negb (Ascii.eqb c "\")
  = true →
  like_tokens (String c p) = Lit c :: like_tokens p.
Proof. destruct c as [[] [] [] [] [] [] [] []]; simpl; done. Qed.

(** A pattern without wildcards stands for its own characters. *)
Lemma like_tokens_plain s rest :
  wildcard_free s = true →
  like_tokens (s +:+ rest)
  = (Lit <$> list_ascii_of_string s) ++ like_tokens rest.
Proof.
  induction s as [|c s IH]; [done|].
  intros [Hc Hs]%andb_true_iff.
  change (String c s +:+ rest) with (String c (s +:+ rest)).
  rewrite (like_tokens_literal _ _ Hc), (IH Hs). done.
Qed.

Lemma like_match_any_seq p text :
  like_match (AnySeq :: p) text = true
  ↔ ∃ pre post, text = pre +:+ post ∧ like_match p post = true.
Proof.
  induction text as [|c t IH].
  - change (like_match (AnySeq :: p) EmptyString)
      with (like_match p EmptyString || false).
    rewrite orb_false_r. split.
    + intros Hm. by exists EmptyString, EmptyString.
    + intros (pre & post & Heq & Hm). destruct pre; [|done].
      simpl in Heq. by rewrite Heq.
  - change (like_match (AnySeq :: p) (String c t))
      with (like_match p (String c t) || like_match (AnySeq :: p) t).
    rewrite orb_true_iff, IH. split.
    + intros [Hm|(pre & post & -> & Hm)].
      * by exists EmptyString, (String c t).
      * by exists (String c pre), post.
    + intros (pre & post & Heq & Hm). destruct pre as [|c' pre].
      * left. simpl in Heq. by rewrite Heq.
      * right. injection Heq as -> ->. by exists pre, post.
Qed.

Lemma like_match_literals cs p text :
  like_match ((Lit <$> cs) ++ p) text = true
  ↔ ∃ post, text = string_of_list_ascii cs +:+ post
            ∧ like_match p post = true.
Proof.
  revert text. induction cs as [|c cs IH]; intros text.
  - simpl. split; [intros Hm; by exists text|by intros (post & -> & Hm)].
  - destruct text as [|c' t].
    + split; [done|]. by intros (post & Heq & _).
    + change (like_match ((Lit <$> c :: cs) ++ p) (String c' t))
        with (Ascii.eqb c c' && like_match ((Lit <$> cs) ++ p) t).
      rewrite andb_true_iff, IH, Ascii.eqb_eq. split.
      * intros (-> & post & -> & Hm). by exists post.
      * intros (post & Heq & Hm). injection Heq as -> ->.
        split; [done|]. by exists post.
Qed.

Lemma like_match_any text : like_match [AnySeq] text = true.
Proof.
  induction text as [|c t IH]; [done|].
  change (like_match [AnySeq] (String c t))
    with (like_match [] (String c t) || like_match [AnySeq] t).
  by rewrite IH, orb_true_r.
Qed.

(** [text ILIKE '%s%'] for a term without wildcards: [s] occurs in
    [text], whatever the case. *)
Lemma ilike_contains s text :
  wildcard_free s = true →
  ilike text ("%" +:+ s +:+ "%") = true ↔ occurs_in s text.
Proof.
  intros Hs. unfold ilike, occurs_in.
  rewrite !toLowerCase_app.
  change (Js.toLowerCase "%") with "%"%string.
  change ("%" +:+ Js.toLowerCase s +:+ "%")
    with (String "%" (Js.toLowerCase s +:+ "%")).
  change (like_tokens (String "%" (Js.toLowerCase s +:+ "%")))
    with (AnySeq :: like_tokens (Js.toLowerCase s +:+ "%")).
  rewrite like_tokens_plain by by rewrite wildcard_free_lower.
  change (like_tokens "%") with [AnySeq].
  rewrite like_match_any_seq. split.
  - intros (pre & post & Heq & (post' & -> & _)%like_match_literals).
    exists pre, post'. by rewrite Heq, string_of_list_ascii_of_string.
  - intros (pre & post & Heq). exists pre, (Js.toLowerCase s +:+ post).
    split; [done|]. apply like_match_literals. exists post.
    split; [by rewrite string_of_list_ascii_of_string|apply like_match_any].
Qed.

(** [text ILIKE '%%%'] holds for every text. *)
Lemma ilike_percent text : ilike text ("%" +:+ "%" +:+ "%") = true.
Proof.
  unfold ilike.
  change (like_tokens (Js.toLowerCase ("%" +:+ "%" +:+ "%")))
    with [AnySeq; AnySeq; AnySeq].
  apply like_match_any_seq. exists EmptyString, (Js.toLowerCase text).
  split; [done|]. apply like_match_any_seq.
  exists EmptyString, (Js.toLowerCase text).
  split; [done|apply like_match_any].
Qed.

Lemma selects_split o r :
  selects o r = selects_exact o r && search_filter (search o) r.
Proof. done. Qed.




End SearchFacts.




(** X17: the search of a listing, for a term without [%], [_] and the
    backslash: an issue passes it exactly when the term occurs in its title
    or in its description, the case of the ASCII letters being ignored; so
    the filters of the listing select an issue exactly when it passes the
    exact-match filters and mentions the term, and every row of a page that
    is returned mentions it. *)
Theorem search_is_a_case_blind_substring
    (o : IssueModel.list_options) (s : string) :
  IssueModel.search o = Js.Str s →
  Spec.wildcard_free s = true →
  (∀ r, Spec.search_filter (Js.Str s) r = true ↔ Spec.mentions s r)
  ∧ (∀ r, Spec.selects o r = true
          ↔ Spec.selects_exact o r = true ∧ Spec.mentions s r)
  ∧ (∀ now d res d' j,
       IssueModel.getAllIssues o now d = (Ok res, d') →
       j ∈ IssueModel.r_issues res →
       Spec.mentions s (Store.issue j)).
Proof.
  intros Ho Hs.
  assert (Hsearch : ∀ r, Spec.search_filter (Js.Str s) r = true
                         ↔ Spec.mentions s r).
  { intros r. unfold Spec.search_filter, Spec.mentions.
    cbn [Js.template Js.truthy].
    destruct (String.eqb_spec s EmptyString) as [->|Hne]; cbn [negb orb].
    - split; [|done]. intros _. left. by exists EmptyString, (Js.toLowerCase
                                                              (Store.title r)).
    - rewrite orb_true_iff, (ilike_contains s _ Hs).
      destruct (Store.description r) as [dsc|]; cbn [from_option].
      + rewrite (ilike_contains s _ Hs). split.
        * intros [?|?]; [by left|right; by exists dsc].
        * intros [?|(dsc' & [= <-] & ?)]; [by left|by right].
      + split; [intros [?|?]; [by left|done]|].
        intros [?|(dsc' & ? & _)]; [by left|done]. }
  split; [done|]. split.
  - intros r. rewrite selects_split, Ho, andb_true_iff, Hsearch. done.
  - intros now d res d' j Hrun Hj.
    destruct (getAllIssues_selected _ _ _ _ _ _ Hrun Hj) as [_ Hsel].
    rewrite selects_split, Ho, andb_true_iff, Hsearch in Hsel. by destruct Hsel.
Qed.

Lemma search_is_a_case_blind_substring_witness :
  Spec.mentions "login" Samples.crash
  ∧ Spec.selects (Samples.listing 1 10 Js.Undefined Js.Undefined) Samples.crash
    = true.
Proof.
  destruct (search_is_a_case_blind_substring
              (Samples.listing 1 10 Js.Undefined Js.Undefined) "login"
              eq_refl eq_refl) as (Hsearch & Hsel & _).
  assert (Hyes : Spec.search_filter (Js.Str "login") Samples.crash = true)
    by (vm_compute; reflexivity).
  split; [exact (proj1 (Hsearch Samples.crash) Hyes)|].
  apply (proj2 (Hsel Samples.crash)).
  split; [vm_compute; reflexivity|exact (proj1 (Hsearch Samples.crash) Hyes)].
Defined.

(** X18: the wildcards of LIKE are live in a search term: a search for [%]
    is passed by every issue, so a listing with that term that returns
    reports as [total] the number of issues that pass its exact-match
    filters alone. *)
Theorem search_for_percent_selects_all
    (o : IssueModel.list_options) (now : Z) (d : Store.db) :
  IssueModel.search o = Js.Str "%" →
  (∀ r, Spec.search_filter (Js.Str "%") r = true)
  ∧ (∀ r, Spec.selects o r = Spec.selects_exact o r)
  ∧ (∀ res d',
       IssueModel.getAllIssues o now d = (Ok res, d') →
       IssueModel.total res
       = Z.of_nat (length (filter (λ r, Spec.selects_exact o r)
                             (Store.issues d)))).
Proof.
  intros Ho.
  assert (Hall : ∀ r, Spec.search_filter (Js.Str "%") r = true).
  { intros r. unfold Spec.search_filter. cbn [Js.template Js.truthy].
    rewrite ilike_percent. by rewrite orb_true_r. }
  assert (Hsel : ∀ r, Spec.selects o r = Spec.selects_exact o r).
  { intros r. by rewrite selects_split, Ho, Hall, andb_true_r. }
  split; [done|]. split; [done|].
  intros res d' (dir & _ & _ & _ & -> & _)%getAllIssues_rows.
  do 2 f_equal. apply list_filter_iff. intros r. by rewrite Hsel.
Qed.

Lemma search_for_percent_selects_all_witness :
  Spec.selects
    {| IssueModel.page := None; IssueModel.limit := None;
       IssueModel.o_status := Js.Str "Open";
       IssueModel.o_priority := Js.Undefined;
       IssueModel.o_severity := Js.Undefined;
       IssueModel.search := Js.Str "%";
       IssueModel.sortBy := Js.Undefined;
       IssueModel.sortOrder := Js.Undefined;
       IssueModel.createdBy := Js.Undefined |} Samples.crash
  = true.
Proof.
  rewrite (proj1 (proj2 (search_for_percent_selects_all
             {| IssueModel.page := None; IssueModel.limit := None;
                IssueModel.o_status := Js.Str "Open";
                IssueModel.o_priority := Js.Undefined;
                IssueModel.o_severity := Js.Undefined;
                IssueModel.search := Js.Str "%";
                IssueModel.sortBy := Js.Undefined;
                IssueModel.sortOrder := Js.Undefined;
                IssueModel.createdBy := Js.Undefined |} 0 Samples.db0
             eq_refl)) Samples.crash).
  vm_compute. reflexivity.
Defined.

(* ===================================================================== *)
(** * Page sizes and page numbers at the edges *)
(* ===================================================================== *)

Section EdgeFacts.
Import Store IssueModel Spec.



End EdgeFacts.



(* ===================================================================== *)
(** * Status updates the store takes *)
(* ===================================================================== *)

Section TakenFacts.
Import Store IssueModel Spec.

(** An UPDATE whose parts bind and whose rows can all be written. *)
Lemma query_update_run sets where_ params now d bsets bs rows :
  arity_ok ((sets ≫= λ a, expr_placeholders a.2)
            ++ (where_ ≫= cond_placeholders)) (prepareValue <$> params)
  = true →
  first_duplicate (sets.*1) = None →
  traverse (bind_assignment (prepareValue <$> params) now) sets = Ok bsets →
  traverse (bind_cond (prepareValue <$> params) now) where_ = Ok bs →
  traverse (update_row (users d) now bsets bs) (issues d) = Ok rows →
  query_update sets where_ params now d
  = (Ok (issue_id <$> filter (λ r, where_holds bs r) (issues d)),
     with_issues rows (received UPDATE d)).
Proof.
  intros Ha Hd Hs Hw Hr. unfold query_update, prepared.
  rewrite Ha, Hd, Hs. cbn [mbind result_bind]. rewrite Hw.
  cbn [mbind result_bind]. by rewrite Hr.
Qed.

Lemma traverse_all {A B} (f : A → result B) (P : B → Prop) l :
  (∀ x, x ∈ l → ∃ y, f x = Ok y ∧ P y) →
  ∃ l', traverse f l = Ok l' ∧ Forall P l'.
Proof.
  induction l as [|x l IH]; intros Hall; [by exists []|].
  destruct (Hall x) as (y & Hy & HP); [apply list_elem_of_here|].
  destruct IH as (l' & Hl' & HPl').
  { intros x' Hx'. by apply Hall, list_elem_of_further. }
  exists (y :: l'). simpl. rewrite Hy, Hl'. by split; [|constructor].
Qed.

(** The constraints of a row read its two user references only. *)
Lemma check_issue_same_keys us r1 r2 :
  created_by r2 = created_by r1 →
  assigned_to r2 = assigned_to r1 →
  check_issue us r1 = Ok r1 → check_issue us r2 = Ok r2.
Proof.
  unfold check_issue. intros -> ->.
  destruct (negb _); [done|]. by destruct (negb _).
Qed.

Lemma update_row_status us now so ro bs r :
  check_issue us r = Ok r →
  ∃ r', update_row us now
          [(Status, from_option CStatus CNull so);
           (ResolvedAt, from_option CTime CNull ro); (UpdatedAt, CTime now)]
          bs r = Ok r'
        ∧ check_issue us r' = Ok r'.
Proof.
  intros Hr. unfold update_row. destruct (where_holds bs r); [|by exists r].
  assert (apply_assignments
            [(Status, from_option CStatus CNull so);
             (ResolvedAt, from_option CTime CNull ro); (UpdatedAt, CTime now)] r
          = Ok (set_updated_at now (set_resolved_at ro (set_status so r))))
    as -> by by destruct so, ro.
  cbn [mbind result_bind]. eexists. split.
  - by apply (check_issue_same_keys us r).
  - by apply (check_issue_same_keys us r).
Qed.

(** The values of the SET list of [updateStatus], once bound. *)
Lemma updateStatus_binds id status now :
  writable_status status →
  ∃ so,
    traverse (bind_assignment (prepareValue <$> [status; Js.Num id]) now)
      (if is_resolved_or_closed status
       then [(Status, Placeholder 1); (ResolvedAt, NowCall);
             (UpdatedAt, NowCall)]
       else [(Status, Placeholder 1); (ResolvedAt, NullLit);
             (UpdatedAt, NowCall)])
    = Ok [(Status, from_option CStatus CNull so);
          (ResolvedAt,
           from_option CTime CNull
             (if is_resolved_or_closed status then Some now else None));
          (UpdatedAt, CTime now)]
    ∧ ((status = Js.Undefined ∨ status = Js.Null) → so = None).
Proof.
  intros [->|[->|(s & -> & Hs)]].
  - exists None. by split.
  - exists None. by split.
  - apply valid_status_label in Hs as [x Hx]. exists (Some x).
    split; [|by intros [?|?]].
    destruct (is_resolved_or_closed (Js.Str s));
      unfold bind_assignment; simpl; by rewrite Hx.
Qed.

Lemma updateStatus_taken id status now d :
  consistent d → writable_status status →
  ∃ d',
    updateStatus id status now d
    = (Ok (Z.of_nat (length (filter (λ r, issue_id r = id) (issues d)))), d')
    ∧ consistent d'
    ∧ users d' = users d
    ∧ ((status = Js.Undefined ∨ status = Js.Null) →
       ∀ r', r' ∈ issues d' → issue_id r' = id → Store.status r' = None).
Proof.
  intros Hcons Hst.
  destruct (updateStatus_binds id status now Hst) as (so & Hb & Hso).
  set (bsets := [(Status, from_option CStatus CNull so);
                 (ResolvedAt,
                  from_option CTime CNull
                    (if is_resolved_or_closed status then Some now else None));
                 (UpdatedAt, CTime now)]) in *.
  destruct (traverse_all
              (update_row (users d) now bsets [BEq IssueId (CInt id)])
              (λ r', check_issue (users d) r' = Ok r') (issues d))
    as (rows & Hrows & Hok).
  { intros r Hr. by apply update_row_status, Hcons. }
  exists (with_issues rows (received UPDATE d)).
  split; [|split; [|split; [done|]]].
  - unfold updateStatus, bind.
    rewrite (query_update_run _ _ _ now d bsets [BEq IssueId (CInt id)] rows).
    + unfold ret. by rewrite length_fmap, filter_where_id.
    + by destruct (is_resolved_or_closed status).
    + by destruct (is_resolved_or_closed status).
    + exact Hb.
    + reflexivity.
    + exact Hrows.
  - intros r' Hr'. simpl in *. by eapply Forall_forall in Hok.
  - intros Hnone r' Hr' Hid. pose proof (Hso Hnone) as Hnil.
    subst bsets. subst so.
    apply traverse_Forall2 in Hrows. simpl in Hr'.
    apply list_elem_of_lookup in Hr' as [i Hi].
    destruct (Forall2_lookup_r _ _ _ _ _ Hrows Hi) as (r & _ & Hrow).
    apply update_row_effect in Hrow; [|by apply (bool_decide_unpack _)].
    pose proof (where_id_holds id r) as Hwhere.
    destruct (where_holds [BEq IssueId (CInt id)] r).
    + destruct Hrow as (_ & _ & Hwritten).
      assert (cell_of Status r' = CNull) as Hcell.
      { apply Hwritten; [apply list_elem_of_here|done]. }
      simpl in Hcell. by destruct (Store.status r').
    + subst r'. destruct Hwhere as [_ Hw]. by apply Hw in Hid.
Qed.

End TakenFacts.

(** X20: on a store whose rows satisfy the foreign keys of the table, and
    for an id in the range of the [issue_id] column,
    [updateStatus] returns, with the number of rows that have the id,
    whenever the status is one of [VALID_STATUSES], and also when it is
    undefined or null, in which case the rows with the id are left with a
    NULL status; the rows satisfy the constraints afterwards.  The
    update-status handler then answers an id that names a row with the
    success response for the record with that id. *)
Theorem status_update_is_taken (id : Z) (status : Js.value) (now : Z)
    (d : Store.db) :
  Spec.consistent d →
  Spec.writable_status status →
  Spec.int4 id →
  (∃ d',
     IssueModel.updateStatus id status now d
     = (Ok (Z.of_nat (length (filter (λ r, Store.issue_id r = id)
                                (Store.issues d)))), d')
     ∧ Spec.consistent d'
     ∧ Store.users d' = Store.users d
     ∧ ((status = Js.Undefined ∨ status = Js.Null) →
        ∀ r', r' ∈ Store.issues d' → Store.issue_id r' = id →
              Store.status r' = None))
  ∧ (Spec.present id d →
     ∀ req,
       Middleware.params_id req = id →
       Js.prop (Middleware.body req) "status" = status →
       ∃ data msg d',
         IssueController.updateStatus req now d
         = (IssueController.successResponse (Some data) msg, d')
         ∧ IssueController.id data = id
         ∧ Store.journal d'
           = Store.journal d ++ [Store.SELECT; Store.UPDATE; Store.SELECT]).
Proof.
  intros Hcons Hst _. split; [by apply updateStatus_taken|].
  intros Hp req Hid Hbody.
  destruct (getIssueById_present id now d) as (j0 & Hget0 & _);
    [by apply present_ids|].
  destruct (updateStatus_taken id status now (Store.received Store.SELECT d))
    as (d1 & Hupd & _); [done|done|].
  destruct (refetch_after id now (Store.received Store.SELECT d) d1)
    as (j & Hget & _ & Hj); [done|by apply updateStatus_ids in Hupd|].
  assert (Hj1 : Store.journal d1
                = Store.journal d ++ [Store.SELECT; Store.UPDATE]).
  { revert Hupd. unfold IssueModel.updateStatus, Store.bind.
    destruct (Store.query_update _ _ _ _ _) as [[ids|] d2] eqn:Hq; [|done].
    intros [= _ <-].
    apply query_update_ok in Hq as (_ & _ & _ & _ & _ & _ & _ & _ & _ & _ & ->).
    simpl. by rewrite <-app_assoc. }
  eexists (IssueController.format_row j), _, (Store.received Store.SELECT d1).
  split; [|split; [done|]].
  - unfold IssueController.updateStatus, IssueController.try_catch, Store.bind.
    cbv zeta. rewrite Hid, Hbody, Hget0, Hupd, Hget. reflexivity.
  - simpl. rewrite Hj1, <-app_assoc. done.
Qed.

Lemma status_update_is_taken_witness :
  ∃ data msg d',
    IssueController.updateStatus
      (Samples.as_ann 2 {[ "status" := Js.Str "Closed" ]}) 300 Samples.db0
    = (IssueController.successResponse (Some data) msg, d')
    ∧ IssueController.id data = 2.
Proof.
  assert (Hcons : Spec.consistent Samples.db0).
  { intros r Hr. repeat (apply elem_of_cons in Hr as [->|Hr]);
      [reflexivity..|by apply not_elem_of_nil in Hr]. }
  assert (Hst : Spec.writable_status (Js.Str "Closed")).
  { right. right. exists "Closed". split; [done|].
    by apply (bool_decide_unpack _). }
  assert (Hp : Spec.present 2 Samples.db0).
  { exists Samples.crash. split; [|done].
    apply list_elem_of_further, list_elem_of_here. }
  assert (Hbody : Js.prop
                    (Middleware.body
                       (Samples.as_ann 2 {[ "status" := Js.Str "Closed" ]}))
                    "status" = Js.Str "Closed") by (vm_compute; reflexivity).
  destruct (proj2 (status_update_is_taken 2 (Js.Str "Closed") 300 Samples.db0
                     Hcons Hst ltac:(unfold Spec.int4; lia)) Hp
              (Samples.as_ann 2 {[ "status" := Js.Str "Closed" ]})
              eq_refl Hbody)
    as (data & msg & d' & Hrun & Hid & _).
  by exists data, msg, d'.
Defined.

(* ===================================================================== *)
(** * Issued tokens *)
(* ===================================================================== *)

(** X21: a token that [generateToken] has issued for a user row, when the
    verifier accepts it with the payload that was signed, authenticates as
    that user: sent as [Bearer <token>], it makes [authenticate] and
    [optionalAuth] go on with the row's [user_id], [email] and [name] on the
    request, the issue router runs the handler of the route on that request,
    and the [userId] the handlers read is the row's [user_id]. *)
Theorem issued_token_names_its_user
    (jwt_sign : Middleware.identity → string)
    (jwt_verify : string → result Middleware.claims)
    (user : Store.user_row) (decoded : Middleware.claims)
    (req : Middleware.request) :
  jwt_verify (Tokens.generateToken jwt_sign user) = Ok decoded →
  Middleware.identity_of decoded = Tokens.payload_of user →
  Spec.space_free (Tokens.generateToken jwt_sign user) = true →
  Middleware.authorization req
  = Some ("Bearer " +:+ Tokens.generateToken jwt_sign user) →
  Middleware.authenticate jwt_verify req
  = Middleware.Next
      (Middleware.set_user
         (Some {| Middleware.userId := Js.Num (Store.user_id user);
                  Middleware.email := Js.Str (Store.email user);
                  Middleware.name := Js.Str (Store.name user) |}) req)
  ∧ Middleware.optionalAuth jwt_verify req
    = Middleware.authenticate jwt_verify req
  ∧ (∀ route now d,
       IssueRoutes.router jwt_verify route req now d
       = IssueRoutes.handler route
           (Middleware.set_user (Some (Tokens.payload_of user)) req) now d)
  ∧ (∀ d, IssueController.req_userId
            (Middleware.set_user (Some (Tokens.payload_of user)) req) d
          = (Ok (Js.Num (Store.user_id user)), d)).
Proof.
  intros Hv Hpayload Hfree Hh.
  assert (Hform : Spec.bearer_form
                    ("Bearer " +:+ Tokens.generateToken jwt_sign user)
                    (Tokens.generateToken jwt_sign user)) by done.
  pose proof (authenticate_valid jwt_verify req _ _ decoded Hh Hform Hv)
    as Hauth.
  rewrite Hpayload in Hauth.
  split; [exact Hauth|]. split; [|split].
  - rewrite Hauth.
    unfold Middleware.optionalAuth, Middleware.optionalAuth_try.
    rewrite Hh, (bearer_form_not_empty _ _ Hform).
    apply bearer_token_form in Hform. cbn [default id].
    by rewrite Hform, Hv, Hpayload.
  - intros route now d.
    unfold IssueRoutes.router, IssueRoutes.use_authenticate.
    by rewrite Hauth.
  - done.
Qed.

Lemma issued_token_names_its_user_witness :
  Middleware.authenticate Samples.jwt0
    (Samples.request0 (Some "Bearer good") 1 ∅)
  = Middleware.Next
      (Middleware.set_user
         (Some {| Middleware.userId := Js.Num 1;
                  Middleware.email := Js.Str "ann@example.org";
                  Middleware.name := Js.Str "Ann" |})
         (Samples.request0 (Some "Bearer good") 1 ∅)).
Proof.
  exact (proj1 (issued_token_names_its_user (λ _, "good"%string) Samples.jwt0
                  Samples.ann Samples.ann_claims
                  (Samples.request0 (Some "Bearer good") 1 ∅)
                  eq_refl eq_refl eq_refl eq_refl)).
Defined.
